(** * sse-redis: connection registry and bus message router

    A shallow embedding of [src/connection-registry.js], of
    [src/redis-subscriber.js] and of the request layer, the start and the
    shutdown of [src/index.js], with the properties of the design document
    that can be stated over it and further properties of the code.

    The JavaScript objects are shared and mutated in place, so the model
    keeps an explicit store: [ConnectionEntry] objects live in a heap and
    are named by references; the registry's [Map] holds references. The
    transport ([http.ServerResponse]), the timers, the clock, the console
    and the [JSON] built-ins are outside the repository: the transport and
    [JSON] are oracles of an environment record, the rest is recorded in
    the world. *)

From Stdlib Require Import ZArith PrimFloat.
From stdpp Require Import gmap strings list fin_maps.
From stdpp Require Import sorting relations.

#[local] Set Warnings "-register-all".

(** ** JavaScript values *)

(** The values a bus record or an event payload can be: what [JSON.parse]
    builds, and [undefined]. Numbers are IEEE binary64 as in JavaScript.
    An object is its list of own properties; a lookup takes the first
    binding of a key. *)
Inductive JSValue : Type :=
| JUndefined
| JNull
| JBool (b : bool)
| JNum (x : float)
| JStr (s : string)
| JArr (elems : list JSValue)
| JObj (props : list (string * JSValue)).

(** Error objects; [message] is the [err.message] the handlers log. *)
Inductive JSError : Type :=
| SyntaxError (msg : string)
| TypeError (msg : string)
| Error (msg : string).

Definition message (err : JSError) : string :=
  match err with
  | SyntaxError m | TypeError m | Error m => m
  end.

(** ToBoolean: [undefined], [null], [false], [+0], [-0], [NaN] and the empty
    string are falsy; everything else, every object included, is truthy. *)
Definition truthy (v : JSValue) : bool :=
  match v with
  | JUndefined | JNull => false
  | JBool b => b
  | JNum x => negb (PrimFloat.is_zero x || PrimFloat.is_nan x)
  | JStr s => negb (String.eqb s EmptyString)
  | JArr _ | JObj _ => true
  end.

(** [a || b] on values. *)
Definition js_or (a b : JSValue) : JSValue := if truthy a then a else b.

(** The line feed of the template literals. *)
Definition nl : string := String (Ascii.ascii_of_nat 10) EmptyString.

(** ** The store *)

Abbreviation Ref := nat (only parsing).      (* a ConnectionEntry object *)
Abbreviation Handle := nat (only parsing).   (* a transport: the response object *)
Abbreviation TimerId := nat (only parsing).  (* what setInterval returns *)

(** The fields of [ConnectionEntry]. The [registry] field is left out: the
    class is not exported and its only constructor call, in [register],
    passes the module's single registry, so [if (this.registry)] in [close]
    always takes the branch. [eventCount] is a natural number. Dates are
    milliseconds since the epoch. [heartbeatInterval] is [null] or a timer. *)
Record ConnectionEntry : Type := mkEntry {
  clientName : string;
  response : Handle;
  podName : string;
  connectedAt : Z;
  lastActivity : Z;
  heartbeatInterval : option TimerId;
  eventCount : nat;
  isAlive : bool
}.

Definition set_lastActivity (t : Z) (e : ConnectionEntry) : ConnectionEntry :=
  mkEntry (clientName e) (response e) (podName e) (connectedAt e) t
          (heartbeatInterval e) (eventCount e) (isAlive e).

Definition set_heartbeatInterval (h : option TimerId) (e : ConnectionEntry)
  : ConnectionEntry :=
  mkEntry (clientName e) (response e) (podName e) (connectedAt e)
          (lastActivity e) h (eventCount e) (isAlive e).

Definition set_eventCount (n : nat) (e : ConnectionEntry) : ConnectionEntry :=
  mkEntry (clientName e) (response e) (podName e) (connectedAt e)
          (lastActivity e) (heartbeatInterval e) n (isAlive e).

Definition set_isAlive (b : bool) (e : ConnectionEntry) : ConnectionEntry :=
  mkEntry (clientName e) (response e) (podName e) (connectedAt e)
          (lastActivity e) (heartbeatInterval e) (eventCount e) b.

(** The four listeners of [setupDisconnectHandlers]. *)
Inductive TransportEvent : Type :=
| ReqClose | ReqError | ResError | ResFinish.

(** What the code does to the outside, in order: calls on the transport
    and on the timer API. A call is recorded whether it returns or throws. *)
Inductive Effect : Type :=
| EOn (h : Handle) (ev : TransportEvent) (listener : Ref)
| ESetInterval (t : TimerId) (callback : Ref) (period : Z)
| EClearInterval (t : TimerId)
| EWrite (h : Handle) (chunk : string)
| EEnd (h : Handle).

(** One constructor per [console.log] of the two modules, with the data
    the line interpolates (the constant pod prefix left out). *)
Inductive LogLine : Type :=
| LogDisconnectEvent (name : string)
| LogRequestError (name msg : string)
| LogResponseError (name msg : string)
| LogHeartbeatFailed (name : string)
| LogHeartbeatSent (name : string)
| LogHeartbeatError (name msg : string)
| LogCannotSend (name : string)
| LogWriteFailed (name : string)
| LogEventSent (count : nat) (name : string) (action : JSValue)
| LogWriteError (name msg : string)
| LogClosing (name : string)
| LogEndError (name msg : string)
| LogForcedEviction (name : string)
| LogRegistered (name pod : string) (total : nat)
| LogRemoved (name : string) (total : nat)
| LogMaxReconnect
| LogReconnecting (delay times : Z)
| LogReceived (channel msg : string)
| LogInvalidMessage
| LogErrorHandling (msg : string)
| LogNotOnThisPod (target : JSValue) (pod : string)
| LogConnectionNotFound (target : JSValue)
| LogFailedToSend (target : JSValue)
| LogRouted (target : JSValue) (pod : string).

(** The process state the two modules act on. [connections] is the
    registry's [Map]; [intervals] are the timers that are still scheduled,
    each with the entry its heartbeat callback closes over; [clock] is what
    [new Date()] reads. *)
Record World : Type := mkWorld {
  heap : list ConnectionEntry;
  connections : gmap string Ref;
  intervals : gmap TimerId Ref;
  next_timer : TimerId;
  clock : Z;
  effects : list Effect;
  console : list LogLine
}.

Definition set_heap (f : list ConnectionEntry -> list ConnectionEntry)
  (w : World) : World :=
  mkWorld (f (heap w)) (connections w) (intervals w) (next_timer w)
          (clock w) (effects w) (console w).

Definition set_connections (f : gmap string Ref -> gmap string Ref)
  (w : World) : World :=
  mkWorld (heap w) (f (connections w)) (intervals w) (next_timer w)
          (clock w) (effects w) (console w).

Definition set_intervals (f : gmap TimerId Ref -> gmap TimerId Ref)
  (w : World) : World :=
  mkWorld (heap w) (connections w) (f (intervals w)) (next_timer w)
          (clock w) (effects w) (console w).

Definition set_next_timer (t : TimerId) (w : World) : World :=
  mkWorld (heap w) (connections w) (intervals w) t
          (clock w) (effects w) (console w).

Definition set_clock (t : Z) (w : World) : World :=
  mkWorld (heap w) (connections w) (intervals w) (next_timer w)
          t (effects w) (console w).

Definition emit (x : Effect) (w : World) : World :=
  mkWorld (heap w) (connections w) (intervals w) (next_timer w)
          (clock w) (effects w ++ [x]) (console w).

Definition print (l : LogLine) (w : World) : World :=
  mkWorld (heap w) (connections w) (intervals w) (next_timer w)
          (clock w) (effects w) (console w ++ [l]).

(** A freshly started process: the module-level [new ConnectionRegistry()]. *)
Definition initial_world (t0 : Z) : World :=
  mkWorld [] ∅ ∅ 0 t0 [] [].

(** ** Computations: state and exceptions *)

Inductive Completion (A : Type) : Type :=
| Normal (a : A)
| Throw (err : JSError).
Arguments Normal {A} a.
Arguments Throw {A} err.

Definition M (A : Type) : Type := World -> World * Completion A.

Definition ret {A} (a : A) : M A := fun w => (w, Normal a).

Definition throw {A} (err : JSError) : M A := fun w => (w, Throw err).

Definition bind {A B} (c : M A) (k : A -> M B) : M B :=
  fun w => match c w with
           | (w', Normal a) => k a w'
           | (w', Throw err) => (w', Throw err)
           end.

(** [try { body } catch (err) { handler }] *)
Definition try_catch {A} (body : M A) (handler : JSError -> M A) : M A :=
  fun w => match body w with
           | (w', Normal a) => (w', Normal a)
           | (w', Throw err) => handler err w'
           end.

Declare Scope js_scope.
Delimit Scope js_scope with js.
Notation "x <- c ;; k" := (bind c (fun x => k))
  (at level 100, c at next level, right associativity) : js_scope.
Notation "c ;; k" := (bind c (fun _ => k))
  (at level 100, right associativity) : js_scope.
Local Open Scope js_scope.

Definition exec {A} (c : M A) (w : World) : World := fst (c w).
Definition result {A} (c : M A) (w : World) : Completion A := snd (c w).

(** [console.log] *)
Definition console_log (l : LogLine) : M unit :=
  fun w => (print l w, Normal tt).

(** [new Date()] / [Date.now()] *)
Definition new_Date : M Z := fun w => (w, Normal (clock w)).

(** Reading a field of the object behind a reference. A reference that
    names no object does not arise from the code; reading through one
    throws, as a property access on [undefined] does. *)
Definition getf {A} (r : Ref) (field : ConnectionEntry -> A) : M A :=
  fun w => match heap w !! r with
           | Some e => (w, Normal (field e))
           | None => (w, Throw (TypeError "Cannot read properties of undefined"))
           end.

(** Assigning to fields of the object behind a reference. *)
Definition setf (r : Ref) (upd : ConnectionEntry -> ConnectionEntry) : M unit :=
  fun w => (set_heap (alter upd r) w, Normal tt).

(** [new]: the fresh reference is the next free position of the heap. *)
Definition alloc (e : ConnectionEntry) : M Ref :=
  fun w => (set_heap (fun h => h ++ [e]) w, Normal (length (heap w))).

(** The own property [key] of an object, if it has one. *)
Fixpoint own_property (key : string) (props : list (string * JSValue))
  : option JSValue :=
  match props with
  | [] => None
  | (k, v) :: rest => if String.eqb k key then Some v else own_property key rest
  end.

(** [undefined] and [null], the values without properties. *)
Definition nullish (v : JSValue) : bool :=
  match v with
  | JUndefined | JNull => true
  | _ => false
  end.

(** What [v.key] evaluates to on a value that is not nullish, for a key
    that no built-in prototype defines ([clientName], [action]): the own
    property of an object if it has one, [undefined] otherwise. *)
Definition property (v : JSValue) (key : string) : JSValue :=
  match v with
  | JObj props => default JUndefined (own_property key props)
  | _ => JUndefined
  end.

(** The error of reading a property of [undefined] or [null]. The engine
    words the message, differently from one version to the next; the model
    fixes one text. *)
Definition read_error (key : string) : JSError :=
  TypeError ("Cannot read properties of null or undefined, reading " +:+ key).

(** [v.key]: a [TypeError] on [undefined] and [null]. *)
Definition get_prop (v : JSValue) (key : string) : M JSValue :=
  if nullish v then throw (read_error key) else ret (property v key).

(** The error of converting to a string an object that has no primitive
    value. *)
Definition cannot_convert : JSError :=
  TypeError "Cannot convert object to primitive value".

(** Whether a value built by [JSON.parse] has a string form. An object
    with an own [toString] has it from [JSON.parse], so it is no function:
    the conversion skips it, finds [Object.prototype.valueOf] returning the
    object itself, and throws. An array is joined, each element converted in
    turn. *)
Fixpoint convertible (v : JSValue) : bool :=
  match v with
  | JArr elems =>
      (fix every (l : list JSValue) : bool :=
         match l with
         | [] => true
         | e :: rest => convertible e && every rest
         end) elems
  | JObj props =>
      match own_property "toString" props with
      | Some _ => false
      | None => true
      end
  | _ => true
  end.

(** [${v}] in a template literal evaluated for a log line: the conversion
    of [v] to a string, which throws when [v] has none. The line itself
    records the value. *)
Definition interpolate (v : JSValue) : M unit :=
  if convertible v then ret tt else throw cannot_convert.

(** Where a counter stops: numbers are doubles, and [2^53 + 1] rounds
    back to [2^53]. *)
Definition MAX_SAFE : N := 9007199254740992.

(** [n++] on a counter that starts at [0] and is only ever incremented:
    every value up to [2^53] is exact, and there the counter stays. *)
Definition increment (n : nat) : nat :=
  if (N.of_nat n <? MAX_SAFE)%N then n + 1 else n.

(** ** The environment *)

(** What lies outside the repository and decides how a call ends. The
    transport's answers may depend on everything done so far (the effects
    recorded in the world), so a transport may accept a write and refuse the
    next one. Events of a stream are delivered by the event loop, not from
    inside [write] or [end]: no listener runs during these calls. *)
Record Env : Type := mkEnv {
  JSON_parse : string -> Completion JSValue;
  JSON_stringify : JSValue -> string;
  toISOString : Z -> string;
  res_write : list Effect -> Handle -> string -> Completion bool;
  res_end : list Effect -> Handle -> Completion unit;
  POD_NAME : option string   (* process.env.POD_NAME *)
}.

Section Program.

Context (env : Env).

(** [response.write(chunk)] *)
Definition response_write (h : Handle) (chunk : string) : M bool :=
  fun w => (emit (EWrite h chunk) w, res_write env (effects w) h chunk).

(** [response.end()] *)
Definition response_end (h : Handle) : M unit :=
  fun w => (emit (EEnd h) w, res_end env (effects w) h).

(** [setInterval(callback, period)], the callback being the heartbeat of
    entry [r]. *)
Definition setInterval (r : Ref) (period : Z) : M TimerId :=
  fun w =>
    let t := next_timer w in
    (emit (ESetInterval t r period)
       (set_next_timer (S t) (set_intervals (insert t r) w)),
     Normal t).

(** [clearInterval(t)] *)
Definition clearInterval (t : TimerId) : M unit :=
  fun w => (emit (EClearInterval t) (set_intervals (delete t) w), Normal tt).

(** [`${JSON.stringify(v)}`]: [JSON.stringify(undefined)] is [undefined],
    which the template literal prints as such. *)
Definition stringify_in_template (v : JSValue) : string :=
  match v with
  | JUndefined => "undefined"
  | _ => JSON_stringify env v
  end.

(** *** ConnectionRegistry: the methods on the [Map] *)

(** [Map] compares keys by SameValueZero. [register] stores string keys
    only (the route parameter), so a key of another type is never found. *)
Definition as_key (k : JSValue) : option string :=
  match k with
  | JStr s => Some s
  | _ => None
  end.

Definition lookup_key (k : JSValue) (m : gmap string Ref) : option Ref :=
  match as_key k with
  | Some s => m !! s
  | None => None
  end.

(** [get(clientName)]; [None] is [undefined]. *)
Definition get (k : JSValue) : M (option Ref) :=
  fun w => (w, Normal (lookup_key k (connections w))).

(** [has(clientName)] *)
Definition has (k : JSValue) : M bool :=
  fun w => (w, Normal (bool_decide (is_Some (lookup_key k (connections w))))).

(** [count()] *)
Definition count : M nat :=
  fun w => (w, Normal (size (connections w))).

(** [this.connections.delete(clientName)] *)
Definition Map_delete (name : string) : M bool :=
  fun w => (set_connections (delete name) w,
            Normal (bool_decide (is_Some (connections w !! name)))).

(** [this.connections.set(clientName, connection)] *)
Definition Map_set (name : string) (r : Ref) : M unit :=
  fun w => (set_connections (insert name r) w, Normal tt).

(** [remove(clientName)] *)
Definition remove (name : string) : M bool :=
  existed <- Map_delete name ;;
  (if existed
   then (total <- count ;; console_log (LogRemoved name total))
   else ret tt) ;;
  ret existed.

(** *** ConnectionEntry *)

(** [close()] *)
Definition close (this : Ref) : M unit :=
  alive <- getf this isAlive ;;
  if negb alive then ret tt
  else
    name <- getf this clientName ;;
    console_log (LogClosing name) ;;
    setf this (set_isAlive false) ;;
    timer <- getf this heartbeatInterval ;;
    match timer with
    | Some t => clearInterval t ;; setf this (set_heartbeatInterval None)
    | None => ret tt
    end ;;
    resp <- getf this response ;;
    try_catch (response_end resp)
              (fun err => console_log (LogEndError name (message err))) ;;
    remove name ;;
    ret tt.

(** The chunk [sendEvent] writes: [`data: ${JSON.stringify(event)}\n\n`]. *)
Definition data_message (event : JSValue) : string :=
  "data: " +:+ stringify_in_template event +:+ nl +:+ nl.

(** [sendEvent(event)] *)
Definition sendEvent (this : Ref) (event : JSValue) : M bool :=
  alive <- getf this isAlive ;;
  name <- getf this clientName ;;
  if negb alive then
    console_log (LogCannotSend name) ;;
    ret false
  else
    try_catch
      (let message := data_message event in
       resp <- getf this response ;;
       success <- response_write resp message ;;
       if negb success then
         console_log (LogWriteFailed name) ;;
         close this ;;
         ret false
       else
         n <- getf this eventCount ;;
         setf this (set_eventCount (increment n)) ;;
         now <- new_Date ;;
         setf this (set_lastActivity now) ;;
         n' <- getf this eventCount ;;
         action <- get_prop event "action" ;;
         interpolate (js_or action (JStr "event")) ;;
         console_log (LogEventSent n' name (js_or action (JStr "event"))) ;;
         ret true)
      (fun err =>
         console_log (LogWriteError name (message err)) ;;
         close this ;;
         ret false).

(** [updateActivity()] *)
Definition updateActivity (this : Ref) : M unit :=
  now <- new_Date ;;
  setf this (set_lastActivity now).

(** [getStats()] *)
Record Stats : Type := mkStats {
  stats_clientName : string;
  stats_podName : string;
  stats_connectedAt : string;
  stats_lastActivity : string;
  stats_eventCount : nat;
  stats_isAlive : bool;
  stats_uptime : Z
}.

Definition getStats (this : Ref) : M Stats :=
  e <- getf this id ;;
  now <- new_Date ;;
  ret (mkStats (clientName e) (podName e)
               (toISOString env (connectedAt e))
               (toISOString env (lastActivity e))
               (eventCount e) (isAlive e)
               ((now - connectedAt e) / 1000)%Z).

(** The [cleanup] closure of [setupDisconnectHandlers]. *)
Definition cleanup (this : Ref) : M unit :=
  alive <- getf this isAlive ;;
  if alive then
    name <- getf this clientName ;;
    console_log (LogDisconnectEvent name) ;;
    close this
  else ret tt.

(** The listener the entry installed for a transport event; [err] is the
    argument of the two error events. *)
Definition on_transport_event (ev : TransportEvent) (err : JSError)
  (this : Ref) : M unit :=
  match ev with
  | ReqClose | ResFinish => cleanup this
  | ReqError =>
      name <- getf this clientName ;;
      console_log (LogRequestError name (message err)) ;;
      cleanup this
  | ResError =>
      name <- getf this clientName ;;
      console_log (LogResponseError name (message err)) ;;
      cleanup this
  end.

(** [setupDisconnectHandlers()] *)
Definition setupDisconnectHandlers (this : Ref) : M unit :=
  resp <- getf this response ;;
  (fun w => (emit (EOn resp ReqClose this) w, Normal tt)) ;;
  (fun w => (emit (EOn resp ReqError this) w, Normal tt)) ;;
  (fun w => (emit (EOn resp ResError this) w, Normal tt)) ;;
  (fun w => (emit (EOn resp ResFinish this) w, Normal tt)).

(** The keepalive comment: [`: heartbeat ${new Date().toISOString()}\n\n`]. *)
Definition heartbeat_message (now : Z) : string :=
  ": heartbeat " +:+ toISOString env now +:+ nl +:+ nl.

(** The callback [startHeartbeat] hands to [setInterval]. *)
Definition heartbeat (this : Ref) : M unit :=
  alive <- getf this isAlive ;;
  if negb alive then ret tt
  else
    name <- getf this clientName ;;
    try_catch
      (now <- new_Date ;;
       let heartbeatMsg := heartbeat_message now in
       resp <- getf this response ;;
       success <- response_write resp heartbeatMsg ;;
       if negb success then
         console_log (LogHeartbeatFailed name) ;;
         close this
       else
         console_log (LogHeartbeatSent name))
      (fun err =>
         console_log (LogHeartbeatError name (message err)) ;;
         close this).

(** [startHeartbeat()] *)
Definition startHeartbeat (this : Ref) : M unit :=
  t <- setInterval this 30000 ;;
  setf this (set_heartbeatInterval (Some t)).

(** The event loop running a timer: only a scheduled interval fires. *)
Definition interval_fires (t : TimerId) : M unit :=
  fun w => match intervals w !! t with
           | Some r => heartbeat r w
           | None => (w, Normal tt)
           end.

(** [new ConnectionEntry(clientName, response, podName, registry)] *)
Definition new_ConnectionEntry (name : string) (resp : Handle) (pod : string)
  : M Ref :=
  connected <- new_Date ;;
  last <- new_Date ;;
  this <- alloc (mkEntry name resp pod connected last None 0 true) ;;
  setupDisconnectHandlers this ;;
  startHeartbeat this ;;
  ret this.

(** *** ConnectionRegistry.register *)

Definition register (name : string) (resp : Handle) (pod : string) : M Ref :=
  exists_ <- has (JStr name) ;;
  (if exists_ then
     console_log (LogForcedEviction name) ;;
     oldConnection <- get (JStr name) ;;
     match oldConnection with
     | Some old => close old
     | None => throw (TypeError "Cannot read properties of undefined")
     end ;;
     Map_delete name ;;
     ret tt
   else ret tt) ;;
  connection <- new_ConnectionEntry name resp pod ;;
  Map_set name connection ;;
  total <- count ;;
  console_log (LogRegistered name pod total) ;;
  ret connection.

(** [updateActivity(clientName)] of the registry *)
Definition registry_updateActivity (k : JSValue) : M unit :=
  connection <- get k ;;
  match connection with
  | Some c => updateActivity c
  | None => ret tt
  end.

(** *** RedisSubscriber *)

Record Config : Type := mkConfig {
  host : string;
  port : Z;
  channel : string;
  config_podName : option string
}.

Record RedisSubscriber : Type := mkSubscriber {
  config : Config;
  isConnected : bool;
  reconnectAttempts : Z;
  maxReconnectAttempts : Z;
  sub_podName : string
}.

(** [a || b] where [a] is a string or [undefined]. *)
Definition or_else (a : option string) (b : string) : string :=
  match a with
  | Some s => if String.eqb s EmptyString then b else s
  | None => b
  end.

(** [new RedisSubscriber(config)] *)
Definition new_RedisSubscriber (cfg : Config) : RedisSubscriber :=
  mkSubscriber cfg false 0 10
    (or_else (config_podName cfg) (or_else (POD_NAME env) "local-pod")).

(** The [retryStrategy] closure handed to the bus client; [None] is the
    [null] that tells the client to stop reconnecting. *)
Definition retryStrategy (this : RedisSubscriber) (times : Z) : M (option Z) :=
  if (maxReconnectAttempts this <? times)%Z then
    console_log LogMaxReconnect ;;
    ret None
  else
    let delay := Z.min (times * 100) 2000 in
    console_log (LogReconnecting delay times) ;;
    ret (Some delay).

(** [routeToClient(event)] *)
Definition routeToClient (this : RedisSubscriber) (event : JSValue) : M unit :=
  target <- get_prop event "clientName" ;;
  present <- has target ;;
  if negb present then
    interpolate target ;;
    console_log (LogNotOnThisPod target (sub_podName this))
  else
    connection <- get target ;;
    match connection with
    | None =>
        interpolate target ;;
        console_log (LogConnectionNotFound target)
    | Some c =>
        success <- sendEvent c event ;;
        if negb success
        then interpolate target ;; console_log (LogFailedToSend target)
        else interpolate target ;; console_log (LogRouted target (sub_podName this))
    end.

(** [handleMessage(channel, message)] *)
Definition handleMessage (this : RedisSubscriber) (chan msg : string) : M unit :=
  try_catch
    (console_log (LogReceived chan msg) ;;
     event <- (fun w => (w, JSON_parse env msg)) ;;
     target <- get_prop event "clientName" ;;
     if negb (truthy target) then
       console_log LogInvalidMessage
     else
       routeToClient this event)
    (fun err => console_log (LogErrorHandling (message err))).

End Program.

(** ** Closed forms used in the statements *)

(** Calling a method [n] times in a row. *)
Fixpoint repeat_call (n : nat) (c : M unit) : M unit :=
  match n with
  | O => ret tt
  | S n' => c ;; repeat_call n' c
  end.

(** The timer calls [close] makes for an entry in state [e]. *)
Definition cancelled (e : ConnectionEntry) : list Effect :=
  match heartbeatInterval e with
  | Some t => [EClearInterval t]
  | None => []
  end.

(** The entry [e] once closed. *)
Definition closed (e : ConnectionEntry) : ConnectionEntry :=
  set_heartbeatInterval None (set_isAlive false e).

(** The world [close] leaves when called on the live entry [e] at [r]. *)
Definition after_close (env : Env) (w : World) (r : Ref) (e : ConnectionEntry)
  : World :=
  let name := clientName e in
  mkWorld
    (<[r := closed e]> (heap w))
    (delete name (connections w))
    (match heartbeatInterval e with
     | Some t => delete t (intervals w)
     | None => intervals w
     end)
    (next_timer w) (clock w)
    (effects w ++ cancelled e ++ [EEnd (response e)])
    (console w ++ [LogClosing name]
       ++ match res_end env (effects w ++ cancelled e) (response e) with
          | Throw err => [LogEndError name (message err)]
          | Normal _ => []
          end
       ++ if bool_decide (is_Some (connections w !! name))
          then [LogRemoved name (size (delete name (connections w)))]
          else []).

(** How often an item satisfying [p] occurs in a trace. *)
Definition occurrences {A} (p : A -> bool) (l : list A) : nat :=
  length (filter (fun x => p x = true) l).

(** The entry [e] after a delivery at time [now]. *)
Definition delivered (now : Z) (e : ConnectionEntry) : ConnectionEntry :=
  set_lastActivity now (set_eventCount (increment (eventCount e)) e).

(** What evaluating the log line of a delivery throws, if anything:
    [event.action] cannot be read off [null] or [undefined], and an action
    without a string form cannot be put into the line. *)
Definition log_fault (event : JSValue) : option JSError :=
  if nullish event then Some (read_error "action")
  else if convertible (js_or (property event "action") (JStr "event")) then None
  else Some cannot_convert.

Definition is_clearInterval (x : Effect) : bool :=
  match x with EClearInterval _ => true | _ => false end.

Definition is_end (x : Effect) : bool :=
  match x with EEnd _ => true | _ => false end.

Definition is_removal (l : LogLine) : bool :=
  match l with LogRemoved _ _ => true | _ => false end.

Definition is_closing (l : LogLine) : bool :=
  match l with LogClosing _ => true | _ => false end.

(** *** Messages the router drops *)

(** The target identity a parsed bus message carries: the own property
    [clientName] of a record. A text that does not parse, a value that is
    not a record and a record without the property carry none. *)
Definition target_of (parsed : Completion JSValue) : option JSValue :=
  match parsed with
  | Normal (JObj props) => own_property "clientName" props
  | _ => None
  end.

(** The line [handleMessage] prints for a message it drops before routing;
    it is a function of the message alone. *)
Definition drop_line (parsed : Completion JSValue) : LogLine :=
  match parsed with
  | Throw err => LogErrorHandling (message err)
  | Normal v =>
      if nullish v
      then LogErrorHandling (message (read_error "clientName"))
      else LogInvalidMessage
  end.

(** A world that differs from [w] by console lines only. *)
Definition only_logged (w w' : World) (lines : list LogLine) : Prop :=
  heap w' = heap w /\ connections w' = connections w /\
  intervals w' = intervals w /\ next_timer w' = next_timer w /\
  clock w' = clock w /\ effects w' = effects w /\
  console w' = console w ++ lines.

(** *** Registration *)

(** The entry the constructor builds in world [w]. *)
Definition new_entry (name : string) (resp : Handle) (pod : string) (w : World)
  : ConnectionEntry :=
  mkEntry name resp pod (clock w) (clock w) (Some (next_timer w)) 0 true.

(** The world after [new ConnectionEntry(name, resp, pod, registry)]. *)
Definition created (name : string) (resp : Handle) (pod : string) (w : World)
  : World :=
  let r := length (heap w) in
  mkWorld (heap w ++ [new_entry name resp pod w])
          (connections w)
          (<[next_timer w := r]> (intervals w))
          (S (next_timer w)) (clock w)
          (effects w ++ [EOn resp ReqClose r; EOn resp ReqError r;
                         EOn resp ResError r; EOn resp ResFinish r;
                         ESetInterval (next_timer w) r 30000])
          (console w).

(** The world after the second half of [register]: construct, store, log. *)
Definition stored (name : string) (resp : Handle) (pod : string) (w : World)
  : World :=
  let r := length (heap w) in
  print (LogRegistered name pod (size (<[name := r]> (connections w))))
    (set_connections (insert name r) (created name resp pod w)).

(** The world after the first half of [register]: the eviction. *)
Definition evicted (env : Env) (name : string) (w : World) : World :=
  match connections w !! name with
  | Some old =>
      set_connections (delete name)
        (exec (close env old) (print (LogForcedEviction name) w))
  | None => w
  end.

(** Registered entries are live and stored under their own name, and live
    entries are registered: the registry and the [isAlive] flags agree. *)
Definition registry_inv (w : World) : Prop :=
  (forall name r, connections w !! name = Some r ->
     exists e, heap w !! r = Some e /\ clientName e = name /\ isAlive e = true) /\
  (forall r e, heap w !! r = Some e -> isAlive e = true ->
     connections w !! clientName e = Some r).

(** *** Runs *)

(** What can happen to the process: a call of the request layer, a
    callback of the event loop, or time passing. *)
Inductive Action : Type :=
| ARegister (name : string) (resp : Handle) (pod : string)
| ASendEvent (r : Ref) (event : JSValue)
| AClose (r : Ref)
| AUpdateActivity (r : Ref)
| ARegistryUpdateActivity (k : JSValue)
| AGetStats (r : Ref)
| ATransportEvent (ev : TransportEvent) (err : JSError) (r : Ref)
| AIntervalFires (t : TimerId)
| ABusMessage (this : RedisSubscriber) (chan msg : string)
| AClockAdvances (now : Z).

Definition perform (env : Env) (a : Action) (w : World) : World :=
  match a with
  | ARegister name resp pod => exec (register env name resp pod) w
  | ASendEvent r event => exec (sendEvent env r event) w
  | AClose r => exec (close env r) w
  | AUpdateActivity r => exec (updateActivity r) w
  | ARegistryUpdateActivity k => exec (registry_updateActivity k) w
  | AGetStats r => exec (getStats env r) w
  | ATransportEvent ev err r => exec (on_transport_event env ev err r) w
  | AIntervalFires t => exec (interval_fires env t) w
  | ABusMessage this chan msg => exec (handleMessage env this chan msg) w
  | AClockAdvances now => set_clock now w
  end.

(** The worlds a process can be in before it shuts down. [remove] is not
    an action: only [close] calls it. *)
Inductive reachable (env : Env) : World -> Prop :=
| reachable_start t0 : reachable env (initial_world t0)
| reachable_step w a : reachable env w -> reachable env (perform env a w).

(** *** How the operations change the store *)

(** [e'] is [e] after assignments to [lastActivity] and increments of
    [eventCount] only, the counter moving on a live entry alone. *)
Definition touched (e e' : ConnectionEntry) : Prop :=
  clientName e' = clientName e /\ response e' = response e /\
  podName e' = podName e /\ connectedAt e' = connectedAt e /\
  heartbeatInterval e' = heartbeatInterval e /\ isAlive e' = isAlive e /\
  (eventCount e <= eventCount e')%nat /\
  (isAlive e = false -> eventCount e' = eventCount e).

(** The five ways in which a method of the two classes changes entries,
    registry and timers; console, effects and clock are free. *)
Inductive prim (env : Env) : World -> World -> Prop :=
| prim_frame w w' :
    heap w' = heap w -> connections w' = connections w ->
    intervals w' = intervals w -> next_timer w' = next_timer w ->
    prim env w w'
| prim_touch w r e e' :
    heap w !! r = Some e -> touched e e' ->
    prim env w (set_heap (insert r e') w)
| prim_close w r e :
    heap w !! r = Some e -> isAlive e = true ->
    prim env w (after_close env w r e)
| prim_store w name resp pod :
    prim env w (stored name resp pod w)
| prim_unregister w name :
    prim env w (set_connections (delete name) w).

Definition steps (env : Env) : World -> World -> Prop := rtc (prim env).

(** What an entry keeps for its whole life: its identity fields, a counter
    that does not decrease, and, once closed, its closed state with the
    counter it had. *)
Definition evolves (e e' : ConnectionEntry) : Prop :=
  clientName e' = clientName e /\ response e' = response e /\
  podName e' = podName e /\ connectedAt e' = connectedAt e /\
  (eventCount e <= eventCount e')%nat /\
  (isAlive e = false -> isAlive e' = false /\ eventCount e' = eventCount e).

Definition heap_evolves (w w' : World) : Prop :=
  forall r e, heap w !! r = Some e ->
    exists e', heap w' !! r = Some e' /\ evolves e e'.

(** The scheduled intervals are the heartbeat timers of the live entries,
    and [next_timer] is beyond every timer an entry holds. *)
Definition timers_inv (w : World) : Prop :=
  (forall t r, intervals w !! t = Some r ->
     exists e, heap w !! r = Some e /\ isAlive e = true /\
               heartbeatInterval e = Some t) /\
  (forall r e, heap w !! r = Some e -> isAlive e = true ->
     exists t, heartbeatInterval e = Some t /\ intervals w !! t = Some r) /\
  (forall r e t, heap w !! r = Some e -> heartbeatInterval e = Some t ->
     (t < next_timer w)%nat).

(** A run: actions one after the other. *)
Definition run (env : Env) (actions : list Action) (w : World) : World :=
  foldl (fun w a => perform env a w) w actions.

(** *** ConnectionRegistry.getAll *)

(** The bindings of the [Map] in iteration order. A [Map] iterates in
    insertion order; [register], the only writer, deletes the key if it is
    present and then stores a fresh reference, larger than every reference
    stored before: insertion order is the order of the references. *)
Definition older (a b : string * nat) : Prop := (snd a <= snd b)%nat.

#[global] Instance older_dec : RelDecision older.
Proof. intros a b. unfold older. apply _. Defined.

Definition Map_entries (m : gmap string nat) : list (string * nat) :=
  merge_sort older (map_to_list m).

(** The loop of [getAll]: [stats.push(connection.getStats())]. *)
Fixpoint getAll_loop (env : Env) (entries : list (string * nat))
  (stats : list Stats) : M (list Stats) :=
  match entries with
  | [] => ret stats
  | (_, connection) :: rest =>
      s <- getStats env connection ;;
      getAll_loop env rest (stats ++ [s])
  end.

(** [getAll()] *)
Definition getAll (env : Env) : M (list Stats) :=
  fun w => getAll_loop env (Map_entries (connections w)) [] w.

(** What [getStats] returns for an entry in state [e] at time [now]. *)
Definition stats_at (env : Env) (now : Z) (e : ConnectionEntry) : Stats :=
  mkStats (clientName e) (podName e)
          (toISOString env (connectedAt e))
          (toISOString env (lastActivity e))
          (eventCount e) (isAlive e)
          ((now - connectedAt e) / 1000)%Z.

Definition is_write (x : Effect) : bool :=
  match x with EWrite _ _ => true | _ => false end.

(** ** The process around the registry

    The rest of the two classes ([closeAll], the listeners and the
    asynchronous methods of [RedisSubscriber]) and the request layer of
    [src/index.js]. They print lines of their own and talk to the bus client,
    to Express and to the process; what they do to these is recorded in
    [outputs], each item stamped with the length the world's console and
    effects had, which places it among them. *)

Abbreviation ClientId := nat (only parsing).   (* an ioredis client *)

(** The events of the bus client that [connect] listens to. *)
Inductive EventName : Type :=
| OnConnect | OnReady | OnError | OnClose | OnReconnecting | OnMessage.

#[global] Instance EventName_eq_dec : EqDecision EventName.
Proof. solve_decision. Defined.

(** An event with the arguments its listener takes. *)
Inductive BusEvent : Type :=
| BusConnect
| BusReady
| BusError (err : JSError)
| BusClose
| BusReconnecting
| BusMessage (chan msg : string).

Definition event_name (ev : BusEvent) : EventName :=
  match ev with
  | BusConnect => OnConnect
  | BusReady => OnReady
  | BusError _ => OnError
  | BusClose => OnClose
  | BusReconnecting => OnReconnecting
  | BusMessage _ _ => OnMessage
  end.

(** One constructor per [console.log] not among those of [LogLine]. *)
Inductive AppLine : Type :=
| LogClosingAll (total : nat)
| LogErrorClosing (msg : string)
| LogRedisConnecting (host : string) (port : Z)
| LogReconnectOnError (msg : string)
| LogRedisConnected
| LogRedisReady
| LogRedisError (msg : string)
| LogRedisClosed
| LogRedisReconnecting (attempt : Z)
| LogSubscribed (channel : string)
| LogFailedToConnect (msg : string)
| LogPublished (channel : string) (receivers : JSValue)
| LogDisconnecting
| LogRegistrationRequest (name : string)
| LogSSERequest (name : string)
| LogInitialMessageError (name msg : string)
| LogError (msg : string)
| LogShutdownReceived (signal : string)
| LogHttpServerClosed
| LogShutdownCompleted
| LogServerStarted (port : string)
| LogServerPod (pod : string)
| LogServerEnvironment (environment : string)
| LogServerRedis (host : string) (port : Z)
| LogServerChannel (channel : string)
| LogServerTestClient (port : string)
| LogServerAdmin (port : string)
| LogFailedToStart (msg : string).

(** [getStatus()] *)
Record Status : Type := mkStatus {
  status_connected : bool;
  status_channel : string;
  status_host : string;
  status_port : Z;
  status_reconnectAttempts : Z
}.

(** One constructor per object handed to [res.json]. *)
Inductive Body : Type :=
| BodyClientNameRequired
| BodyClientNameInvalid
| BodyRegistered (clientName : JSValue) (podName message timestamp : string)
| BodyHealth (podName : string) (uptime : Z) (connections : nat)
             (redis : Status) (timestamp environment : string)
| BodyConnections (podName : string) (totalConnections : nat)
                  (connections : list Stats) (timestamp : string)
| BodyClientNotFound (clientName podName : string)
| BodyClient (podName : string) (client : Stats) (timestamp : string)
| BodyNotFound (path podName : string)
| BodyInternalError (message podName : string).

(** Calls on the bus client, on Express and on the process. *)
Inductive Output : Type :=
| OLog (l : AppLine)
| ONewRedis (c : ClientId) (host : string) (port : Z)
| OOn (c : ClientId) (ev : EventName)
| OSubscribe (c : ClientId) (channel : string)
| OPublish (c : ClientId) (channel : string) (text : option string)
| OQuit (c : ClientId)
| OSetHeader (res : Handle) (name value : string)
| ORespond (res : Handle) (status : nat) (body : Body)
| OListen (port : string)
| OServerClose
| OExit (code : Z)
| OUncaught (err : JSError).

(** The [await] an asynchronous function is suspended at. *)
Inductive Awaiting : Type :=
| AwaitSubscribe    (* [start], inside [connect] *)
| AwaitQuit.        (* [gracefulShutdown], inside [disconnect] *)

(** The state of the process: the world of the registry, the module-level
    [redisSubscriber] with its [subscriber] field, the listeners installed
    on bus clients, the suspended functions, the variables [server] and
    [serverStartTime], and whether [process.exit] was called. *)
Record Server : Type := mkServer {
  world : World;
  redisSubscriber : RedisSubscriber;
  this_subscriber : option ClientId;
  listeners : list (ClientId * EventName);
  next_client : ClientId;
  awaiting : list Awaiting;
  server : bool;
  serverStartTime : Z;
  exited : option Z;
  outputs : list (nat * nat * Output)
}.

Definition with_world (w : World) (s : Server) : Server :=
  mkServer w (redisSubscriber s) (this_subscriber s) (listeners s)
           (next_client s) (awaiting s) (server s) (serverStartTime s)
           (exited s) (outputs s).

Definition with_redisSubscriber (this : RedisSubscriber) (s : Server) : Server :=
  mkServer (world s) this (this_subscriber s) (listeners s)
           (next_client s) (awaiting s) (server s) (serverStartTime s)
           (exited s) (outputs s).

Definition with_subscriber (c : option ClientId) (s : Server) : Server :=
  mkServer (world s) (redisSubscriber s) c (listeners s)
           (next_client s) (awaiting s) (server s) (serverStartTime s)
           (exited s) (outputs s).

Definition with_listeners (l : list (ClientId * EventName)) (s : Server)
  : Server :=
  mkServer (world s) (redisSubscriber s) (this_subscriber s) l
           (next_client s) (awaiting s) (server s) (serverStartTime s)
           (exited s) (outputs s).

Definition with_next_client (c : ClientId) (s : Server) : Server :=
  mkServer (world s) (redisSubscriber s) (this_subscriber s) (listeners s)
           c (awaiting s) (server s) (serverStartTime s)
           (exited s) (outputs s).

Definition with_awaiting (l : list Awaiting) (s : Server) : Server :=
  mkServer (world s) (redisSubscriber s) (this_subscriber s) (listeners s)
           (next_client s) l (server s) (serverStartTime s)
           (exited s) (outputs s).

Definition with_server (b : bool) (s : Server) : Server :=
  mkServer (world s) (redisSubscriber s) (this_subscriber s) (listeners s)
           (next_client s) (awaiting s) b (serverStartTime s)
           (exited s) (outputs s).

Definition with_exited (code : option Z) (s : Server) : Server :=
  mkServer (world s) (redisSubscriber s) (this_subscriber s) (listeners s)
           (next_client s) (awaiting s) (server s) (serverStartTime s)
           code (outputs s).

Definition output (o : Output) (s : Server) : Server :=
  mkServer (world s) (redisSubscriber s) (this_subscriber s) (listeners s)
           (next_client s) (awaiting s) (server s) (serverStartTime s)
           (exited s)
           (outputs s ++ [(length (console (world s)),
                           length (effects (world s)), o)]).

Definition set_isConnected (b : bool) (this : RedisSubscriber)
  : RedisSubscriber :=
  mkSubscriber (config this) b (reconnectAttempts this)
               (maxReconnectAttempts this) (sub_podName this).

Definition set_reconnectAttempts (n : Z) (this : RedisSubscriber)
  : RedisSubscriber :=
  mkSubscriber (config this) (isConnected this) n
               (maxReconnectAttempts this) (sub_podName this).

(** Computations of the process. *)
Definition P (A : Type) : Type := Server -> Server * Completion A.

Definition done_ {A} (a : A) : P A := fun s => (s, Normal a).

Definition raise {A} (err : JSError) : P A := fun s => (s, Throw err).

Definition and_then {A B} (c : P A) (k : A -> P B) : P B :=
  fun s => match c s with
           | (s', Normal a) => k a s'
           | (s', Throw err) => (s', Throw err)
           end.

(** [try { body } catch (err) { handler }] *)
Definition guarded {A} (body : P A) (handler : JSError -> P A) : P A :=
  fun s => match body s with
           | (s', Normal a) => (s', Normal a)
           | (s', Throw err) => handler err s'
           end.

(** A computation of the registry's world, run in the process. *)
Definition lift {A} (c : M A) : P A :=
  fun s => (with_world (fst (c (world s))) s, snd (c (world s))).

Declare Scope app_scope.
Delimit Scope app_scope with app.
Notation "x <- c ;; k" := (and_then c (fun x => k))
  (at level 100, c at next level, right associativity) : app_scope.
Notation "c ;; k" := (and_then c (fun _ => k))
  (at level 100, right associativity) : app_scope.

Definition out (o : Output) : P unit := fun s => (output o s, Normal tt).

Definition app_log (l : AppLine) : P unit := out (OLog l).

Definition gets {A} (field : Server -> A) : P A := fun s => (s, Normal (field s)).

Definition assign (f : RedisSubscriber -> RedisSubscriber) : P unit :=
  fun s => (with_redisSubscriber (f (redisSubscriber s)) s, Normal tt).

(** [process.exit(code)]: nothing runs afterwards. *)
Definition process_exit (code : Z) : P unit :=
  fun s => (with_exited (Some code) (output (OExit code) s), Normal tt).

(** What the process reads from its environment variables, and the two
    conversions between numbers and strings it uses: [parseInt], which
    returns [None] for [NaN], and the string form of a number. *)
Record Settings : Type := mkSettings {
  PORT : option string;
  NODE_ENV : option string;
  REDIS_HOST : option string;
  REDIS_PORT : option string;
  REDIS_CHANNEL : option string;
  parseInt : option string -> option Z;
  Number_toString : float -> string
}.

(** [/^[a-zA-Z0-9_-]+$/] *)
Definition name_char (a : Ascii.ascii) : bool :=
  let n := Ascii.nat_of_ascii a in
  ((97 <=? n) && (n <=? 122)) || ((65 <=? n) && (n <=? 90))
  || ((48 <=? n) && (n <=? 57)) || (n =? 95) || (n =? 45).

Fixpoint name_chars (s : string) : bool :=
  match s with
  | EmptyString => true
  | String a rest => name_char a && name_chars rest
  end.

Definition valid_clientName (s : string) : bool :=
  negb (String.eqb s EmptyString) && name_chars s.

Section Process.

Context (env : Env) (st : Settings).

Local Open Scope app_scope.

(** *** ConnectionRegistry.closeAll *)

(** The loop over [this.connections.values()]. The iterator is live: a
    binding deleted before the iterator reaches it is skipped, and [close]
    deletes from the [Map] while the loop runs. *)
Fixpoint closeAll_loop (entries : list (string * nat)) : P unit :=
  match entries with
  | [] => done_ tt
  | (name, connection) :: rest =>
      present <- lift (fun w =>
        (w, Normal (bool_decide (connections w !! name = Some connection)))) ;;
      (if present : bool then
         guarded (lift (close env connection))
                 (fun err => app_log (LogErrorClosing (message err)))
       else done_ tt) ;;
      closeAll_loop rest
  end.

(** [closeAll()] *)
Definition closeAll : P unit :=
  total <- lift count ;;
  app_log (LogClosingAll total) ;;
  entries <- lift (fun w => (w, Normal (Map_entries (connections w)))) ;;
  closeAll_loop entries ;;
  lift (fun w => (set_connections (fun _ => ∅) w, Normal tt)).

(** *** RedisSubscriber: the listeners [connect] installs *)

Definition on_connect : P unit :=
  app_log LogRedisConnected ;;
  assign (set_isConnected true) ;;
  assign (set_reconnectAttempts 0).

Definition on_ready : P unit := app_log LogRedisReady.

Definition on_error (err : JSError) : P unit :=
  app_log (LogRedisError (message err)) ;;
  assign (set_isConnected false).

Definition on_close : P unit :=
  app_log LogRedisClosed ;;
  assign (set_isConnected false).

Definition on_reconnecting : P unit :=
  assign (fun this => set_reconnectAttempts (reconnectAttempts this + 1) this) ;;
  this <- gets redisSubscriber ;;
  app_log (LogRedisReconnecting (reconnectAttempts this)).

Definition on_message (chan msg : string) : P unit :=
  this <- gets redisSubscriber ;;
  lift (handleMessage env this chan msg).

Definition listener (ev : BusEvent) : P unit :=
  match ev with
  | BusConnect => on_connect
  | BusReady => on_ready
  | BusError err => on_error err
  | BusClose => on_close
  | BusReconnecting => on_reconnecting
  | BusMessage chan msg => on_message chan msg
  end.

(** The [reconnectOnError] closure handed to the bus client. *)
Definition reconnectOnError (err : JSError) : P bool :=
  app_log (LogReconnectOnError (message err)) ;;
  done_ true.

(** [new Redis(options)] *)
Definition new_Redis (host : string) (port : Z) : P ClientId :=
  fun s => (with_next_client (S (next_client s))
              (output (ONewRedis (next_client s) host port) s),
            Normal (next_client s)).

(** [this.subscriber.on(name, listener)]; on [null] a [TypeError]. *)
Definition subscriber_on (name : EventName) : P unit :=
  sub <- gets this_subscriber ;;
  match sub with
  | Some c =>
      out (OOn c name) ;;
      (fun s => (with_listeners (listeners s ++ [(c, name)]) s, Normal tt))
  | None => raise (TypeError "Cannot read properties of null")
  end.

(** *** RedisSubscriber.connect *)

(** The [catch] of [connect]. *)
Definition connect_catch (err : JSError) : P bool :=
  app_log (LogFailedToConnect (message err)) ;;
  assign (set_isConnected false) ;;
  done_ false.

(** [connect()] up to its [await]: [None] when it is suspended there,
    the value it returned otherwise. *)
Definition connect_begin : P (option bool) :=
  guarded
    (this <- gets redisSubscriber ;;
     app_log (LogRedisConnecting (host (config this)) (port (config this))) ;;
     c <- new_Redis (host (config this)) (port (config this)) ;;
     (fun s => (with_subscriber (Some c) s, Normal tt)) ;;
     subscriber_on OnConnect ;;
     subscriber_on OnReady ;;
     subscriber_on OnError ;;
     subscriber_on OnClose ;;
     subscriber_on OnReconnecting ;;
     this <- gets redisSubscriber ;;
     sub <- gets this_subscriber ;;
     match sub with
     | Some c' => out (OSubscribe c' (channel (config this)))
     | None => raise (TypeError "Cannot read properties of null")
     end ;;
     done_ None)
    (fun err => b <- connect_catch err ;; done_ (Some b)).

(** [connect()] from its [await] on, the promise of [subscribe] having
    settled with [outcome]. *)
Definition connect_resume (outcome : Completion JSValue) : P bool :=
  guarded
    (match outcome with
     | Normal _ => done_ tt
     | Throw err => raise err
     end ;;
     this <- gets redisSubscriber ;;
     app_log (LogSubscribed (channel (config this))) ;;
     subscriber_on OnMessage ;;
     done_ true)
    connect_catch.

(** *** RedisSubscriber.publish, getStatus, disconnect *)


(** [publish] from its [await] on. *)
Definition publish_resume (outcome : Completion JSValue) : P unit :=
  match outcome with
  | Normal receivers =>
      this <- gets redisSubscriber ;;
      lift (interpolate receivers) ;;
      app_log (LogPublished (channel (config this)) receivers)
  | Throw err => raise err
  end.

Definition getStatus : P Status :=
  this <- gets redisSubscriber ;;
  done_ (mkStatus (isConnected this) (channel (config this))
                  (host (config this)) (port (config this))
                  (reconnectAttempts this)).

(** [disconnect()] up to its [await]: whether it is suspended there. *)
Definition disconnect_begin : P bool :=
  sub <- gets this_subscriber ;;
  match sub with
  | Some c =>
      app_log LogDisconnecting ;;
      sub' <- gets this_subscriber ;;
      match sub' with
      | Some c' => out (OQuit c')
      | None => raise (TypeError "Cannot read properties of null")
      end ;;
      done_ true
  | None => done_ false
  end.

(** [disconnect()] from its [await] on. *)
Definition disconnect_resume (outcome : Completion JSValue) : P unit :=
  match outcome with
  | Normal _ =>
      (fun s => (with_subscriber None s, Normal tt)) ;;
      assign (set_isConnected false)
  | Throw err => raise err
  end.

(** *** index.js: configuration *)

Definition pod : string := or_else (POD_NAME env) "local-pod".

Definition port_number : string := or_else (PORT st) "3000".

Definition environment : string := or_else (NODE_ENV st) "development".

Definition redisConfig : Config :=
  mkConfig (or_else (REDIS_HOST st) "localhost")
           (match parseInt st (REDIS_PORT st) with
            | Some p => if (p =? 0)%Z then 6379%Z else p
            | None => 6379%Z
            end)
           (or_else (REDIS_CHANNEL st) "events-to-store")
           (Some pod).

(** *** index.js: the routes *)

Definition respond (res : Handle) (status : nat) (body : Body) : P unit :=
  out (ORespond res status body).

Definition timestamp : P string :=
  now <- lift new_Date ;;
  done_ (toISOString env now).

(** ToString on the values [JSON.parse] builds. An array joins its
    elements with commas, [null] and [undefined] elements as empty strings.
    A record prints as [[object Object]] unless it has an own property
    [toString]: a parsed value is never callable, so the conversion passes
    it over, [valueOf] yields no primitive either (an own one is passed
    over, the inherited one returns the record), and the conversion
    throws. *)
Fixpoint ToString (v : JSValue) : Completion string :=
  match v with
  | JUndefined => Normal "undefined"
  | JNull => Normal "null"
  | JBool true => Normal "true"
  | JBool false => Normal "false"
  | JNum x => Normal (Number_toString st x)
  | JStr s => Normal s
  | JArr elems =>
      (fix join (l : list JSValue) : Completion string :=
         match l with
         | [] => Normal EmptyString
         | e :: rest =>
             match (match e with
                    | JUndefined | JNull => Normal EmptyString
                    | _ => ToString e
                    end) with
             | Throw err => Throw err
             | Normal a =>
                 match rest with
                 | [] => Normal a
                 | _ => match join rest with
                        | Throw err => Throw err
                        | Normal b => Normal (a +:+ "," +:+ b)
                        end
                 end
             end
         end) elems
  | JObj props =>
      match own_property "toString" props with
      | Some _ => Throw cannot_convert
      | None => Normal "[object Object]"
      end
  end.

Definition to_string (v : JSValue) : P string := fun s => (s, ToString v).

(** [POST /register] *)
Definition post_register (body : JSValue) (res : Handle) : P unit :=
  clientName <- lift (get_prop body "clientName") ;;
  if negb (truthy clientName) then
    respond res 400 BodyClientNameRequired
  else
    text <- to_string clientName ;;
    if negb (valid_clientName text) then
      respond res 400 BodyClientNameInvalid
    else
      name <- to_string clientName ;;
      app_log (LogRegistrationRequest name) ;;
      name1 <- to_string clientName ;;
      name2 <- to_string clientName ;;
      now <- timestamp ;;
      respond res 200
        (BodyRegistered clientName pod
           ("Client " +:+ name1 +:+ " registered. Connect to /events/"
              +:+ name2 +:+ " for SSE stream")
           now).

(** The record of the confirmation [GET /events] sends first. *)
Definition connected_record (clientName now : string) : JSValue :=
  JObj [("type", JStr "connected"); ("clientName", JStr clientName);
        ("podName", JStr pod); ("timestamp", JStr now);
        ("message", JStr "SSE connection established")].

(** [GET /events/:clientName] *)
Definition get_events (clientName : string) (res : Handle) : P unit :=
  app_log (LogSSERequest clientName) ;;
  out (OSetHeader res "Content-Type" "text/event-stream") ;;
  out (OSetHeader res "Cache-Control" "no-cache") ;;
  out (OSetHeader res "Connection" "keep-alive") ;;
  out (OSetHeader res "X-Accel-Buffering" "no") ;;
  out (OSetHeader res "Access-Control-Allow-Origin" "*") ;;
  sent <- guarded
    (lift (response_write env res (": Connected to " +:+ pod +:+ nl +:+ nl)) ;;
     now <- timestamp ;;
     lift (response_write env res
             ("data: " +:+ JSON_stringify env (connected_record clientName now)
                +:+ nl +:+ nl)) ;;
     done_ true)
    (fun err =>
       app_log (LogInitialMessageError clientName (message err)) ;;
       done_ false) ;;
  if sent : bool then
    lift (register env clientName res pod) ;;
    done_ tt
  else done_ tt.

(** [GET /health] *)
Definition get_health (res : Handle) : P unit :=
  now <- lift new_Date ;;
  started <- gets serverStartTime ;;
  let uptime := ((now - started) / 1000)%Z in
  redisStatus <- getStatus ;;
  total <- lift count ;;
  stamp <- timestamp ;;
  respond res 200 (BodyHealth pod uptime total redisStatus stamp environment).

(** [GET /admin/connections] *)
Definition get_admin_connections (res : Handle) : P unit :=
  conns <- lift (getAll env) ;;
  stamp <- timestamp ;;
  respond res 200 (BodyConnections pod (length conns) conns stamp).

(** [GET /admin/client/:clientName] *)
Definition get_admin_client (clientName : string) (res : Handle) : P unit :=
  present <- lift (has (JStr clientName)) ;;
  if negb present then
    respond res 404 (BodyClientNotFound clientName pod)
  else
    connection <- lift (get (JStr clientName)) ;;
    match connection with
    | Some c =>
        stats <- lift (getStats env c) ;;
        stamp <- timestamp ;;
        respond res 200 (BodyClient pod stats stamp)
    | None => raise (TypeError "Cannot read properties of undefined")
    end.

(** The 404 handler. *)
Definition not_found (path : string) (res : Handle) : P unit :=
  respond res 404 (BodyNotFound path pod).

(** The error handler. *)
Definition error_handler (err : JSError) (res : Handle) : P unit :=
  app_log (LogError (message err)) ;;
  respond res 500 (BodyInternalError (message err) pod).

(** The requests the routes above answer; the two pages of HTML are not
    part of the model. *)
Inductive Request : Type :=
| PostRegister (body : JSValue)
| GetEvents (clientName : string)
| GetHealth
| GetAdminConnections
| GetAdminClient (clientName : string)
| Unrouted (path : string).

Definition route (req : Request) (res : Handle) : P unit :=
  match req with
  | PostRegister body => post_register body res
  | GetEvents clientName => get_events clientName res
  | GetHealth => get_health res
  | GetAdminConnections => get_admin_connections res
  | GetAdminClient clientName => get_admin_client clientName res
  | Unrouted path => not_found path res
  end.

(** Express: an exception of a route goes to the error handler. *)
Definition handle (req : Request) (res : Handle) : P unit :=
  guarded (route req res) (fun err => error_handler err res).

(** *** index.js: shutdown and start *)

Definition suspend (a : Awaiting) : P unit :=
  fun s => (with_awaiting (awaiting s ++ [a]) s, Normal tt).

(** [gracefulShutdown] after [await redisSubscriber.disconnect()]. *)
Definition gracefulShutdown_end : P unit :=
  app_log LogShutdownCompleted ;;
  process_exit 0.

(** [gracefulShutdown(signal)] up to its [await]; when [disconnect] does
    not suspend, the function runs to its end. *)
Definition gracefulShutdown (signal : string) : P unit :=
  app_log (LogShutdownReceived signal) ;;
  listening <- gets server ;;
  (if listening : bool then out OServerClose else done_ tt) ;;
  closeAll ;;
  suspended <- disconnect_begin ;;
  if suspended : bool then suspend AwaitQuit else gracefulShutdown_end.

(** [gracefulShutdown] from its [await] on. *)
Definition gracefulShutdown_resume (outcome : Completion JSValue) : P unit :=
  disconnect_resume outcome ;;
  gracefulShutdown_end.

(** The callback of [server.close]. *)
Definition on_server_closed : P unit := app_log LogHttpServerClosed.

(** [start] after [await redisSubscriber.connect()]. *)
Definition start_end : P unit :=
  out (OListen port_number) ;;
  (fun s => (with_server true s, Normal tt)).

(** The [catch] of [start]. *)
Definition start_catch (err : JSError) : P unit :=
  app_log (LogFailedToStart (message err)) ;;
  process_exit 1.

(** [start()] up to its [await]. *)
Definition start : P unit :=
  guarded
    (returned <- connect_begin ;;
     match returned with
     | None => suspend AwaitSubscribe
     | Some _ => start_end
     end)
    start_catch.

(** [start] from its [await] on. *)
Definition start_resume (outcome : Completion JSValue) : P unit :=
  guarded (connect_resume outcome ;; start_end) start_catch.

(** The callback of [app.listen]. *)
Definition on_listening : P unit :=
  app_log (LogServerStarted port_number) ;;
  app_log (LogServerPod pod) ;;
  app_log (LogServerEnvironment environment) ;;
  app_log (LogServerRedis (host redisConfig) (port redisConfig)) ;;
  app_log (LogServerChannel (channel redisConfig)) ;;
  app_log (LogServerTestClient port_number) ;;
  app_log (LogServerAdmin port_number).

(** *** The event loop *)

(** What the outside does to the process. *)
Inductive Input : Type :=
| Http (req : Request) (res : Handle)
| Transport (ev : TransportEvent) (err : JSError) (r : Ref)
| Timer (t : TimerId)
| Bus (c : ClientId) (ev : BusEvent)
| Retry (times : Z)
| ErrorReply (err : JSError)
| Settled (i : nat) (outcome : Completion JSValue)
| Listening
| ServerClosed
| Signal (name : string)
| Tick (now : Z).

(** Emitting an event calls the listeners installed for it, in order. *)
Fixpoint emit_to (installed : list (ClientId * EventName)) (c : ClientId)
  (ev : BusEvent) : P unit :=
  match installed with
  | [] => done_ tt
  | (c', name) :: rest =>
      (if bool_decide (c' = c /\ name = event_name ev)
       then listener ev else done_ tt) ;;
      emit_to rest c ev
  end.

(** The callback the event loop runs for an input. The listeners of a
    transport exist once the entry does; a timer runs while it is
    scheduled; a settled promise resumes the function suspended at it. *)
Definition react (input : Input) : P unit :=
  match input with
  | Http req res => handle req res
  | Transport ev err r =>
      known <- lift (fun w => (w, Normal (bool_decide (is_Some (heap w !! r))))) ;;
      if known : bool then lift (on_transport_event env ev err r) else done_ tt
  | Timer t => lift (interval_fires env t)
  | Bus c ev =>
      installed <- gets listeners ;;
      emit_to installed c ev
  | Retry times =>
      this <- gets redisSubscriber ;;
      lift (retryStrategy this times) ;;
      done_ tt
  | ErrorReply err => reconnectOnError err ;; done_ tt
  | Settled i outcome =>
      pending <- gets awaiting ;;
      match pending !! i with
      | Some a =>
          (fun s => (with_awaiting (delete i (awaiting s)) s, Normal tt)) ;;
          match a with
          | AwaitSubscribe => start_resume outcome
          | AwaitQuit => gracefulShutdown_resume outcome
          end
      | None => done_ tt
      end
  | Listening => on_listening
  | ServerClosed => on_server_closed
  | Signal name => gracefulShutdown name
  | Tick now => lift (fun w => (set_clock now w, Normal tt))
  end.

(** One turn of the event loop. After [process.exit] nothing runs; an
    exception that reaches the event loop ends the process with code 1. *)
Definition turn (input : Input) (s : Server) : Server :=
  match exited s with
  | Some _ => s
  | None =>
      match react input s with
      | (s', Normal _) => s'
      | (s', Throw err) => with_exited (Some 1%Z) (output (OUncaught err) s')
      end
  end.

(** The module is loaded: the registry is empty, [redisSubscriber] is
    constructed, [serverStartTime] is taken. *)
Definition loaded (t0 : Z) : Server :=
  mkServer (initial_world t0) (new_RedisSubscriber env redisConfig) None []
           0 [] false t0 None [].

(** The last statement of the module: [start()]. *)
Definition booted (t0 : Z) : Server :=
  match start (loaded t0) with
  | (s, Normal _) => s
  | (s, Throw err) => with_exited (Some 1%Z) (output (OUncaught err) s)
  end.

End Process.

(** The states the process can be in. *)
Inductive serving (env : Env) (st : Settings) : Server -> Prop :=
| serving_booted t0 : serving env st (booted env st t0)
| serving_turn s input :
    serving env st s -> serving env st (turn env st input s).

(** Turns one after the other. *)
Definition turns (env : Env) (st : Settings) (inputs : list Input)
  (s : Server) : Server :=
  foldl (fun s i => turn env st i s) s inputs.

(** *** Closed forms used in the statements about the process *)

(** The computation [c] keeps the property [I] of the registry's world. *)
Definition keeps {A} (I : World -> Prop) (c : P A) : Prop :=
  forall s, I (world s) -> I (world (fst (c s))).

(** The calls that close the entries behind [entries], in order: each
    timer cancelled and each transport ended. *)
Definition closing_effects (hp : list ConnectionEntry)
  (entries : list (string * nat)) : list Effect :=
  flat_map (fun kr => match hp !! snd kr with
                      | Some e => cancelled e ++ [EEnd (response e)]
                      | None => []
                      end) entries.

(** The entry [e] after [closeAll]. *)
Definition shut (e : ConnectionEntry) : ConnectionEntry :=
  if isAlive e then closed e else e.

(** [s'] differs from [s] in the registry's world and the outputs only. *)
Definition same_process (s s' : Server) : Prop :=
  redisSubscriber s' = redisSubscriber s /\
  this_subscriber s' = this_subscriber s /\ listeners s' = listeners s /\
  next_client s' = next_client s /\ awaiting s' = awaiting s /\
  server s' = server s /\ serverStartTime s' = serverStartTime s /\
  exited s' = exited s.





Definition is_log (o : nat * nat * Output) : bool :=
  match snd o with OLog _ => true | _ => false end.


(** The computation [c] leaves the registry's world and the process as
    they are and does nothing but print. *)
Definition silent {A} (c : P A) : Prop :=
  forall s,
    world (fst (c s)) = world s /\ same_process s (fst (c s)) /\
    exists logs, outputs (fst (c s)) = outputs s ++ logs /\
                 Forall (fun o => is_log o = true) logs.

(** The computation [c] is silent up to the one response it sends on
    [res], its last call, unless it throws; then it has sent none. *)
Definition answering (res : Handle) (c : P unit) : Prop :=
  forall s,
    world (fst (c s)) = world s /\ same_process s (fst (c s)) /\
    exists logs, Forall (fun o => is_log o = true) logs /\
      ((snd (c s) = Normal tt /\
        exists stamp status body,
          outputs (fst (c s))
            = outputs s ++ logs ++ [(stamp, ORespond res status body)]) \/
       (exists err, snd (c s) = Throw err /\
          outputs (fst (c s)) = outputs s ++ logs)).

(** The computation [c] installs no listener and suspends nothing. *)
Definition wired {A} (c : P A) : Prop :=
  forall s, listeners (fst (c s)) = listeners s /\
            awaiting (fst (c s)) = awaiting s.

Definition is_message_listener (l : nat * EventName) : bool :=
  match snd l with OnMessage => true | _ => false end.

Definition is_subscribe (a : Awaiting) : bool :=
  match a with AwaitSubscribe => true | AwaitQuit => false end.

(** At most one listener for messages is installed or about to be. *)
Definition wiring (s : Server) : Prop :=
  (occurrences is_message_listener (listeners s)
   + occurrences is_subscribe (awaiting s) <= 1)%nat.

(** The computation [c] returns normally in every state. *)
Definition returns {A} (c : P A) : Prop :=
  forall s, exists a, snd (c s) = Normal a.

(** ** Concrete environments and worlds *)

Module Scenario.

Definition dq : string := String (Ascii.ascii_of_nat 34) EmptyString.

(** The text [{"clientName":<name>,"action":"x"}] of a bus record. *)
Definition record_text (name : string) : string :=
  "{" +:+ dq +:+ "clientName" +:+ dq +:+ ":" +:+ dq +:+ name +:+ dq +:+ ","
      +:+ dq +:+ "action" +:+ dq +:+ ":" +:+ dq +:+ "x" +:+ dq +:+ "}".

Definition record_value (name : string) : JSValue :=
  JObj [("clientName", JStr name); ("action", JStr "x")].

(** The text [{"clientName":"A","action":{"toString":null}}]: a record for
    client [A] whose action has no string form. *)
Definition unprintable_text : string :=
  "{" +:+ dq +:+ "clientName" +:+ dq +:+ ":" +:+ dq +:+ "A" +:+ dq +:+ ","
      +:+ dq +:+ "action" +:+ dq +:+ ":{" +:+ dq +:+ "toString" +:+ dq
      +:+ ":null}}".

Definition unprintable_value : JSValue :=
  JObj [("clientName", JStr "A"); ("action", JObj [("toString", JNull)])].

(** The text [{"clientName":{"toString":null}}]: a record whose target has
    no string form. *)
Definition unaddressed_text : string :=
  "{" +:+ dq +:+ "clientName" +:+ dq +:+ ":{" +:+ dq +:+ "toString" +:+ dq
      +:+ ":null}}".

Definition unaddressed_value : JSValue :=
  JObj [("clientName", JObj [("toString", JNull)])].

(** [JSON.parse] on the handful of texts the examples use. *)
Definition parse (text : string) : Completion JSValue :=
  if String.eqb text (record_text "A") then Normal (record_value "A")
  else if String.eqb text (record_text "B") then Normal (record_value "B")
  else if String.eqb text (record_text EmptyString)
       then Normal (record_value EmptyString)
  else if String.eqb text unprintable_text then Normal unprintable_value
  else if String.eqb text unaddressed_text then Normal unaddressed_value
  else if String.eqb text "{}" then Normal (JObj [])
  else if String.eqb text "null" then Normal JNull
  else Throw (SyntaxError "Unexpected token in JSON").

(** [JSON.stringify] on the values the examples send: strings and records
    of strings (numbers and arrays do not occur in them). *)
Fixpoint stringify (v : JSValue) : string :=
  match v with
  | JUndefined => "undefined"
  | JNull => "null"
  | JBool true => "true"
  | JBool false => "false"
  | JNum _ => "0"
  | JStr s => dq +:+ s +:+ dq
  | JArr _ => "[]"
  | JObj props =>
      "{" +:+ String.concat ","
                (List.map (fun kv => dq +:+ fst kv +:+ dq +:+ ":"
                                        +:+ stringify (snd kv)) props)
          +:+ "}"
  end.

Definition iso (t : Z) : string := "1970-01-01T00:00:00.000Z".

(** A healthy transport: every write is accepted. *)
Definition accepting : Env :=
  mkEnv parse stringify iso
        (fun _ _ _ => Normal true) (fun _ _ => Normal tt) None.

(** A transport under backpressure: every write returns [false]. *)
Definition refusing : Env :=
  mkEnv parse stringify iso
        (fun _ _ _ => Normal false) (fun _ _ => Normal tt) None.

(** A destroyed transport: [write] and [end] throw. *)
Definition broken : Env :=
  mkEnv parse stringify iso
        (fun _ _ _ => Throw (Error "write after end"))
        (fun _ _ => Throw (Error "socket destroyed")) None.

(** Client [A] connected on transport [7] at time [1000]. *)
Definition connected (env : Env) : World :=
  exec (register env "A" 7 "pod-1") (initial_world 1000).

Definition entry_A : ConnectionEntry :=
  mkEntry "A" 7 "pod-1" 1000 1000 (Some 0) 0 true.



(** The same client after its entry was closed. *)
Definition disconnected (env : Env) : World :=
  exec (close env 0) (connected env).

(** A client connected under the empty name, which the route of the
    request layer cannot produce but [register] accepts. *)
Definition connected_unnamed : World :=
  exec (register accepting EmptyString 9 "pod-1") (initial_world 1000).

Definition entry_unnamed : ConnectionEntry :=
  mkEntry EmptyString 9 "pod-1" 1000 1000 (Some 0) 0 true.

(** Client [A] on transport [7], unregistered by a direct [remove], then
    connected again on transport [8]: entry [0] is alive and stale, entry
    [1] is the registered one. *)
Definition reconnected_after_remove : World :=
  exec (register accepting "A" 8 "pod-1")
    (exec (remove "A") (connected accepting)).

Definition subscriber : RedisSubscriber :=
  new_RedisSubscriber accepting (mkConfig "localhost" 6379 "events-to-store" None).

(** No environment variable is set. *)
Definition defaults : Settings :=
  mkSettings None None None None None (fun _ => None) (fun _ => "0").

(** The process after the subscription succeeded and client [A] asked for
    its stream on transport [7]. *)
Definition serving_A (env : Env) : Server :=
  turns env defaults [Settled 0 (Normal JNull); Http (GetEvents "A") 7]
    (booted env defaults 1000).

(** The entry of client [A] in [serving_A]. *)
Definition entry_A_served : ConnectionEntry :=
  mkEntry "A" 7 "local-pod" 1000 1000 (Some 0) 0 true.

End Scenario.

(** ** Proof steps *)

Local Arguments String.append : simpl never.

Ltac js_unfold :=
  unfold handleMessage, routeToClient, retryStrategy, register,
    registry_updateActivity, new_ConnectionEntry, startHeartbeat,
    setupDisconnectHandlers, interval_fires, on_transport_event,
    sendEvent, heartbeat, cleanup, getStats, close, remove, updateActivity,
    count, has, get, Map_delete, Map_set, clearInterval, setInterval,
    response_end, response_write, get_prop, interpolate, alloc, new_Date,
    console_log,
    try_catch, bind, ret, throw, getf, setf.

(** Reduction restricted to the record projections and the small
    functions of the model, so that no operation of a finite map unfolds. *)
Ltac js_simpl :=
  cbn [heap connections intervals next_timer clock effects console
       clientName response podName connectedAt lastActivity
       heartbeatInterval eventCount isAlive
       set_lastActivity set_heartbeatInterval set_eventCount set_isAlive
       set_heap set_connections set_intervals set_next_timer set_clock
       emit print
       fst snd negb fmap option_fmap option_map default message app].

Ltac js_run H :=
  js_unfold; repeat (progress (js_simpl; rewrite ?list_lookup_alter_eq, ?H)).

(** Two worlds are equal when their fields are. Nested setters are
    compared field by field: unfolding them copies the world at each level. *)
Lemma world_ext (a b : World) :
  heap a = heap b -> connections a = connections b ->
  intervals a = intervals b -> next_timer a = next_timer b ->
  clock a = clock b -> effects a = effects b -> console a = console b ->
  a = b.
Proof. destruct a, b; simpl; congruence. Qed.

Ltac js_world :=
  try (apply (f_equal2 pair); [|reflexivity]);
  apply world_ext; js_simpl; try reflexivity.

(** ** Closing an entry *)

Section Entry.

Context (env : Env).

Lemma alter_insert (f : ConnectionEntry -> ConnectionEntry) r e
  (hp : list ConnectionEntry) :
  hp !! r = Some e -> alter f r hp = <[r := f e]> hp.
Proof.
  intros H. apply list_eq. intros i.
  destruct (decide (i = r)) as [->|Hne].
  - rewrite list_lookup_alter_eq, H. simpl.
    rewrite list_lookup_insert_eq; [done|]. eapply lookup_lt_Some; eauto.
  - rewrite list_lookup_alter_ne, list_lookup_insert_ne by done. done.
Qed.

Lemma lookup_insert_heap r (e x : ConnectionEntry) (hp : list ConnectionEntry) :
  hp !! r = Some e -> <[r := x]> hp !! r = Some x.
Proof. intros H. apply list_lookup_insert_eq. eapply lookup_lt_Some; eauto. Qed.

(** [close] on an entry that is already closed returns at its guard. *)
Lemma close_closed w r e :
  heap w !! r = Some e -> isAlive e = false ->
  close env r w = (w, Normal tt).
Proof. intros H Ha. js_run H. rewrite Ha. reflexivity. Qed.

(** [close] on a live entry runs to the end and never throws. *)
Lemma close_alive w r e :
  heap w !! r = Some e -> isAlive e = true ->
  close env r w = (after_close env w r e, Normal tt).
Proof.
  intros H Ha. unfold after_close, cancelled, closed. js_run H.
  rewrite Ha. js_run H.
  assert (Hins : forall f, alter f r (heap w) = <[r := f e]> (heap w))
    by (intros f; by apply alter_insert).
  assert (Hin2 : forall f x,
             alter f r (<[r := x]> (heap w)) = <[r := f x]> (heap w)).
  { intros f x. rewrite (alter_insert f r x), list_insert_insert_eq; [done|].
    by eapply lookup_insert_heap. }
  destruct e as [nm rs pd ca la hb ec al]; simpl in Ha; subst al.
  destruct hb as [t|]; js_run H; rewrite ?app_nil_r;
    destruct (res_end env _ _) as [[]|err]; js_run H;
    case_bool_decide; js_run H; js_world;
    rewrite ?Hins, ?Hin2, <- ?app_assoc; js_simpl; reflexivity.
Qed.

Lemma after_close_lookup w r e :
  heap w !! r = Some e ->
  heap (after_close env w r e) !! r = Some (closed e).
Proof. intros H. simpl. by eapply lookup_insert_heap. Qed.

(** After one [close] the entry is closed, whatever it was before. *)
Lemma close_leaves_closed w r e :
  heap w !! r = Some e ->
  exists e', heap (exec (close env r) w) !! r = Some e' /\ isAlive e' = false.
Proof.
  intros H. destruct (isAlive e) eqn:Ha; unfold exec.
  - rewrite (close_alive w r e H Ha). simpl. exists (closed e).
    split; [by eapply lookup_insert_heap | done].
  - rewrite (close_closed w r e H Ha). simpl. eauto.
Qed.

Lemma close_never_throws w r e :
  heap w !! r = Some e -> result (close env r) w = Normal tt.
Proof.
  intros H. destruct (isAlive e) eqn:Ha; unfold result.
  - by rewrite (close_alive w r e H Ha).
  - by rewrite (close_closed w r e H Ha).
Qed.

(** A second [close] changes nothing. *)
Lemma close_twice w r e :
  heap w !! r = Some e ->
  close env r (exec (close env r) w) = (exec (close env r) w, Normal tt).
Proof.
  intros H. destruct (close_leaves_closed w r e H) as (e' & H' & Ha').
  by eapply close_closed.
Qed.

Lemma repeat_close_closed n w r e :
  heap w !! r = Some e -> isAlive e = false ->
  repeat_call n (close env r) w = (w, Normal tt).
Proof.
  intros H Ha. induction n as [|n IH]; [done|].
  simpl. unfold bind. rewrite (close_closed w r e H Ha). exact IH.
Qed.

End Entry.

(** ** Sending an event *)

Section Sending.

Context (env : Env).

Lemma sendEvent_closed w r e event :
  heap w !! r = Some e -> isAlive e = false ->
  sendEvent env r event w = (print (LogCannotSend (clientName e)) w, Normal false).
Proof. intros H Ha. js_run H. rewrite Ha. reflexivity. Qed.

(** The write returns [false]: the entry is closed from the world in
    which the write and the log line have happened. *)
Lemma sendEvent_write_false w r e event :
  heap w !! r = Some e -> isAlive e = true ->
  res_write env (effects w) (response e) (data_message env event) = Normal false ->
  sendEvent env r event w =
    (after_close env
       (print (LogWriteFailed (clientName e))
          (emit (EWrite (response e) (data_message env event)) w)) r e,
     Normal false).
Proof.
  intros H Ha Hw.
  pose proof (close_alive env
    (print (LogWriteFailed (clientName e))
       (emit (EWrite (response e) (data_message env event)) w)) r e H Ha) as Hc.
  unfold sendEvent, response_write, console_log, try_catch, bind, ret, getf.
  repeat (progress (js_simpl; rewrite ?H, ?Ha, ?Hw)).
  rewrite Hc. reflexivity.
Qed.

(** The write throws: the [catch] block logs and closes. *)
Lemma sendEvent_write_throws w r e event err :
  heap w !! r = Some e -> isAlive e = true ->
  res_write env (effects w) (response e) (data_message env event) = Throw err ->
  sendEvent env r event w =
    (after_close env
       (print (LogWriteError (clientName e) (message err))
          (emit (EWrite (response e) (data_message env event)) w)) r e,
     Normal false).
Proof.
  intros H Ha Hw.
  pose proof (close_alive env
    (print (LogWriteError (clientName e) (message err))
       (emit (EWrite (response e) (data_message env event)) w)) r e H Ha) as Hc.
  unfold sendEvent, response_write, console_log, try_catch, bind, ret, getf.
  repeat (progress (js_simpl; rewrite ?H, ?Ha, ?Hw)).
  rewrite Hc. reflexivity.
Qed.

Lemma increment_below n :
  (N.of_nat n < MAX_SAFE)%N -> increment n = n + 1.
Proof. unfold increment. intros H. apply N.ltb_lt in H. by rewrite H. Qed.

Lemma increment_ge n : n <= increment n.
Proof. unfold increment. destruct (_ <? _)%N; lia. Qed.


(** The write returns [true] and the log line can be evaluated: the
    payload has properties and its action a string form. *)
Lemma sendEvent_write_true w r e event :
  heap w !! r = Some e -> isAlive e = true ->
  res_write env (effects w) (response e) (data_message env event) = Normal true ->
  nullish event = false ->
  convertible (js_or (property event "action") (JStr "event")) = true ->
  sendEvent env r event w =
    (print (LogEventSent (increment (eventCount e)) (clientName e)
              (js_or (property event "action") (JStr "event")))
       (set_heap (insert r (delivered (clock w) e))
          (emit (EWrite (response e) (data_message env event)) w)),
     Normal true).
Proof.
  intros H Ha Hw Hn Hc. js_run H. rewrite Ha. js_run H. rewrite Hw, Hn.
  js_run H. js_run H. rewrite Hc. js_run H. js_world.
  rewrite (alter_insert _ r e _ H).
  rewrite (alter_insert _ r (set_eventCount (increment (eventCount e)) e))
    by (by eapply lookup_insert_heap).
  by rewrite list_insert_insert_eq.
Qed.

(** The write returns [true] and the log line cannot be evaluated: it
    throws inside the [try], after the counter was incremented and the
    activity recorded, and the [catch] block closes the entry. *)
Lemma sendEvent_log_throws w r e event err :
  heap w !! r = Some e -> isAlive e = true ->
  res_write env (effects w) (response e) (data_message env event) = Normal true ->
  log_fault event = Some err ->
  sendEvent env r event w =
    (after_close env
       (print (LogWriteError (clientName e) (message err))
          (set_heap (insert r (delivered (clock w) e))
             (emit (EWrite (response e) (data_message env event)) w)))
       r (delivered (clock w) e),
     Normal false).
Proof.
  intros H Ha Hw Hf.
  set (w2 := print (LogWriteError (clientName e) (message err))
               (set_heap (insert r (delivered (clock w) e))
                  (emit (EWrite (response e) (data_message env event)) w))).
  assert (H2 : heap w2 !! r = Some (delivered (clock w) e))
    by (simpl; by eapply lookup_insert_heap).
  pose proof (close_alive env w2 r _ H2 Ha) as Hc.
  assert (Hw2 : w2 = print (LogWriteError (clientName e) (message err))
            (set_heap (alter (set_lastActivity (clock w)) r)
               (set_heap (alter (set_eventCount (increment (eventCount e))) r)
                  (emit (EWrite (response e) (data_message env event)) w)))).
  { subst w2. js_world.
    rewrite (alter_insert _ r e _ H).
    rewrite (alter_insert _ r (set_eventCount (increment (eventCount e)) e))
      by (by eapply lookup_insert_heap).
    by rewrite list_insert_insert_eq. }
  unfold log_fault in Hf.
  unfold sendEvent, response_write, console_log, new_Date, get_prop,
    interpolate, try_catch, bind, ret, throw, getf, setf.
  destruct (nullish event) eqn:Hn; [|destruct (convertible _) eqn:Hv];
    first [discriminate | injection Hf as <-];
    repeat (progress (js_simpl;
                      rewrite ?list_lookup_alter_eq, ?H, ?Ha, ?Hw, ?Hn, ?Hv));
    match goal with
    | |- (let (_, _) := close env r ?w in _) = _ =>
        replace w with w2 by (rewrite Hw2; js_world; reflexivity)
    end;
    rewrite Hc; reflexivity.
Qed.

(** The write returns [true] and the payload is [null] or [undefined]. *)
Lemma sendEvent_write_true_nullish w r e event :
  heap w !! r = Some e -> isAlive e = true ->
  res_write env (effects w) (response e) (data_message env event) = Normal true ->
  nullish event = true ->
  sendEvent env r event w =
    (after_close env
       (print (LogWriteError (clientName e) (message (read_error "action")))
          (set_heap (insert r (delivered (clock w) e))
             (emit (EWrite (response e) (data_message env event)) w)))
       r (delivered (clock w) e),
     Normal false).
Proof.
  intros H Ha Hw Hn. apply sendEvent_log_throws; [done..|].
  unfold log_fault. by rewrite Hn.
Qed.

(** The write returns [true] and the action has no string form. *)
Lemma sendEvent_write_true_unprintable w r e event :
  heap w !! r = Some e -> isAlive e = true ->
  res_write env (effects w) (response e) (data_message env event) = Normal true ->
  nullish event = false ->
  convertible (js_or (property event "action") (JStr "event")) = false ->
  sendEvent env r event w =
    (after_close env
       (print (LogWriteError (clientName e) (message cannot_convert))
          (set_heap (insert r (delivered (clock w) e))
             (emit (EWrite (response e) (data_message env event)) w)))
       r (delivered (clock w) e),
     Normal false).
Proof.
  intros H Ha Hw Hn Hv. apply sendEvent_log_throws; [done..|].
  unfold log_fault. by rewrite Hn, Hv.
Qed.

Lemma log_fault_None event :
  log_fault event = None ->
  nullish event = false /\
  convertible (js_or (property event "action") (JStr "event")) = true.
Proof.
  unfold log_fault. destruct (nullish event); [done|].
  by destruct (convertible _).
Qed.

End Sending.

Section EntryProperties.

Context (env : Env).

(** C4. On a closed entry, [sendEvent] returns failure whatever the
    payload, and does nothing else than print that it cannot send: no call
    on the transport or the timers, the entries (so every [eventCount] and
    [lastActivity]) and the registry are as before. *)
Theorem sendEvent_closed_returns_failure w r e event :
  heap w !! r = Some e -> isAlive e = false ->
  let w' := exec (sendEvent env r event) w in
  result (sendEvent env r event) w = Normal false /\
  effects w' = effects w /\
  heap w' = heap w /\
  connections w' = connections w /\
  intervals w' = intervals w /\
  console w' = console w ++ [LogCannotSend (clientName e)].
Proof.
  intros H Ha. unfold exec, result.
  rewrite (sendEvent_closed env w r e event H Ha). by repeat split.
Qed.

(** C3. On a live entry, when the write of [sendEvent] returns [false] or
    throws, [sendEvent] returns failure; the entry is closed, its heartbeat
    timer is cancelled and no longer scheduled, its transport is ended, and
    its name is removed from the registry: [getStats().isAlive] is [false]
    and [get] of the name is absent. *)
Theorem sendEvent_write_failure_closes w r e event :
  heap w !! r = Some e -> isAlive e = true ->
  res_write env (effects w) (response e) (data_message env event) <> Normal true ->
  let w' := exec (sendEvent env r event) w in
  result (sendEvent env r event) w = Normal false /\
  heap w' !! r = Some (closed e) /\
  (exists st, result (getStats env r) w' = Normal st /\ stats_isAlive st = false) /\
  result (get (JStr (clientName e))) w' = Normal None /\
  connections w' = delete (clientName e) (connections w) /\
  effects w' = effects w ++ [EWrite (response e) (data_message env event)]
                 ++ cancelled e ++ [EEnd (response e)] /\
  (forall t, heartbeatInterval e = Some t ->
     intervals w' !! t = None /\ EClearInterval t ∈ effects w').
Proof.
  intros H Ha Hw. unfold exec, result.
  assert (exists w0, heap w0 = heap w /\ connections w0 = connections w /\
            intervals w0 = intervals w /\
            effects w0 = effects w ++ [EWrite (response e) (data_message env event)] /\
            sendEvent env r event w = (after_close env w0 r e, Normal false))
    as (w0 & Hh & Hc & Hi & He & ->).
  { destruct (res_write env (effects w) (response e) (data_message env event))
      as [[]|err] eqn:Hres; [done| |].
    - eexists; split_and!; [..|by apply sendEvent_write_false]; done.
    - eexists; split_and!; [..|by apply sendEvent_write_throws]; done. }
  cbn [fst snd]. split_and!.
  - done.
  - simpl. rewrite Hh. by eapply lookup_insert_heap.
  - exists (mkStats (clientName e) (podName e)
              (toISOString env (connectedAt e))
              (toISOString env (lastActivity e)) (eventCount e) false
              ((clock w0 - connectedAt e) / 1000)%Z).
    split; [|done]. unfold getStats, bind, getf, new_Date, ret.
    cbn [heap after_close]. rewrite Hh, (lookup_insert_heap r e _ _ H).
    reflexivity.
  - unfold get, lookup_key. simpl. by rewrite lookup_delete_eq.
  - simpl. by rewrite Hc.
  - simpl. rewrite He, <- app_assoc. done.
  - intros t Ht. simpl. rewrite Ht, Hi. split; [apply lookup_delete_eq|].
    unfold cancelled. rewrite Ht. set_solver.
Qed.


(** C5. [close] is idempotent: calling it [n > 1] times in a row leaves the
    same world and returns as calling it once; a further call after the
    first changes nothing; and all the calls together cancel at most one
    timer, end the transport at most once, and print at most one closing
    line and at most one removal -- exactly one of each when the entry was
    alive, had its timer and was registered. *)
Theorem close_idempotent w r e n :
  heap w !! r = Some e -> (1 < n)%nat ->
  repeat_call n (close env r) w = close env r w /\
  close env r (exec (close env r) w) = (exec (close env r) w, Normal tt) /\
  exists added lines,
    effects (exec (repeat_call n (close env r)) w) = effects w ++ added /\
    console (exec (repeat_call n (close env r)) w) = console w ++ lines /\
    (occurrences is_clearInterval added <= 1)%nat /\
    (occurrences is_end added <= 1)%nat /\
    (occurrences is_closing lines <= 1)%nat /\
    (occurrences is_removal lines <= 1)%nat /\
    (isAlive e = true ->
       occurrences is_end added = 1%nat /\
       occurrences is_closing lines = 1%nat /\
       (is_Some (heartbeatInterval e) ->
          occurrences is_clearInterval added = 1%nat) /\
       (is_Some (connections w !! clientName e) ->
          occurrences is_removal lines = 1%nat)).
Proof.
  intros H Hn.
  assert (Hrep : repeat_call n (close env r) w = close env r w).
  { destruct n as [|n]; [lia|]. simpl. unfold bind.
    destruct (isAlive e) eqn:Ha.
    - rewrite (close_alive env w r e H Ha).
      apply (repeat_close_closed env n _ r (closed e));
        [by eapply after_close_lookup | done].
    - rewrite (close_closed env w r e H Ha).
      by apply (repeat_close_closed env n w r e). }
  split; [exact Hrep|]. split; [by eapply close_twice|].
  unfold exec. rewrite Hrep. destruct (isAlive e) eqn:Ha.
  - rewrite (close_alive env w r e H Ha). cbn [fst after_close effects console].
    eexists _, _. split; [reflexivity|]. split; [reflexivity|].
    unfold cancelled.
    destruct (heartbeatInterval e), (res_end env _ _) as [[]|?];
      case_bool_decide; split_and!; try (vm_compute; lia);
      intros _; split_and!; try (vm_compute; lia);
      intros Hsome; try (vm_compute; lia);
      try (by destruct Hsome); done.
  - rewrite (close_closed env w r e H Ha). exists [], [].
    rewrite !app_nil_r. split_and!; try (vm_compute; lia); done.
Qed.

End EntryProperties.

Section EntryWitnesses.

Import Scenario.

Lemma sendEvent_closed_returns_failure_witness :
  heap (disconnected accepting) !! 0 = Some (closed entry_A) /\
  isAlive (closed entry_A) = false /\
  result (sendEvent accepting 0 (record_value "A")) (disconnected accepting)
    = Normal false /\
  effects (exec (sendEvent accepting 0 (record_value "A")) (disconnected accepting))
    = effects (disconnected accepting).
Proof.
  assert (H : heap (disconnected accepting) !! 0 = Some (closed entry_A))
    by reflexivity.
  assert (Ha : isAlive (closed entry_A) = false) by reflexivity.
  pose proof (sendEvent_closed_returns_failure accepting
                (disconnected accepting) 0 (closed entry_A)
                (record_value "A") H Ha) as (Hr & He & _).
  exact (conj H (conj Ha (conj Hr He))).
Defined.

Lemma sendEvent_write_failure_closes_witness :
  heap (connected refusing) !! 0 = Some entry_A /\
  isAlive entry_A = true /\
  res_write refusing (effects (connected refusing)) (response entry_A)
    (data_message refusing (record_value "A")) <> Normal true /\
  heartbeatInterval entry_A = Some 0%nat /\
  result (sendEvent refusing 0 (record_value "A")) (connected refusing)
    = Normal false /\
  heap (exec (sendEvent refusing 0 (record_value "A")) (connected refusing)) !! 0
    = Some (closed entry_A) /\
  result (get (JStr (clientName entry_A)))
    (exec (sendEvent refusing 0 (record_value "A")) (connected refusing))
    = Normal None /\
  intervals (exec (sendEvent refusing 0 (record_value "A")) (connected refusing))
    !! 0 = None.
Proof.
  assert (H : heap (connected refusing) !! 0 = Some entry_A) by reflexivity.
  assert (Ha : isAlive entry_A = true) by reflexivity.
  assert (Hw : res_write refusing (effects (connected refusing))
                 (response entry_A)
                 (data_message refusing (record_value "A")) <> Normal true)
    by discriminate.
  assert (Ht : heartbeatInterval entry_A = Some 0%nat) by reflexivity.
  pose proof (sendEvent_write_failure_closes refusing (connected refusing) 0
                entry_A (record_value "A") H Ha Hw)
    as (Hr & Hc & _ & Hg & _ & _ & Htimer).
  exact (conj H (conj Ha (conj Hw (conj Ht (conj Hr (conj Hc
           (conj Hg (proj1 (Htimer 0%nat Ht))))))))).
Defined.



Lemma close_idempotent_witness :
  heap (connected accepting) !! 0 = Some entry_A /\
  (1 < 3)%nat /\
  repeat_call 3 (close accepting 0) (connected accepting)
    = close accepting 0 (connected accepting).
Proof.
  assert (H : heap (connected accepting) !! 0 = Some entry_A) by reflexivity.
  assert (Hn : (1 < 3)%nat) by lia.
  pose proof (close_idempotent accepting (connected accepting) 0 entry_A 3
                H Hn) as (Hr & _).
  exact (conj H (conj Hn Hr)).
Defined.

End EntryWitnesses.

(** ** The router *)

Section Router.

Context (env : Env) (this : RedisSubscriber).

Lemma only_logged_print w l :
  only_logged w (print l w) [l].
Proof. by repeat split. Qed.

Lemma only_logged_print2 w l1 l2 :
  only_logged w (print l2 (print l1 w)) [l1; l2].
Proof. repeat split. simpl. by rewrite <- app_assoc. Qed.

(** The text does not parse: the [catch] block logs the error. *)
Lemma handleMessage_parse_error chan msg err w :
  JSON_parse env msg = Throw err ->
  handleMessage env this chan msg w =
    (print (LogErrorHandling (message err)) (print (LogReceived chan msg) w),
     Normal tt).
Proof. intros Hp. js_unfold. js_simpl. rewrite Hp. reflexivity. Qed.

(** The text parses to [null]: reading [event.clientName] throws, and the
    [catch] block logs that error. *)
Lemma handleMessage_nullish chan msg v w :
  JSON_parse env msg = Normal v -> nullish v = true ->
  handleMessage env this chan msg w =
    (print (drop_line (Normal v)) (print (LogReceived chan msg) w), Normal tt).
Proof.
  intros Hp Hn. js_unfold. js_simpl. rewrite Hp, Hn. unfold drop_line.
  rewrite Hn. reflexivity.
Qed.

(** The value has no truthy [clientName]: the validation returns. *)
Lemma handleMessage_invalid chan msg v w :
  JSON_parse env msg = Normal v -> nullish v = false ->
  truthy (property v "clientName") = false ->
  handleMessage env this chan msg w =
    (print LogInvalidMessage (print (LogReceived chan msg) w), Normal tt).
Proof.
  intros Hp Hn Ht. unfold handleMessage, get_prop, console_log, try_catch,
    bind, ret.
  js_simpl. rewrite Hp, Hn, Ht. reflexivity.
Qed.

(** The value has a truthy [clientName]: it is routed, and what
    [routeToClient] receives is never [null] or [undefined]. *)
Lemma handleMessage_routes chan msg v w :
  JSON_parse env msg = Normal v -> nullish v = false ->
  truthy (property v "clientName") = true ->
  handleMessage env this chan msg w =
    try_catch (routeToClient env this v)
      (fun err => console_log (LogErrorHandling (message err)))
      (print (LogReceived chan msg) w).
Proof.
  intros Hp Hn Ht. unfold handleMessage, get_prop, console_log, try_catch,
    bind, ret.
  js_simpl. rewrite Hp, Hn, Ht. reflexivity.
Qed.

(** The target is not a key of the registry: [routeToClient] returns at
    its first test. *)
Lemma routeToClient_absent event w :
  nullish event = false ->
  lookup_key (property event "clientName") (connections w) = None ->
  convertible (property event "clientName") = true ->
  routeToClient env this event w =
    (print (LogNotOnThisPod (property event "clientName") (sub_podName this)) w,
     Normal tt).
Proof.
  intros Hn Hk Hv.
  unfold routeToClient, get_prop, has, interpolate, console_log, bind, ret.
  rewrite Hn, Hk. rewrite bool_decide_eq_false_2 by (by intros [x Hx]).
  cbn [negb]. by rewrite Hv.
Qed.

(** The target is not registered and has no string form: the line that
    would say so throws before anything is printed. *)
Lemma routeToClient_absent_unprintable event w :
  nullish event = false ->
  lookup_key (property event "clientName") (connections w) = None ->
  convertible (property event "clientName") = false ->
  routeToClient env this event w = (w, Throw cannot_convert).
Proof.
  intros Hn Hk Hv.
  unfold routeToClient, get_prop, has, interpolate, console_log, bind, ret,
    throw.
  rewrite Hn, Hk. rewrite bool_decide_eq_false_2 by (by intros [x Hx]).
  cbn [negb]. by rewrite Hv.
Qed.

(** A message without target identity is dropped where it is validated. *)
Lemma handleMessage_no_target chan msg w :
  target_of (JSON_parse env msg) = None ->
  handleMessage env this chan msg w =
    (print (drop_line (JSON_parse env msg)) (print (LogReceived chan msg) w),
     Normal tt).
Proof.
  intros Ht. destruct (JSON_parse env msg) as [v|err] eqn:Hp.
  - destruct (nullish v) eqn:Hn.
    + by apply handleMessage_nullish.
    + unfold drop_line. rewrite Hn.
      apply (handleMessage_invalid chan msg v); [done..|].
      destruct v; try done. simpl in *. by rewrite Ht.
  - by apply handleMessage_parse_error.
Qed.

(** A message whose target identity is falsy is dropped in the same way. *)
Lemma handleMessage_falsy_target chan msg props v w :
  JSON_parse env msg = Normal (JObj props) ->
  own_property "clientName" props = Some v -> truthy v = false ->
  handleMessage env this chan msg w =
    (print LogInvalidMessage (print (LogReceived chan msg) w), Normal tt).
Proof.
  intros Hp Ho Ht. apply (handleMessage_invalid chan msg (JObj props)); [done..|].
  simpl. by rewrite Ho.
Qed.

(** What is routed has properties: a value with a [clientName] that is a
    key of the registry is a record. *)
Lemma routed_not_nullish v r (m : gmap string nat) :
  lookup_key (property v "clientName") m = Some r -> nullish v = false.
Proof. by destruct v. Qed.

(** A key of the registry is a string, which has a string form. *)
Lemma routed_convertible v r (m : gmap string nat) :
  lookup_key v m = Some r -> convertible v = true.
Proof. by destruct v. Qed.

(** A record for a live registered client, on a transport that accepts the
    write, is delivered: whatever [handleMessage] routes, [sendEvent]
    counts, provided its log line can be evaluated. *)
Lemma handleMessage_delivers chan msg v r e w :
  JSON_parse env msg = Normal v ->
  truthy (property v "clientName") = true ->
  lookup_key (property v "clientName") (connections w) = Some r ->
  heap w !! r = Some e -> isAlive e = true ->
  res_write env (effects w) (response e) (data_message env v) = Normal true ->
  convertible (js_or (property v "action") (JStr "event")) = true ->
  handleMessage env this chan msg w =
    (print (LogRouted (property v "clientName") (sub_podName this))
       (print (LogEventSent (increment (eventCount e)) (clientName e)
                 (js_or (property v "action") (JStr "event")))
          (set_heap (insert r (delivered (clock w) e))
             (emit (EWrite (response e) (data_message env v))
                (print (LogReceived chan msg) w)))),
     Normal tt).
Proof.
  intros Hp Ht Hk He Ha Hw Hv.
  pose proof (routed_not_nullish v r _ Hk) as Hn.
  pose proof (routed_convertible _ r _ Hk) as Hc.
  rewrite (handleMessage_routes chan msg v w Hp Hn Ht).
  unfold try_catch, routeToClient, get_prop, has, get, bind.
  rewrite Hn. unfold ret at 1. js_simpl.
  rewrite Hk, bool_decide_eq_true_2 by eauto. js_simpl. rewrite ?Hk.
  rewrite (sendEvent_write_true env (print (LogReceived chan msg) w) r e v
             He Ha Hw Hn Hv).
  unfold interpolate. js_simpl. rewrite Hc. reflexivity.
Qed.

End Router.

Section RouterProperties.

Context (env : Env) (this : RedisSubscriber).

(** C6. A bus message that does not parse, or parses to something that
    is not a record, or to a record without the target-identity field, is
    logged and dropped: [handleMessage] returns normally (nothing is
    thrown to the caller), the world differs by two console lines only, and
    these lines depend on the message alone, not on the registry. *)
Theorem untargeted_message_dropped chan msg w :
  target_of (JSON_parse env msg) = None ->
  result (handleMessage env this chan msg) w = Normal tt /\
  only_logged w (exec (handleMessage env this chan msg) w)
    [LogReceived chan msg; drop_line (JSON_parse env msg)].
Proof.
  intros Ht. unfold result, exec.
  rewrite (handleMessage_no_target env this chan msg w Ht).
  split; [done | apply only_logged_print2].
Qed.

(** C7. Routing a record whose target identity is not a key of the
    registry mutates nothing: the world changes by console lines at most,
    the entries (so every state, [eventCount] and [lastActivity]), the
    registry, its count, the timers and the effects are as before. For a
    well-formed record, whose target is a string and so has a string form,
    [routeToClient] returns normally and the one line says that the client
    is not on this pod. Through [handleMessage], as the bus delivers it,
    no record raises a fault. *)
Theorem absent_target_no_mutation props w :
  lookup_key (property (JObj props) "clientName") (connections w) = None ->
  ((exists lines,
      only_logged w (exec (routeToClient env this (JObj props)) w) lines) /\
   result count (exec (routeToClient env this (JObj props)) w)
     = result count w /\
   (convertible (property (JObj props) "clientName") = true ->
    result (routeToClient env this (JObj props)) w = Normal tt /\
    only_logged w (exec (routeToClient env this (JObj props)) w)
      [LogNotOnThisPod (property (JObj props) "clientName")
         (sub_podName this)])) /\
  (forall chan msg,
     JSON_parse env msg = Normal (JObj props) ->
     result (handleMessage env this chan msg) w = Normal tt /\
     (exists lines,
        only_logged w (exec (handleMessage env this chan msg) w) lines) /\
     result count (exec (handleMessage env this chan msg) w) = result count w).
Proof.
  intros Hk. split.
  - unfold result, exec.
    destruct (convertible (property (JObj props) "clientName")) eqn:Hv.
    + rewrite (routeToClient_absent env this (JObj props) w eq_refl Hk Hv).
      split; [eexists; apply only_logged_print|]. split; [done|].
      intros _. split; [done | apply only_logged_print].
    + rewrite (routeToClient_absent_unprintable env this (JObj props) w
                 eq_refl Hk Hv).
      split; [|done]. exists []. cbn [fst]. unfold only_logged.
      by rewrite app_nil_r.
  - intros chan msg Hp. unfold result, exec.
    destruct (truthy (property (JObj props) "clientName")) eqn:Ht.
    + rewrite (handleMessage_routes env this chan msg _ w Hp eq_refl Ht).
      unfold try_catch.
      destruct (convertible (property (JObj props) "clientName")) eqn:Hv.
      * rewrite (routeToClient_absent env this (JObj props)
                   (print (LogReceived chan msg) w) eq_refl Hk Hv).
        split; [done|]. split; [|done].
        eexists. apply only_logged_print2.
      * rewrite (routeToClient_absent_unprintable env this (JObj props)
                   (print (LogReceived chan msg) w) eq_refl Hk Hv).
        split; [done|]. split; [|done].
        eexists. apply only_logged_print2.
    + rewrite (handleMessage_invalid env this chan msg _ w Hp eq_refl Ht).
      split; [done|]. split; [|done].
      eexists. apply only_logged_print2.
Qed.

(** C10. A record whose target-identity field is present with a falsy
    value is dropped by the validation, with the same line and the same
    outcome as a record without the field, before the registry is
    consulted: whatever entry the registry holds under that value is left
    as it was and nothing is written. *)
Theorem falsy_target_dropped chan msg props v w :
  JSON_parse env msg = Normal (JObj props) ->
  own_property "clientName" props = Some v ->
  truthy v = false ->
  handleMessage env this chan msg w =
    (print LogInvalidMessage (print (LogReceived chan msg) w), Normal tt) /\
  (forall msg' props',
     JSON_parse env msg' = Normal (JObj props') ->
     own_property "clientName" props' = None ->
     handleMessage env this chan msg' w =
       (print LogInvalidMessage (print (LogReceived chan msg') w), Normal tt)) /\
  (forall r e,
     lookup_key v (connections w) = Some r -> heap w !! r = Some e ->
     heap (exec (handleMessage env this chan msg) w) !! r = Some e /\
     effects (exec (handleMessage env this chan msg) w) = effects w).
Proof.
  intros Hp Ho Ht.
  pose proof (handleMessage_falsy_target env this chan msg props v w Hp Ho Ht)
    as Hdrop.
  split; [exact Hdrop|]. split.
  - intros msg' props' Hp' Ho'.
    rewrite (handleMessage_no_target env this chan msg' w)
      by (by rewrite Hp'; simpl).
    by rewrite Hp'.
  - intros r e _ Hr. unfold exec. by rewrite Hdrop.
Qed.

(** C9. The reconnection policy of a new subscriber: for an attempt
    number from 1 to the cap of 10 the delay is [min(t * 100, 2000)]
    milliseconds; past the cap it answers [null], the stop signal, and
    does not throw. *)
Theorem retryStrategy_policy cfg t w :
  (1 <= t)%Z ->
  ((t <= 10)%Z ->
   result (retryStrategy (new_RedisSubscriber env cfg) t) w
     = Normal (Some (Z.min (t * 100) 2000))) /\
  ((10 < t)%Z ->
   result (retryStrategy (new_RedisSubscriber env cfg) t) w = Normal None).
Proof.
  intros Ht. unfold result, retryStrategy, new_RedisSubscriber.
  cbn [maxReconnectAttempts].
  split; intros Hc; destruct (Z.ltb_spec 10 t); try lia; reflexivity.
Qed.

End RouterProperties.

Section RouterWitnesses.

Import Scenario.

Lemma untargeted_message_dropped_witness :
  target_of (JSON_parse accepting "{}") = None /\
  result (handleMessage accepting subscriber "events-to-store" "{}")
    (connected accepting) = Normal tt.
Proof.
  assert (Ht : target_of (JSON_parse accepting "{}") = None) by reflexivity.
  pose proof (untargeted_message_dropped accepting subscriber
                "events-to-store" "{}" (connected accepting) Ht) as (Hr & _).
  exact (conj Ht Hr).
Defined.

Lemma absent_target_no_mutation_witness :
  lookup_key (property (record_value "B") "clientName")
    (connections (connected accepting)) = None /\
  JSON_parse accepting (record_text "B") = Normal (record_value "B") /\
  convertible (property (record_value "B") "clientName") = true /\
  result (routeToClient accepting subscriber (record_value "B"))
    (connected accepting) = Normal tt /\
  only_logged (connected accepting)
    (exec (routeToClient accepting subscriber (record_value "B"))
       (connected accepting))
    [LogNotOnThisPod (JStr "B") "local-pod"] /\
  result count (exec (routeToClient accepting subscriber (record_value "B"))
                  (connected accepting)) = Normal 1%nat /\
  result (handleMessage accepting subscriber "events-to-store"
            (record_text "B")) (connected accepting) = Normal tt /\
  result count (exec (handleMessage accepting subscriber "events-to-store"
                        (record_text "B")) (connected accepting))
    = Normal 1%nat.
Proof.
  assert (Hk : lookup_key (property (record_value "B") "clientName")
                 (connections (connected accepting)) = None) by reflexivity.
  assert (Hp : JSON_parse accepting (record_text "B")
               = Normal (record_value "B")) by reflexivity.
  assert (Hv : convertible (property (record_value "B") "clientName") = true)
    by reflexivity.
  pose proof (absent_target_no_mutation accepting subscriber
                [("clientName", JStr "B"); ("action", JStr "x")]
                (connected accepting) Hk) as ((_ & Hc & Hstr) & Hbus).
  pose proof (Hstr Hv) as (Hr & Hl).
  pose proof (Hbus "events-to-store" (record_text "B") Hp) as (Hr' & _ & Hc').
  exact (conj Hk (conj Hp (conj Hv (conj Hr (conj Hl (conj Hc
           (conj Hr' Hc'))))))).
Defined.

Lemma falsy_target_dropped_witness :
  JSON_parse accepting (record_text EmptyString)
    = Normal (record_value EmptyString) /\
  own_property "clientName"
    [("clientName", JStr EmptyString); ("action", JStr "x")]
    = Some (JStr EmptyString) /\
  truthy (JStr EmptyString) = false /\
  lookup_key (JStr EmptyString) (connections connected_unnamed) = Some 0%nat /\
  heap connected_unnamed !! 0 = Some entry_unnamed /\
  JSON_parse accepting "{}" = Normal (JObj []) /\
  own_property "clientName" [] = None /\
  handleMessage accepting subscriber "events-to-store"
    (record_text EmptyString) connected_unnamed =
    (print LogInvalidMessage
       (print (LogReceived "events-to-store" (record_text EmptyString))
          connected_unnamed),
     Normal tt) /\
  handleMessage accepting subscriber "events-to-store" "{}" connected_unnamed =
    (print LogInvalidMessage
       (print (LogReceived "events-to-store" "{}") connected_unnamed),
     Normal tt) /\
  heap (exec (handleMessage accepting subscriber "events-to-store"
                (record_text EmptyString)) connected_unnamed) !! 0
    = Some entry_unnamed /\
  effects (exec (handleMessage accepting subscriber "events-to-store"
                   (record_text EmptyString)) connected_unnamed)
    = effects connected_unnamed.
Proof.
  assert (Hp : JSON_parse accepting (record_text EmptyString)
               = Normal (record_value EmptyString)) by reflexivity.
  assert (Ho : own_property "clientName"
                 [("clientName", JStr EmptyString); ("action", JStr "x")]
               = Some (JStr EmptyString)) by reflexivity.
  assert (Ht : truthy (JStr EmptyString) = false) by reflexivity.
  assert (Hk : lookup_key (JStr EmptyString) (connections connected_unnamed)
               = Some 0%nat) by reflexivity.
  assert (He : heap connected_unnamed !! 0 = Some entry_unnamed)
    by reflexivity.
  assert (Hp' : JSON_parse accepting "{}" = Normal (JObj [])) by reflexivity.
  assert (Ho' : own_property "clientName" [] = None) by reflexivity.
  pose proof (falsy_target_dropped accepting subscriber "events-to-store"
                (record_text EmptyString) _ _ connected_unnamed
                Hp Ho Ht) as (Hd & Hsame & Hkept).
  pose proof (Hkept 0%nat entry_unnamed Hk He) as (Hheap & Heff).
  exact (conj Hp (conj Ho (conj Ht (conj Hk (conj He (conj Hp' (conj Ho'
           (conj Hd (conj (Hsame "{}" [] Hp' Ho') (conj Hheap Heff)))))))))).
Defined.

Lemma retryStrategy_policy_witness :
  (1 <= 3)%Z /\ (3 <= 10)%Z /\ (1 <= 11)%Z /\ (10 < 11)%Z /\
  result (retryStrategy subscriber 3) (initial_world 0) = Normal (Some 300%Z) /\
  result (retryStrategy subscriber 11) (initial_world 0) = Normal None.
Proof.
  assert (H3 : (1 <= 3)%Z) by lia.
  assert (H3' : (3 <= 10)%Z) by lia.
  assert (H11 : (1 <= 11)%Z) by lia.
  assert (H11' : (10 < 11)%Z) by lia.
  exact (conj H3 (conj H3' (conj H11 (conj H11'
    (conj (proj1 (retryStrategy_policy accepting
                    (mkConfig "localhost" 6379 "events-to-store" None) 3
                    (initial_world 0) H3) H3')
          (proj2 (retryStrategy_policy accepting
                    (mkConfig "localhost" 6379 "events-to-store" None) 11
                    (initial_world 0) H11) H11')))))).
Defined.

End RouterWitnesses.

(** ** Registration *)

Section Registration.

Context (env : Env).

Lemma new_ConnectionEntry_created name resp pod w :
  new_ConnectionEntry name resp pod w =
    (created name resp pod w, Normal (length (heap w))).
Proof.
  unfold new_ConnectionEntry, setupDisconnectHandlers, startHeartbeat,
    setInterval, alloc, new_Date, bind, ret, getf, setf.
  js_simpl. rewrite list_lookup_middle by done. js_simpl.
  unfold created, new_entry. js_world.
  - rewrite alter_app_r_alt by done. by rewrite Nat.sub_diag.
  - by rewrite <- !app_assoc.
Qed.

Lemma close_length r w :
  length (heap (exec (close env r) w)) = length (heap w).
Proof.
  unfold exec. destruct (heap w !! r) as [e|] eqn:H.
  - destruct (isAlive e) eqn:Ha.
    + rewrite (close_alive env w r e H Ha). simpl. apply length_insert.
    + by rewrite (close_closed env w r e H Ha).
  - unfold close, bind, getf. by rewrite H.
Qed.

Lemma evicted_length name w :
  length (heap (evicted env name w)) = length (heap w).
Proof.
  unfold evicted. destruct (connections w !! name); [|done].
  simpl. by rewrite close_length.
Qed.

Lemma evicted_lookup name w :
  connections (evicted env name w) !! name = None.
Proof.
  unfold evicted. destruct (connections w !! name) eqn:H; [|done].
  simpl. apply lookup_delete_eq.
Qed.

(** [register] is the eviction followed by the construction, and returns
    the new entry, provided the entry stored under the name exists. *)
Lemma register_evicted_stored name resp pod w :
  (forall old, connections w !! name = Some old -> is_Some (heap w !! old)) ->
  register env name resp pod w =
    (stored name resp pod (evicted env name w), Normal (length (heap w))).
Proof.
  intros Hwf. unfold register, bind, has, get, lookup_key, evicted.
  cbn [as_key]. destruct (connections w !! name) as [old|] eqn:Hold.
  - destruct (Hwf old eq_refl) as [e He].
    rewrite bool_decide_eq_true_2 by eauto.
    unfold console_log at 1. js_simpl. rewrite Hold.
    pose proof (close_never_throws env (print (LogForcedEviction name) w)
                  old e He) as Hres.
    pose proof (close_length old (print (LogForcedEviction name) w)) as Hlen.
    unfold result, exec in *.
    destruct (close env old (print (LogForcedEviction name) w)) as [w1 c].
    simpl in Hres, Hlen. subst c. unfold Map_delete, ret. js_simpl.
    rewrite new_ConnectionEntry_created.
    unfold Map_set, count, console_log, stored. js_simpl. by rewrite Hlen.
  - rewrite bool_decide_eq_false_2 by (by intros [x Hx]).
    unfold ret at 1. rewrite new_ConnectionEntry_created.
    unfold Map_set, count, console_log, ret. js_simpl. reflexivity.
Qed.

End Registration.

Section Invariant.

Context (env : Env).

Lemma inv_initial t0 : registry_inv (initial_world t0).
Proof. split; [intros name r H | intros r e H]; by simpl in H. Qed.

(** The invariant reads the entries and the registry only. *)
Lemma inv_frame w w' :
  heap w' = heap w -> connections w' = connections w ->
  registry_inv w -> registry_inv w'.
Proof. intros Hh Hc [H1 H2]. unfold registry_inv. by rewrite Hh, Hc. Qed.

(** Two live entries of a name are one entry. *)
Lemma inv_unique w r1 r2 e1 e2 :
  registry_inv w ->
  heap w !! r1 = Some e1 -> heap w !! r2 = Some e2 ->
  isAlive e1 = true -> isAlive e2 = true ->
  clientName e1 = clientName e2 -> r1 = r2.
Proof.
  intros [_ H2] He1 He2 Ha1 Ha2 Hn.
  pose proof (H2 r1 e1 He1 Ha1) as Hr1.
  pose proof (H2 r2 e2 He2 Ha2) as Hr2.
  rewrite Hn in Hr1. congruence.
Qed.

(** Updating an entry without touching its name and its liveness. *)
Lemma inv_update w r e e' :
  registry_inv w -> heap w !! r = Some e ->
  clientName e' = clientName e -> isAlive e' = isAlive e ->
  registry_inv (set_heap (insert r e') w).
Proof.
  intros [H1 H2] He Hn Ha. split; simpl.
  - intros name r0 Hr0. destruct (H1 name r0 Hr0) as (e0 & He0 & Hn0 & Ha0).
    destruct (decide (r0 = r)) as [->|Hne].
    + exists e'. rewrite (lookup_insert_heap r e e' _ He).
      split; [done|]. split; congruence.
    + exists e0. by rewrite list_lookup_insert_ne.
  - intros r0 e0 He0 Ha0. destruct (decide (r0 = r)) as [->|Hne].
    + rewrite (lookup_insert_heap r e e' _ He) in He0.
      injection He0 as <-. rewrite Hn. apply H2; congruence.
    + rewrite list_lookup_insert_ne in He0 by done. by apply H2.
Qed.

Lemma inv_after_close w r e :
  registry_inv w -> heap w !! r = Some e -> isAlive e = true ->
  registry_inv (after_close env w r e).
Proof.
  intros [H1 H2] He Ha. split; simpl.
  - intros name r0 Hr0.
    apply lookup_delete_Some in Hr0 as [Hne Hr0].
    destruct (H1 name r0 Hr0) as (e0 & He0 & Hn0 & Ha0).
    exists e0. split; [|done].
    rewrite list_lookup_insert_ne; [done|].
    intros <-. congruence.
  - intros r0 e0 He0 Ha0. destruct (decide (r0 = r)) as [->|Hne].
    + rewrite (lookup_insert_heap r e _ _ He) in He0.
      injection He0 as <-. discriminate.
    + rewrite list_lookup_insert_ne in He0 by done.
      rewrite lookup_delete_ne; [by apply H2|].
      intros Heq. apply Hne.
      pose proof (H2 r e He Ha) as Hr. pose proof (H2 r0 e0 He0 Ha0) as Hr0.
      congruence.
Qed.

Lemma inv_close w r :
  registry_inv w -> registry_inv (exec (close env r) w).
Proof.
  intros Hinv. unfold exec. destruct (heap w !! r) as [e|] eqn:H.
  - destruct (isAlive e) eqn:Ha.
    + rewrite (close_alive env w r e H Ha). by apply inv_after_close.
    + by rewrite (close_closed env w r e H Ha).
  - unfold close, bind, getf. by rewrite H.
Qed.

Lemma inv_evicted name w :
  registry_inv w -> registry_inv (evicted env name w).
Proof.
  intros Hinv. unfold evicted.
  destruct (connections w !! name) as [old|] eqn:Hold; [|done].
  assert (Hp : registry_inv (print (LogForcedEviction name) w))
    by (by eapply inv_frame).
  destruct Hinv as [H1 _]. destruct (H1 name old Hold) as (e & He & Hn & Ha).
  unfold exec.
  rewrite (close_alive env (print (LogForcedEviction name) w) old e He Ha).
  cbn [fst]. eapply (inv_frame (after_close env _ old e)).
  - done.
  - simpl. rewrite Hn. apply delete_delete_eq.
  - by apply inv_after_close.
Qed.

Lemma inv_stored name resp pod w :
  registry_inv w -> connections w !! name = None ->
  registry_inv (stored name resp pod w).
Proof.
  intros [H1 H2] Hnone. split; simpl.
  - intros name0 r0 Hr0. destruct (decide (name0 = name)) as [->|Hne].
    + rewrite lookup_insert_eq in Hr0. injection Hr0 as <-.
      exists (new_entry name resp pod w).
      split; [by apply list_lookup_middle | done].
    + rewrite lookup_insert_ne in Hr0 by done.
      destruct (H1 name0 r0 Hr0) as (e0 & He0 & Hn0 & Ha0).
      exists e0. split; [|done].
      rewrite lookup_app_l; [done|]. by eapply lookup_lt_Some.
  - intros r0 e0 He0 Ha0. apply lookup_snoc_Some in He0 as [[Hlt He0]|[-> <-]].
    + pose proof (H2 r0 e0 He0 Ha0) as Hr0.
      rewrite lookup_insert_ne; [done|]. intros Heq. congruence.
    + simpl. apply lookup_insert_eq.
Qed.

Lemma registered_valid w name :
  registry_inv w ->
  forall old, connections w !! name = Some old -> is_Some (heap w !! old).
Proof.
  intros [H1 _] old Hold. destruct (H1 name old Hold) as (e & He & _). eauto.
Qed.

Lemma inv_register name resp pod w :
  registry_inv w -> registry_inv (exec (register env name resp pod) w).
Proof.
  intros Hinv. unfold exec.
  rewrite (register_evicted_stored env name resp pod w
             (registered_valid w name Hinv)).
  apply inv_stored; [by apply inv_evicted | apply evicted_lookup].
Qed.

End Invariant.

Section RegisterTwice.

Context (env : Env).

Lemma close_next_timer r w :
  next_timer (exec (close env r) w) = next_timer w.
Proof.
  unfold exec. destruct (heap w !! r) as [e|] eqn:H.
  - destruct (isAlive e) eqn:Ha.
    + by rewrite (close_alive env w r e H Ha).
    + by rewrite (close_closed env w r e H Ha).
  - unfold close, bind, getf. by rewrite H.
Qed.

Lemma evicted_next_timer name w :
  next_timer (evicted env name w) = next_timer w.
Proof.
  unfold evicted. destruct (connections w !! name); [|done].
  simpl. by rewrite close_next_timer.
Qed.

(** Evicting a live entry stored under its own name is closing it. *)
Lemma evicted_registered name old e w :
  connections w !! name = Some old -> heap w !! old = Some e ->
  isAlive e = true -> clientName e = name ->
  evicted env name w = after_close env (print (LogForcedEviction name) w) old e.
Proof.
  intros Hold He Ha Hn. unfold evicted, exec. rewrite Hold.
  rewrite (close_alive env (print (LogForcedEviction name) w) old e He Ha).
  cbn [fst]. apply world_ext; try reflexivity.
  simpl. rewrite Hn. apply delete_delete_eq.
Qed.

(** C1. [register(name, T1)] followed by [register(name, T2)], from any
    world in which the registry and the liveness flags agree: both calls
    return, the second a new entry; the entry wrapping [T1] is closed, its
    timer cancelled and [T1] ended, before the second entry is built; [get]
    of the name is the entry wrapping [T2], which is alive; no other live
    entry bears the name; the name counts for exactly one in [count], which
    the second call leaves as the first set it (1 from an empty
    registry); and the agreement of registry and flags still holds. *)
Theorem register_twice_replaces w name T1 T2 pod1 pod2 :
  registry_inv w ->
  let e1 := length (heap w) in
  let e2 := S (length (heap w)) in
  let w1 := exec (register env name T1 pod1) w in
  let w2 := exec (register env name T2 pod2) w1 in
  result (register env name T1 pod1) w = Normal e1 /\
  result (register env name T2 pod2) w1 = Normal e2 /\
  (exists x1, heap w2 !! e1 = Some x1 /\ response x1 = T1 /\
     clientName x1 = name /\ isAlive x1 = false /\
     heartbeatInterval x1 = None) /\
  effects w2 = effects w1 ++
    [EClearInterval (next_timer w); EEnd T1;
     EOn T2 ReqClose e2; EOn T2 ReqError e2; EOn T2 ResError e2;
     EOn T2 ResFinish e2; ESetInterval (S (next_timer w)) e2 30000] /\
  intervals w2 !! next_timer w = None /\
  result (get (JStr name)) w2 = Normal (Some e2) /\
  (exists x2, heap w2 !! e2 = Some x2 /\ response x2 = T2 /\
     clientName x2 = name /\ isAlive x2 = true) /\
  (forall r x, heap w2 !! r = Some x -> clientName x = name ->
     isAlive x = true -> r = e2) /\
  size (connections w2) = S (size (delete name (connections w2))) /\
  result count w2 = result count w1 /\
  (connections w = ∅ -> result count w2 = Normal 1%nat) /\
  registry_inv w2.
Proof.
  intros Hinv e1 e2 w1 w2.
  set (w0 := evicted env name w).
  assert (Hinv0 : registry_inv w0) by (by apply inv_evicted).
  assert (Hnone0 : connections w0 !! name = None) by apply evicted_lookup.
  assert (Hlen0 : length (heap w0) = e1) by apply evicted_length.
  assert (Hnt0 : next_timer w0 = next_timer w) by apply evicted_next_timer.
  assert (Hreg1 : register env name T1 pod1 w = (stored name T1 pod1 w0, Normal e1))
    by (apply register_evicted_stored; by apply registered_valid).
  assert (Hw1 : w1 = stored name T1 pod1 w0)
    by (subst w1; unfold exec; by rewrite Hreg1).
  assert (Hinv1 : registry_inv w1)
    by (rewrite Hw1; by apply inv_stored).
  set (x := new_entry name T1 pod1 w0).
  assert (Hc1 : connections w1 !! name = Some e1)
    by (rewrite Hw1; simpl; rewrite Hlen0; apply lookup_insert_eq).
  assert (Hx : heap w1 !! e1 = Some x)
    by (rewrite Hw1; simpl; by apply list_lookup_middle).
  assert (Hlen1 : length (heap w1) = e2)
    by (rewrite Hw1; simpl; rewrite length_app, Hlen0; simpl; lia).
  set (wc := after_close env (print (LogForcedEviction name) w1) e1 x).
  assert (Hev : evicted env name w1 = wc)
    by (by apply (evicted_registered name e1 x w1)).
  assert (Hlenc : length (heap wc) = e2)
    by (rewrite <- Hev, evicted_length; exact Hlen1).
  assert (Hreg2 : register env name T2 pod2 w1 = (stored name T2 pod2 wc, Normal e2)).
  { rewrite (register_evicted_stored env name T2 pod2 w1
               (registered_valid w1 name Hinv1)).
    by rewrite Hev, Hlen1. }
  assert (Hw2 : w2 = stored name T2 pod2 wc)
    by (subst w2; unfold exec; by rewrite Hreg2).
  assert (Hinv2 : registry_inv w2).
  { rewrite Hw2. apply inv_stored.
    - rewrite <- Hev. by apply inv_evicted.
    - rewrite <- Hev. apply evicted_lookup. }
  assert (Hc2 : connections w2 !! name = Some e2)
    by (rewrite Hw2; simpl; rewrite length_insert, Hlen1; apply lookup_insert_eq).
  assert (Hcl : heap wc !! e1 = Some (closed x))
    by (by apply after_close_lookup).
  split_and!.
  - unfold result. by rewrite Hreg1.
  - unfold result. by rewrite Hreg2.
  - exists (closed x). split; [|done].
    rewrite Hw2. cbn [stored print set_connections created heap].
    rewrite lookup_app_l; [done|]. by eapply lookup_lt_Some.
  - rewrite Hw2. cbn [stored print set_connections created effects].
    subst wc. cbn [after_close effects print next_timer heap].
    rewrite length_insert, Hlen1. unfold cancelled, x.
    cbn [new_entry heartbeatInterval response]. rewrite Hw1.
    cbn [stored print set_connections created next_timer]. rewrite Hnt0.
    by rewrite <- !app_assoc.
  - rewrite Hw2. cbn [stored print set_connections created intervals].
    subst wc. cbn [after_close next_timer print intervals heap].
    unfold x. cbn [new_entry heartbeatInterval]. rewrite Hw1.
    cbn [stored print set_connections created next_timer intervals].
    rewrite Hnt0, lookup_insert_ne by lia. apply lookup_delete_eq.
  - unfold result, get, lookup_key. cbn [as_key snd]. by rewrite Hc2.
  - exists (new_entry name T2 pod2 wc). split; [|done].
    rewrite Hw2. cbn [stored print set_connections created heap].
    by apply list_lookup_middle.
  - intros r y Hy Hn Ha. destruct Hinv2 as [_ H2].
    pose proof (H2 r y Hy Ha) as Hr. rewrite Hn in Hr. congruence.
  - rewrite <- (insert_id (connections w2) name e2 Hc2) at 1.
    rewrite <- insert_delete_eq, map_size_insert_None; [done|].
    apply lookup_delete_eq.
  - unfold result, count. cbn [snd]. f_equal.
    rewrite Hw2. cbn [stored print set_connections created connections].
    subst wc. cbn [after_close connections print heap].
    unfold x. cbn [new_entry clientName].
    rewrite map_size_insert_None by apply lookup_delete_eq.
    rewrite <- (insert_id (connections w1) name e1 Hc1) at 2.
    rewrite <- insert_delete_eq, map_size_insert_None; [done|].
    apply lookup_delete_eq.
  - intros Hempty. unfold result, count. cbn [snd]. f_equal.
    rewrite Hw2. cbn [stored print set_connections created connections].
    subst wc. cbn [after_close connections print heap].
    unfold x. cbn [new_entry clientName].
    rewrite map_size_insert_None by apply lookup_delete_eq.
    rewrite Hw1. cbn [stored print set_connections created connections].
    rewrite delete_insert_eq.
    subst w0. unfold evicted. rewrite Hempty, lookup_empty, Hempty.
    by rewrite delete_empty, map_size_empty.
  - exact Hinv2.
Qed.

End RegisterTwice.

Section RegisterWitness.

Import Scenario.

Lemma register_twice_replaces_witness :
  registry_inv (initial_world 1000) /\
  result (get (JStr "A"))
    (exec (register accepting "A" 8 "pod-1")
       (exec (register accepting "A" 7 "pod-1") (initial_world 1000)))
    = Normal (Some 1%nat) /\
  result count
    (exec (register accepting "A" 8 "pod-1")
       (exec (register accepting "A" 7 "pod-1") (initial_world 1000)))
    = Normal 1%nat.
Proof.
  pose proof (inv_initial 1000) as Hinv.
  pose proof (register_twice_replaces accepting (initial_world 1000)
                "A" 7 8 "pod-1" "pod-1" Hinv)
    as (_ & _ & _ & _ & _ & Hget & _ & _ & _ & _ & Hcount & _).
  exact (conj Hinv (conj Hget (Hcount eq_refl))).
Defined.

End RegisterWitness.

(** ** Operations on a closed entry *)

Section ClosedEntry.

Context (env : Env).

(** [heartbeat] on a closed entry returns at its guard. *)
Lemma heartbeat_closed w r e :
  heap w !! r = Some e -> isAlive e = false ->
  heartbeat env r w = (w, Normal tt).
Proof. intros H Ha. js_run H. rewrite Ha. reflexivity. Qed.

(** [cleanup] on a closed entry does nothing. *)
Lemma cleanup_closed w r e :
  heap w !! r = Some e -> isAlive e = false ->
  cleanup env r w = (w, Normal tt).
Proof. intros H Ha. js_run H. rewrite Ha. reflexivity. Qed.

(** A transport event on a closed entry prints at most the error. *)
Lemma on_transport_event_closed ev err w r e :
  heap w !! r = Some e -> isAlive e = false ->
  exists lines,
    result (on_transport_event env ev err r) w = Normal tt /\
    only_logged w (exec (on_transport_event env ev err r) w) lines.
Proof.
  intros H Ha. unfold result, exec. destruct ev; simpl.
  - rewrite (cleanup_closed w r e H Ha). exists [].
    split; [done|]. repeat split. simpl. by rewrite app_nil_r.
  - unfold bind, getf, console_log. rewrite H.
    rewrite (cleanup_closed (print _ w) r e H Ha).
    eexists. split; [done|]. apply only_logged_print.
  - unfold bind, getf, console_log. rewrite H.
    rewrite (cleanup_closed (print _ w) r e H Ha).
    eexists. split; [done|]. apply only_logged_print.
  - rewrite (cleanup_closed w r e H Ha). exists [].
    split; [done|]. repeat split. simpl. by rewrite app_nil_r.
Qed.

(** [getStats] reads. *)
Lemma getStats_pure w r : exec (getStats env r) w = w.
Proof.
  unfold exec, getStats, bind, getf, new_Date, ret.
  by destruct (heap w !! r).
Qed.

(** Once the entry is closed by [close], its timer is not scheduled. *)
Lemma closed_timer_not_scheduled w r e t :
  heap w !! r = Some e -> isAlive e = true -> heartbeatInterval e = Some t ->
  interval_fires env t (exec (close env r) w) = (exec (close env r) w, Normal tt).
Proof.
  intros H Ha Ht. unfold exec. rewrite (close_alive env w r e H Ha).
  unfold interval_fires. cbn [fst after_close intervals].
  by rewrite Ht, lookup_delete_eq.
Qed.

(** [updateActivity] has no guard: it assigns [lastActivity] whatever the
    state of the entry. *)
Lemma updateActivity_assigns w r e :
  heap w !! r = Some e ->
  updateActivity r w = (set_heap (insert r (set_lastActivity (clock w) e)) w,
                        Normal tt).
Proof.
  intros H. unfold updateActivity, bind, new_Date, setf, set_heap.
  by rewrite (alter_insert _ r e _ H).
Qed.

End ClosedEntry.

Section ClosedEntryScenario.

Import Scenario.

(** C2. A closed entry is not frozen under [updateActivity], the one
    entry operation without the [isAlive] guard: client [A] connects at time
    1000 and its entry is closed; at time 5000 [updateActivity] on the
    closed entry returns normally and sets its [lastActivity] to 5000. *)
Theorem updateActivity_mutates_closed_entry :
  heap (set_clock 5000 (disconnected accepting)) !! 0 = Some (closed entry_A) /\
  isAlive (closed entry_A) = false /\
  lastActivity (closed entry_A) = 1000%Z /\
  result (updateActivity 0) (set_clock 5000 (disconnected accepting))
    = Normal tt /\
  heap (exec (updateActivity 0) (set_clock 5000 (disconnected accepting))) !! 0
    = Some (set_lastActivity 5000 (closed entry_A)) /\
  set_lastActivity 5000 (closed entry_A) <> closed entry_A.
Proof. repeat apply conj; try (vm_compute; reflexivity). discriminate. Qed.

End ClosedEntryScenario.

(** ** The agreement of registry and liveness along every run *)

Section Runs.

Context (env : Env).

Lemma getf_dangling {A} r (field : ConnectionEntry -> A) w :
  heap w !! r = None ->
  getf r field w = (w, Throw (TypeError "Cannot read properties of undefined")).
Proof. intros H. unfold getf. by rewrite H. Qed.

Lemma alter_dangling (f : ConnectionEntry -> ConnectionEntry) r
  (hp : list ConnectionEntry) :
  hp !! r = None -> alter f r hp = hp.
Proof.
  intros H. apply list_eq. intros i. destruct (decide (i = r)) as [->|Hne].
  - by rewrite list_lookup_alter_eq, H.
  - by rewrite list_lookup_alter_ne.
Qed.

Lemma heartbeat_alive w r e :
  heap w !! r = Some e -> isAlive e = true ->
  let chunk := heartbeat_message env (clock w) in
  let w1 := emit (EWrite (response e) chunk) w in
  heartbeat env r w =
    match res_write env (effects w) (response e) chunk with
    | Normal true => (print (LogHeartbeatSent (clientName e)) w1, Normal tt)
    | Normal false =>
        (after_close env (print (LogHeartbeatFailed (clientName e)) w1) r e,
         Normal tt)
    | Throw err =>
        (after_close env
           (print (LogHeartbeatError (clientName e) (message err)) w1) r e,
         Normal tt)
    end.
Proof.
  intros H Ha chunk w1.
  unfold heartbeat, response_write, console_log, new_Date, try_catch, bind,
    ret, getf.
  repeat (progress (js_simpl; rewrite ?H, ?Ha)). fold chunk.
  destruct (res_write env (effects w) (response e) chunk) as [[]|err];
    js_simpl; try reflexivity; subst w1.
  - by rewrite (close_alive env
                  (print (LogHeartbeatFailed (clientName e))
                     (emit (EWrite (response e) chunk) w)) r e H Ha).
  - by rewrite (close_alive env
                  (print (LogHeartbeatError (clientName e) (message err))
                     (emit (EWrite (response e) chunk) w)) r e H Ha).
Qed.

Lemma inv_sendEvent r event w :
  registry_inv w -> registry_inv (exec (sendEvent env r event) w).
Proof.
  intros Hinv. unfold exec. destruct (heap w !! r) as [e|] eqn:H.
  - destruct (isAlive e) eqn:Ha.
    + destruct (res_write env (effects w) (response e) (data_message env event))
        as [[]|err] eqn:Hw.
      * destruct (log_fault event) as [fault|] eqn:Hf.
        -- rewrite (sendEvent_log_throws env w r e event fault H Ha Hw Hf).
           apply inv_after_close; [|by eapply lookup_insert_heap|done].
           eapply inv_frame; [..|by apply (inv_update w r e (delivered (clock w) e))];
             done.
        -- destruct (log_fault_None event Hf) as [Hn Hv].
           rewrite (sendEvent_write_true env w r e event H Ha Hw Hn Hv).
           eapply inv_frame; [..|by apply (inv_update w r e (delivered (clock w) e))];
             done.
      * rewrite (sendEvent_write_false env w r e event H Ha Hw).
        apply inv_after_close; [by eapply inv_frame|done..].
      * rewrite (sendEvent_write_throws env w r e event err H Ha Hw).
        apply inv_after_close; [by eapply inv_frame|done..].
    + rewrite (sendEvent_closed env w r e event H Ha). by eapply inv_frame.
  - unfold sendEvent, bind. by rewrite (getf_dangling r isAlive w H).
Qed.

Lemma inv_heartbeat r w :
  registry_inv w -> registry_inv (exec (heartbeat env r) w).
Proof.
  intros Hinv. unfold exec. destruct (heap w !! r) as [e|] eqn:H.
  - destruct (isAlive e) eqn:Ha.
    + rewrite (heartbeat_alive w r e H Ha).
      destruct (res_write env _ _ _) as [[]|err].
      * by eapply inv_frame.
      * apply inv_after_close; [by eapply inv_frame|done..].
      * apply inv_after_close; [by eapply inv_frame|done..].
    + by rewrite (heartbeat_closed env w r e H Ha).
  - unfold heartbeat, bind. by rewrite (getf_dangling r isAlive w H).
Qed.

Lemma inv_cleanup r w :
  registry_inv w -> registry_inv (exec (cleanup env r) w).
Proof.
  intros Hinv. unfold exec. destruct (heap w !! r) as [e|] eqn:H.
  - destruct (isAlive e) eqn:Ha.
    + unfold cleanup, bind, getf, console_log.
      repeat (progress (js_simpl; rewrite ?H, ?Ha)).
      rewrite (close_alive env (print (LogDisconnectEvent (clientName e)) w)
                 r e H Ha).
      apply inv_after_close; [by eapply inv_frame|done..].
    + by rewrite (cleanup_closed env w r e H Ha).
  - unfold cleanup, bind. by rewrite (getf_dangling r isAlive w H).
Qed.

Lemma inv_on_transport_event ev err r w :
  registry_inv w -> registry_inv (exec (on_transport_event env ev err r) w).
Proof.
  intros Hinv. destruct ev; simpl; try by apply inv_cleanup.
  - unfold exec, bind, console_log. destruct (heap w !! r) as [e|] eqn:H.
    + unfold getf at 1. rewrite H.
      apply (inv_cleanup r (print (LogRequestError (clientName e) (message err)) w)).
      by eapply inv_frame.
    + by rewrite (getf_dangling r clientName w H).
  - unfold exec, bind, console_log. destruct (heap w !! r) as [e|] eqn:H.
    + unfold getf at 1. rewrite H.
      apply (inv_cleanup r (print (LogResponseError (clientName e) (message err)) w)).
      by eapply inv_frame.
    + by rewrite (getf_dangling r clientName w H).
Qed.

Lemma inv_updateActivity r w :
  registry_inv w -> registry_inv (exec (updateActivity r) w).
Proof.
  intros Hinv. unfold exec. destruct (heap w !! r) as [e|] eqn:H.
  - rewrite (updateActivity_assigns w r e H). by apply (inv_update w r e).
  - unfold updateActivity, bind, new_Date, setf. simpl.
    eapply inv_frame; [..|exact Hinv]; [|done].
    simpl. by apply alter_dangling.
Qed.

Lemma inv_registry_updateActivity k w :
  registry_inv w -> registry_inv (exec (registry_updateActivity k) w).
Proof.
  intros Hinv. unfold exec, registry_updateActivity, bind, get.
  destruct (lookup_key k (connections w)) as [c|]; [|done].
  by apply inv_updateActivity.
Qed.

Lemma inv_interval_fires t w :
  registry_inv w -> registry_inv (exec (interval_fires env t) w).
Proof.
  intros Hinv. unfold exec, interval_fires.
  destruct (intervals w !! t) as [r|]; [|done]. by apply inv_heartbeat.
Qed.

Lemma inv_routeToClient this event w :
  registry_inv w -> registry_inv (exec (routeToClient env this event) w).
Proof.
  intros Hinv. unfold exec, routeToClient, get_prop, bind, has, get.
  destruct (nullish event); [done|]. unfold ret at 1.
  destruct (lookup_key (property event "clientName") (connections w))
    as [c|] eqn:Hk.
  - rewrite bool_decide_eq_true_2 by eauto. cbn [negb]. rewrite Hk.
    pose proof (inv_sendEvent c event w Hinv) as Hs. unfold exec in Hs.
    destruct (sendEvent env c event w) as [w1 [b|err]]; [|done].
    unfold interpolate, console_log.
    rewrite (routed_convertible _ c _ Hk).
    destruct b; by eapply inv_frame.
  - rewrite bool_decide_eq_false_2 by (by intros [x Hx]).
    unfold interpolate, console_log. cbn [negb].
    destruct (convertible _); [by eapply inv_frame | done].
Qed.

Lemma inv_handleMessage this chan msg w :
  registry_inv w -> registry_inv (exec (handleMessage env this chan msg) w).
Proof.
  intros Hinv. unfold exec.
  destruct (JSON_parse env msg) as [v|err] eqn:Hp.
  - destruct (nullish v) eqn:Hn.
    + rewrite (handleMessage_nullish env this chan msg v w Hp Hn).
      by eapply inv_frame.
    + destruct (truthy (property v "clientName")) eqn:Ht.
      * rewrite (handleMessage_routes env this chan msg v w Hp Hn Ht).
        unfold try_catch.
        pose proof (inv_routeToClient this v (print (LogReceived chan msg) w))
          as Hr. unfold exec in Hr.
        destruct (routeToClient env this v (print (LogReceived chan msg) w))
          as [w1 [[]|e1]].
        -- apply Hr. by eapply inv_frame.
        -- eapply (inv_frame w1); [done..|]. apply Hr. by eapply inv_frame.
      * rewrite (handleMessage_invalid env this chan msg v w Hp Hn Ht).
        by eapply inv_frame.
  - rewrite (handleMessage_parse_error env this chan msg err w Hp).
    by eapply inv_frame.
Qed.

Lemma inv_perform a w : registry_inv w -> registry_inv (perform env a w).
Proof.
  intros Hinv. destruct a; simpl.
  - by apply inv_register.
  - by apply inv_sendEvent.
  - by apply inv_close.
  - by apply inv_updateActivity.
  - by apply inv_registry_updateActivity.
  - by rewrite getStats_pure.
  - by apply inv_on_transport_event.
  - by apply inv_interval_fires.
  - by apply inv_handleMessage.
  - by eapply inv_frame.
Qed.

(** In every world a process can be in, the registry and the liveness
    flags agree. *)
Lemma reachable_registry_inv w : reachable env w -> registry_inv w.
Proof.
  induction 1 as [t0|w a _ IH]; [apply inv_initial | by apply inv_perform].
Qed.

(** At most one live entry per client name, at any instant. *)
Lemma one_live_entry_per_name w r1 r2 e1 e2 :
  reachable env w ->
  heap w !! r1 = Some e1 -> heap w !! r2 = Some e2 ->
  isAlive e1 = true -> isAlive e2 = true ->
  clientName e1 = clientName e2 -> r1 = r2.
Proof. intros Hr. apply inv_unique. by apply reachable_registry_inv. Qed.

End Runs.

(** ** Worked runs *)

Section Runs_of_client_A.

Import Scenario.

(** ToBoolean on the values a [clientName] field can hold. *)
Example truthy_values :
  truthy (JStr EmptyString) = false /\ truthy (JStr "0") = true /\
  truthy (JNum 0%float) = false /\ truthy (JNum (-0)%float) = false /\
  truthy (JNum 5%float) = true /\ truthy (JBool false) = false /\
  truthy JNull = false /\ truthy (JArr []) = true /\ truthy (JObj []) = true.
Proof. cbv zeta. repeat apply conj; vm_compute; reflexivity. Qed.

(** A record for the connected client is written to its transport and
    counted. *)
Example bus_record_delivered :
  let w := exec (handleMessage accepting subscriber "events-to-store"
                   (record_text "A")) (connected accepting) in
  heap w !! 0 = Some (delivered 1000 entry_A) /\
  effects w = effects (connected accepting)
                ++ [EWrite 7 (data_message accepting (record_value "A"))] /\
  console w = console (connected accepting)
                ++ [LogReceived "events-to-store" (record_text "A");
                    LogEventSent 1 "A" (JStr "x");
                    LogRouted (JStr "A") "local-pod"].
Proof. cbv zeta. repeat apply conj; vm_compute; reflexivity. Qed.

(** A record for a client that is not connected here changes nothing but
    the console. *)
Example bus_record_for_other_pod :
  let w := exec (handleMessage accepting subscriber "events-to-store"
                   (record_text "B")) (connected accepting) in
  heap w = heap (connected accepting) /\
  effects w = effects (connected accepting) /\
  console w = console (connected accepting)
                ++ [LogReceived "events-to-store" (record_text "B");
                    LogNotOnThisPod (JStr "B") "local-pod"].
Proof. cbv zeta. repeat apply conj; vm_compute; reflexivity. Qed.

(** A heartbeat that the transport refuses closes the entry and removes
    it from the registry; the timer is cancelled. *)
Example refused_heartbeat_closes :
  let w := exec (interval_fires refusing 0) (connected refusing) in
  heap w !! 0 = Some (closed entry_A) /\
  connections w !! "A" = None /\
  intervals w !! 0 = None /\
  exec (interval_fires refusing 0) w = w.
Proof. cbv zeta. repeat apply conj; vm_compute; reflexivity. Qed.

(** [sendEvent(null)] on a healthy transport: the chunk is written and
    counted, then reading [event.action] throws and the entry is closed. *)
Example null_payload_closes :
  let w := exec (sendEvent accepting 0 JNull) (connected accepting) in
  result (sendEvent accepting 0 JNull) (connected accepting) = Normal false /\
  heap w !! 0 = Some (closed (delivered 1000 entry_A)) /\
  connections w !! "A" = None.
Proof. cbv zeta. repeat apply conj; vm_compute; reflexivity. Qed.

(** A record for the connected client whose action has no string form:
    the chunk is written and counted, the log line of the delivery throws,
    the entry is closed and unregistered, and the router reports a failed
    send. *)
Example unprintable_action_closes :
  let w := exec (handleMessage accepting subscriber "events-to-store"
                   unprintable_text) (connected accepting) in
  result (handleMessage accepting subscriber "events-to-store"
            unprintable_text) (connected accepting) = Normal tt /\
  heap w !! 0 = Some (closed (delivered 1000 entry_A)) /\
  connections w !! "A" = None /\
  effects w = effects (connected accepting)
                ++ [EWrite 7 (data_message accepting unprintable_value);
                    EClearInterval 0; EEnd 7] /\
  console w = console (connected accepting)
                ++ [LogReceived "events-to-store" unprintable_text;
                    LogWriteError "A" "Cannot convert object to primitive value";
                    LogClosing "A"; LogRemoved "A" 0;
                    LogFailedToSend (JStr "A")].
Proof. cbv zeta. repeat apply conj; vm_compute; reflexivity. Qed.

(** A record whose target has no string form: the line that would say it
    is not on this pod throws, [routeToClient] raises the fault with the
    world as it was, and [handleMessage] logs it. *)
Example unprintable_target_faults :
  routeToClient accepting subscriber unaddressed_value (connected accepting)
    = (connected accepting, Throw cannot_convert) /\
  handleMessage accepting subscriber "events-to-store" unaddressed_text
    (connected accepting)
    = (print (LogErrorHandling "Cannot convert object to primitive value")
         (print (LogReceived "events-to-store" unaddressed_text)
            (connected accepting)),
       Normal tt).
Proof. cbv zeta. repeat apply conj; vm_compute; reflexivity. Qed.

(** A transport whose [end] throws is still closed and removed. *)
Example broken_transport_closed :
  let w := exec (close broken 0) (connected broken) in
  result (close broken 0) (connected broken) = Normal tt /\
  heap w !! 0 = Some (closed entry_A) /\
  connections w !! "A" = None /\
  console w = console (connected broken)
                ++ [LogClosing "A"; LogEndError "A" "socket destroyed";
                    LogRemoved "A" 0].
Proof. cbv zeta. repeat apply conj; vm_compute; reflexivity. Qed.

End Runs_of_client_A.

(** ** Every operation is a sequence of store changes *)

Section Steps.

Context (env : Env).

Lemma steps_refl w : steps env w w.
Proof. apply rtc_refl. Qed.

Lemma steps_trans w1 w2 w3 :
  steps env w1 w2 -> steps env w2 w3 -> steps env w1 w3.
Proof. apply rtc_trans. Qed.

Lemma steps_frame w w' :
  heap w' = heap w -> connections w' = connections w ->
  intervals w' = intervals w -> next_timer w' = next_timer w ->
  steps env w w'.
Proof. intros. apply rtc_once. by apply prim_frame. Qed.

Lemma steps_print l w : steps env w (print l w).
Proof. by apply steps_frame. Qed.

Lemma steps_emit x w : steps env w (emit x w).
Proof. by apply steps_frame. Qed.

Lemma steps_after_close w r e :
  heap w !! r = Some e -> isAlive e = true ->
  steps env w (after_close env w r e).
Proof. intros. apply rtc_once. by apply prim_close. Qed.

Lemma touched_delivered now e :
  isAlive e = true -> touched e (delivered now e).
Proof.
  intros Ha. split_and!; simpl; try done; [apply increment_ge | congruence].
Qed.

Lemma touched_lastActivity now e : touched e (set_lastActivity now e).
Proof. by split_and!. Qed.

Lemma steps_touch w r e e' :
  heap w !! r = Some e -> touched e e' ->
  steps env w (set_heap (insert r e') w).
Proof. intros. apply rtc_once. by eapply prim_touch. Qed.

Lemma steps_close r w : steps env w (exec (close env r) w).
Proof.
  unfold exec. destruct (heap w !! r) as [e|] eqn:H.
  - destruct (isAlive e) eqn:Ha.
    + rewrite (close_alive env w r e H Ha). by apply steps_after_close.
    + rewrite (close_closed env w r e H Ha). apply steps_refl.
  - unfold close, bind. rewrite (getf_dangling r isAlive w H). apply steps_refl.
Qed.

Lemma steps_sendEvent r event w : steps env w (exec (sendEvent env r event) w).
Proof.
  unfold exec. destruct (heap w !! r) as [e|] eqn:H.
  - destruct (isAlive e) eqn:Ha.
    + set (w1 := emit (EWrite (response e) (data_message env event)) w).
      assert (H1 : steps env w w1) by apply steps_emit.
      destruct (res_write env (effects w) (response e) (data_message env event))
        as [[]|err] eqn:Hw.
      * assert (H2 : steps env w (set_heap (insert r (delivered (clock w) e)) w1)).
        { eapply steps_trans; [exact H1|].
          apply (steps_touch w1 r e); [done | by apply touched_delivered]. }
        destruct (log_fault event) as [fault|] eqn:Hf.
        -- rewrite (sendEvent_log_throws env w r e event fault H Ha Hw Hf).
           eapply steps_trans; [exact H2|].
           eapply steps_trans; [apply steps_print|].
           apply steps_after_close; [|done].
           simpl. by eapply lookup_insert_heap.
        -- destruct (log_fault_None event Hf) as [Hn Hv].
           rewrite (sendEvent_write_true env w r e event H Ha Hw Hn Hv).
           eapply steps_trans; [exact H2 | apply steps_print].
      * rewrite (sendEvent_write_false env w r e event H Ha Hw).
        eapply steps_trans; [exact H1|].
        eapply steps_trans; [apply steps_print|]. by apply steps_after_close.
      * rewrite (sendEvent_write_throws env w r e event err H Ha Hw).
        eapply steps_trans; [exact H1|].
        eapply steps_trans; [apply steps_print|]. by apply steps_after_close.
    + rewrite (sendEvent_closed env w r e event H Ha). apply steps_print.
  - unfold sendEvent, bind. rewrite (getf_dangling r isAlive w H).
    apply steps_refl.
Qed.

Lemma steps_heartbeat r w : steps env w (exec (heartbeat env r) w).
Proof.
  unfold exec. destruct (heap w !! r) as [e|] eqn:H.
  - destruct (isAlive e) eqn:Ha.
    + rewrite (heartbeat_alive env w r e H Ha).
      set (w1 := emit (EWrite (response e) (heartbeat_message env (clock w))) w).
      assert (H1 : steps env w w1) by apply steps_emit.
      destruct (res_write env _ _ _) as [[]|err]; cbn [fst].
      * eapply steps_trans; [exact H1 | apply steps_print].
      * eapply steps_trans; [exact H1|].
        eapply steps_trans; [apply steps_print|]. by apply steps_after_close.
      * eapply steps_trans; [exact H1|].
        eapply steps_trans; [apply steps_print|]. by apply steps_after_close.
    + rewrite (heartbeat_closed env w r e H Ha). apply steps_refl.
  - unfold heartbeat, bind. rewrite (getf_dangling r isAlive w H).
    apply steps_refl.
Qed.

(** [cleanup] on a live entry logs and closes. *)
Lemma cleanup_alive w r e :
  heap w !! r = Some e -> isAlive e = true ->
  cleanup env r w =
    (after_close env (print (LogDisconnectEvent (clientName e)) w) r e,
     Normal tt).
Proof.
  intros H Ha. unfold cleanup, bind, getf, console_log.
  repeat (progress (js_simpl; rewrite ?H, ?Ha)).
  by rewrite (close_alive env (print (LogDisconnectEvent (clientName e)) w)
                r e H Ha).
Qed.

Lemma steps_cleanup r w : steps env w (exec (cleanup env r) w).
Proof.
  unfold exec. destruct (heap w !! r) as [e|] eqn:H.
  - destruct (isAlive e) eqn:Ha.
    + rewrite (cleanup_alive w r e H Ha).
      eapply steps_trans; [apply steps_print|]. by apply steps_after_close.
    + rewrite (cleanup_closed env w r e H Ha). apply steps_refl.
  - unfold cleanup, bind. rewrite (getf_dangling r isAlive w H).
    apply steps_refl.
Qed.

Lemma steps_on_transport_event ev err r w :
  steps env w (exec (on_transport_event env ev err r) w).
Proof.
  destruct ev; simpl; try apply steps_cleanup.
  - unfold exec, bind, console_log. destruct (heap w !! r) as [e|] eqn:H.
    + unfold getf at 1. rewrite H.
      eapply steps_trans; [apply steps_print | apply steps_cleanup].
    + rewrite (getf_dangling r clientName w H). apply steps_refl.
  - unfold exec, bind, console_log. destruct (heap w !! r) as [e|] eqn:H.
    + unfold getf at 1. rewrite H.
      eapply steps_trans; [apply steps_print | apply steps_cleanup].
    + rewrite (getf_dangling r clientName w H). apply steps_refl.
Qed.

Lemma steps_updateActivity r w : steps env w (exec (updateActivity r) w).
Proof.
  unfold exec. destruct (heap w !! r) as [e|] eqn:H.
  - rewrite (updateActivity_assigns w r e H).
    apply (steps_touch w r e); [done | apply touched_lastActivity].
  - unfold updateActivity, bind, new_Date, setf. simpl.
    apply steps_frame; try done. simpl. by apply alter_dangling.
Qed.

Lemma steps_registry_updateActivity k w :
  steps env w (exec (registry_updateActivity k) w).
Proof.
  unfold exec, registry_updateActivity, bind, get.
  destruct (lookup_key k (connections w)) as [c|]; [|apply steps_refl].
  apply steps_updateActivity.
Qed.

Lemma steps_interval_fires t w : steps env w (exec (interval_fires env t) w).
Proof.
  unfold exec, interval_fires.
  destruct (intervals w !! t) as [r|]; [|apply steps_refl].
  apply steps_heartbeat.
Qed.

(** [remove] deletes the key and prints if it was there. *)
Lemma remove_world name w :
  remove name w =
    (if bool_decide (is_Some (connections w !! name))
     then print (LogRemoved name (size (delete name (connections w))))
            (set_connections (delete name) w)
     else set_connections (delete name) w,
     Normal (bool_decide (is_Some (connections w !! name)))).
Proof.
  unfold remove, Map_delete, count, console_log, bind, ret.
  by case_bool_decide.
Qed.

Lemma steps_remove name w : steps env w (exec (remove name) w).
Proof.
  unfold exec. rewrite remove_world. cbn [fst].
  assert (steps env w (set_connections (delete name) w))
    by (apply rtc_once, prim_unregister).
  case_bool_decide; [|done].
  eapply steps_trans; [eassumption | apply steps_print].
Qed.

Lemma steps_register name resp pod w :
  steps env w (exec (register env name resp pod) w).
Proof.
  unfold exec, register, bind, has, get, lookup_key. cbn [as_key].
  destruct (connections w !! name) as [old|] eqn:Hold.
  - rewrite bool_decide_eq_true_2 by eauto.
    unfold console_log at 1. js_simpl. rewrite Hold.
    pose proof (steps_close old (print (LogForcedEviction name) w)) as Hc.
    unfold exec in Hc.
    destruct (close env old (print (LogForcedEviction name) w)) as [w1 [[]|err]];
      cbn [fst] in Hc.
    + unfold Map_delete, ret. js_simpl. rewrite new_ConnectionEntry_created.
      unfold Map_set, count, console_log. js_simpl.
      change (steps env w (stored name resp pod
                             (set_connections (delete name) w1))).
      eapply steps_trans; [apply steps_print|].
      eapply steps_trans; [exact Hc|].
      apply (steps_trans _ (set_connections (delete name) w1)).
      * apply rtc_once, prim_unregister.
      * apply rtc_once, prim_store.
    + eapply steps_trans; [apply steps_print | exact Hc].
  - rewrite bool_decide_eq_false_2 by (by intros [x Hx]).
    unfold ret at 1. rewrite new_ConnectionEntry_created.
    unfold Map_set, count, console_log, ret. js_simpl.
    change (steps env w (stored name resp pod w)).
    apply rtc_once, prim_store.
Qed.

Lemma steps_routeToClient this event w :
  steps env w (exec (routeToClient env this event) w).
Proof.
  unfold exec, routeToClient, get_prop, bind, has, get.
  destruct (nullish event); [apply steps_refl|]. unfold ret at 1.
  destruct (lookup_key (property event "clientName") (connections w))
    as [c|] eqn:Hk.
  - rewrite bool_decide_eq_true_2 by eauto. cbn [negb]. rewrite Hk.
    pose proof (steps_sendEvent c event w) as Hs. unfold exec in Hs.
    destruct (sendEvent env c event w) as [w1 [b|err]]; [|done].
    unfold interpolate, console_log.
    rewrite (routed_convertible _ c _ Hk).
    destruct b; (eapply steps_trans; [exact Hs | apply steps_print]).
  - rewrite bool_decide_eq_false_2 by (by intros [x Hx]).
    unfold interpolate, console_log. cbn [negb].
    destruct (convertible _); [apply steps_print | apply steps_refl].
Qed.

Lemma steps_handleMessage this chan msg w :
  steps env w (exec (handleMessage env this chan msg) w).
Proof.
  unfold exec. destruct (JSON_parse env msg) as [v|err] eqn:Hp.
  - destruct (nullish v) eqn:Hn.
    + rewrite (handleMessage_nullish env this chan msg v w Hp Hn).
      eapply steps_trans; apply steps_print.
    + destruct (truthy (property v "clientName")) eqn:Ht.
      * rewrite (handleMessage_routes env this chan msg v w Hp Hn Ht).
        unfold try_catch.
        pose proof (steps_routeToClient this v (print (LogReceived chan msg) w))
          as Hr. unfold exec in Hr.
        destruct (routeToClient env this v (print (LogReceived chan msg) w))
          as [w1 [[]|e1]]; cbn [fst] in *.
        -- eapply steps_trans; [apply steps_print | exact Hr].
        -- eapply steps_trans; [apply steps_print|].
           eapply steps_trans; [exact Hr | apply steps_print].
      * rewrite (handleMessage_invalid env this chan msg v w Hp Hn Ht).
        eapply steps_trans; apply steps_print.
  - rewrite (handleMessage_parse_error env this chan msg err w Hp).
    eapply steps_trans; apply steps_print.
Qed.

Lemma steps_perform a w : steps env w (perform env a w).
Proof.
  destruct a; simpl.
  - apply steps_register.
  - apply steps_sendEvent.
  - apply steps_close.
  - apply steps_updateActivity.
  - apply steps_registry_updateActivity.
  - rewrite getStats_pure. apply steps_refl.
  - apply steps_on_transport_event.
  - apply steps_interval_fires.
  - apply steps_handleMessage.
  - by apply steps_frame.
Qed.

Lemma steps_run actions w : steps env w (run env actions w).
Proof.
  revert w. induction actions as [|a actions IH]; intros w; simpl.
  - apply steps_refl.
  - eapply steps_trans; [apply steps_perform | apply IH].
Qed.

End Steps.

(** ** What entries keep, and the timers *)

Section Lifetime.

Context (env : Env).

Lemma evolves_refl e : evolves e e.
Proof. by split_and!. Qed.

Lemma evolves_trans e1 e2 e3 : evolves e1 e2 -> evolves e2 e3 -> evolves e1 e3.
Proof.
  intros (Hn & Hr & Hp & Hc & Hle & Hd) (Hn' & Hr' & Hp' & Hc' & Hle' & Hd').
  split_and!; try congruence; try lia.
  intros Ha. destruct (Hd Ha) as [Ha2 He2]. destruct (Hd' Ha2) as [Ha3 He3].
  split; congruence.
Qed.

Lemma heap_evolves_refl w : heap_evolves w w.
Proof. intros r e H. exists e. split; [done | apply evolves_refl]. Qed.

Lemma heap_evolves_trans w1 w2 w3 :
  heap_evolves w1 w2 -> heap_evolves w2 w3 -> heap_evolves w1 w3.
Proof.
  intros H12 H23 r e H. destruct (H12 r e H) as (e2 & H2 & He2).
  destruct (H23 r e2 H2) as (e3 & H3 & He3).
  exists e3. split; [done | by eapply evolves_trans].
Qed.

Lemma heap_evolves_update w r e e' :
  heap w !! r = Some e -> evolves e e' ->
  heap_evolves w (set_heap (insert r e') w).
Proof.
  intros H He r0 e0 H0. destruct (decide (r0 = r)) as [->|Hne].
  - exists e'. simpl. rewrite (lookup_insert_heap r e e' _ H).
    split; [done|]. congruence.
  - exists e0. simpl. rewrite list_lookup_insert_ne by done.
    split; [done | apply evolves_refl].
Qed.

Lemma prim_evolves w w' : prim env w w' -> heap_evolves w w'.
Proof.
  intros [w1 w2 Hh _ _ _ | w1 r e e' H Ht | w1 r e H Ha
         | w1 name resp pod | w1 name].
  - intros r e H. exists e. rewrite Hh. split; [done | apply evolves_refl].
  - apply (heap_evolves_update w1 r e e' H).
    destruct Ht as (Hn & Hr & Hp & Hc & _ & Ha & Hle & Hd).
    split_and!; try done. intros Hdead. split; [congruence | by apply Hd].
  - intros r0 e0 H0. destruct (decide (r0 = r)) as [->|Hne].
    + exists (closed e). simpl. rewrite (lookup_insert_heap r e _ _ H).
      split; [done|]. assert (e0 = e) as -> by congruence.
      split_and!; simpl; try done; intros; congruence.
    + exists e0. simpl. rewrite list_lookup_insert_ne by done.
      split; [done | apply evolves_refl].
  - intros r e H. exists e. simpl.
    rewrite lookup_app_l by (by eapply lookup_lt_Some).
    split; [done | apply evolves_refl].
  - intros r e H. exists e. split; [done | apply evolves_refl].
Qed.

Lemma steps_evolves w w' : steps env w w' -> heap_evolves w w'.
Proof.
  induction 1 as [w|w1 w2 w3 Hp _ IH]; [apply heap_evolves_refl|].
  eapply heap_evolves_trans; [by apply prim_evolves | exact IH].
Qed.

Lemma timers_inv_initial t0 : timers_inv (initial_world t0).
Proof.
  split; [|split]; [intros t r H | intros r e H | intros r e t H];
    by simpl in H.
Qed.

Lemma prim_timers w w' : timers_inv w -> prim env w w' -> timers_inv w'.
Proof.
  intros Hinv Hp.
  destruct Hp as [w1 w2 Hh _ Hi Hn | w1 r e e' H Ht | w1 r e H Ha
                 | w1 name resp pod | w1 name];
    destruct Hinv as (T1 & T2 & T3).
  - unfold timers_inv. rewrite Hh, Hi, Hn. by split_and!.
  - destruct Ht as (_ & _ & _ & _ & Hhb & Hal & _).
    split; [|split]; simpl.
    + intros t r0 Hr0. destruct (T1 t r0 Hr0) as (e0 & He0 & Ha0 & Ht0).
      destruct (decide (r0 = r)) as [->|Hne].
      * exists e'. rewrite (lookup_insert_heap r e e' _ H).
        split; [done|]. split; congruence.
      * exists e0. by rewrite list_lookup_insert_ne.
    + intros r0 e0 He0 Ha0. destruct (decide (r0 = r)) as [->|Hne].
      * rewrite (lookup_insert_heap r e e' _ H) in He0. injection He0 as <-.
        rewrite Hhb. apply T2; congruence.
      * rewrite list_lookup_insert_ne in He0 by done. by apply T2.
    + intros r0 e0 t He0 Ht0. destruct (decide (r0 = r)) as [->|Hne].
      * rewrite (lookup_insert_heap r e e' _ H) in He0. injection He0 as <-.
        apply (T3 r e); congruence.
      * rewrite list_lookup_insert_ne in He0 by done. by eapply T3.
  - destruct (T2 r e H Ha) as (t & Ht & Hsched).
    split; [|split]; simpl; rewrite ?Ht.
    + intros t0 r0 Hr0. apply lookup_delete_Some in Hr0 as [Hne Hr0].
      destruct (T1 t0 r0 Hr0) as (e0 & He0 & Ha0 & Ht0).
      exists e0. split; [|done].
      rewrite list_lookup_insert_ne; [done|]. intros <-. congruence.
    + intros r0 e0 He0 Ha0. destruct (decide (r0 = r)) as [->|Hne].
      * rewrite (lookup_insert_heap r e _ _ H) in He0.
        injection He0 as <-. discriminate.
      * rewrite list_lookup_insert_ne in He0 by done.
        destruct (T2 r0 e0 He0 Ha0) as (t0 & Ht0 & Hs0).
        exists t0. split; [done|].
        rewrite lookup_delete_ne; [done|]. intros <-. congruence.
    + intros r0 e0 t0 He0 Ht0. destruct (decide (r0 = r)) as [->|Hne].
      * rewrite (lookup_insert_heap r e _ _ H) in He0.
        injection He0 as <-. discriminate.
      * rewrite list_lookup_insert_ne in He0 by done. by eapply T3.
  - assert (Hfresh : intervals w1 !! next_timer w1 = None).
    { destruct (intervals w1 !! next_timer w1) as [r|] eqn:Hr; [|done].
      destruct (T1 _ r Hr) as (e & He & _ & Ht).
      pose proof (T3 r e _ He Ht). lia. }
    split; [|split]; simpl.
    + intros t r Hr. destruct (decide (t = next_timer w1)) as [->|Hne].
      * rewrite lookup_insert_eq in Hr. injection Hr as <-.
        exists (new_entry name resp pod w1).
        split; [by apply list_lookup_middle | done].
      * rewrite lookup_insert_ne in Hr by done.
        destruct (T1 t r Hr) as (e & He & Ha & Ht).
        exists e. split; [|done].
        rewrite lookup_app_l; [done|]. by eapply lookup_lt_Some.
    + intros r e He Ha. apply lookup_snoc_Some in He as [[Hlt He]|[-> <-]].
      * destruct (T2 r e He Ha) as (t & Ht & Hs). exists t. split; [done|].
        rewrite lookup_insert_ne; [done|]. intros <-. congruence.
      * exists (next_timer w1). split; [done | apply lookup_insert_eq].
    + intros r e t He Ht. apply lookup_snoc_Some in He as [[Hlt He]|[-> <-]].
      * pose proof (T3 r e t He Ht). lia.
      * simpl in Ht. injection Ht as <-. lia.
  - done.
Qed.

Lemma steps_timers w w' : timers_inv w -> steps env w w' -> timers_inv w'.
Proof.
  intros Hinv Hs. induction Hs as [w|w1 w2 w3 Hp _ IH]; [done|].
  apply IH. by eapply prim_timers.
Qed.

Lemma reachable_steps w : reachable env w -> exists t0, steps env (initial_world t0) w.
Proof.
  induction 1 as [t0|w a _ [t0 IH]].
  - exists t0. apply steps_refl.
  - exists t0. eapply steps_trans; [exact IH | apply steps_perform].
Qed.

Lemma reachable_timers_inv w : reachable env w -> timers_inv w.
Proof.
  intros Hr. destruct (reachable_steps w Hr) as [t0 Hs].
  eapply steps_timers; [apply timers_inv_initial | exact Hs].
Qed.

End Lifetime.

(** ** Further properties of the entries and the registry *)

Section Along_runs.

Context (env : Env).

(** X1. Along any run, an entry stays in the heap with its identity
    ([clientName], transport, [podName], [connectedAt]); its [eventCount]
    never decreases; and once it is closed it is never alive again and its
    [eventCount] no longer moves. *)
Theorem entries_keep_identity actions w r e :
  heap w !! r = Some e ->
  exists e', heap (run env actions w) !! r = Some e' /\
    clientName e' = clientName e /\ response e' = response e /\
    podName e' = podName e /\ connectedAt e' = connectedAt e /\
    (eventCount e <= eventCount e')%nat /\
    (isAlive e = false -> isAlive e' = false /\ eventCount e' = eventCount e).
Proof.
  intros H. exact (steps_evolves env _ _ (steps_run env actions w) r e H).
Qed.

(** X2. In every world a process can be in, the scheduled intervals are
    exactly the heartbeat timers of the live entries: a scheduled interval
    belongs to a live entry that holds it, every live entry holds a timer
    that is scheduled, and no interval is scheduled for a closed entry. *)
Theorem timers_follow_liveness w :
  reachable env w ->
  (forall t r, intervals w !! t = Some r ->
     exists e, heap w !! r = Some e /\ isAlive e = true /\
               heartbeatInterval e = Some t) /\
  (forall r e, heap w !! r = Some e -> isAlive e = true ->
     exists t, heartbeatInterval e = Some t /\ intervals w !! t = Some r) /\
  (forall r e t, heap w !! r = Some e -> isAlive e = false ->
     intervals w !! t <> Some r).
Proof.
  intros Hr. destruct (reachable_timers_inv env w Hr) as (T1 & T2 & _).
  split; [exact T1|]. split; [exact T2|].
  intros r e t He Ha Hs. destruct (T1 t r Hs) as (e' & He' & Ha' & _).
  congruence.
Qed.

(** X3. In every world a process can be in, the registry and the liveness
    flags agree: what is registered is alive and stored under its own name,
    what is alive is registered, so two live entries never share a name. *)
Theorem registry_agrees_with_liveness w :
  reachable env w ->
  (forall name r, connections w !! name = Some r ->
     exists e, heap w !! r = Some e /\ clientName e = name /\ isAlive e = true) /\
  (forall r e, heap w !! r = Some e -> isAlive e = true ->
     connections w !! clientName e = Some r) /\
  (forall r1 r2 e1 e2,
     heap w !! r1 = Some e1 -> heap w !! r2 = Some e2 ->
     isAlive e1 = true -> isAlive e2 = true ->
     clientName e1 = clientName e2 -> r1 = r2).
Proof.
  intros Hr. pose proof (reachable_registry_inv env w Hr) as Hinv.
  destruct Hinv as [H1 H2]. split; [exact H1|]. split; [exact H2|].
  intros r1 r2 e1 e2. by apply inv_unique.
Qed.

End Along_runs.

Section Heartbeat_and_disconnect.

Context (env : Env).

(** X4. When the interval of a live entry fires and the keepalive write
    returns [false] or throws, the callback returns normally, the entry is
    closed and its name removed from the registry, the transport is ended,
    and the interval is cancelled: if it fires again nothing happens. *)
Theorem failed_heartbeat_closes w t r e :
  intervals w !! t = Some r -> heap w !! r = Some e ->
  isAlive e = true -> heartbeatInterval e = Some t ->
  res_write env (effects w) (response e) (heartbeat_message env (clock w))
    <> Normal true ->
  let w' := exec (interval_fires env t) w in
  result (interval_fires env t) w = Normal tt /\
  heap w' !! r = Some (closed e) /\
  connections w' = delete (clientName e) (connections w) /\
  effects w' = effects w
    ++ [EWrite (response e) (heartbeat_message env (clock w));
        EClearInterval t; EEnd (response e)] /\
  interval_fires env t w' = (w', Normal tt).
Proof.
  intros Hs H Ha Ht Hw.
  assert (Heq : interval_fires env t w = heartbeat env r w)
    by (unfold interval_fires; by rewrite Hs).
  unfold exec, result. rewrite Heq, (heartbeat_alive env w r e H Ha).
  assert (Hcl : forall l,
    let w1 := after_close env
                (print l (emit (EWrite (response e)
                                  (heartbeat_message env (clock w))) w)) r e in
    heap w1 !! r = Some (closed e) /\
    connections w1 = delete (clientName e) (connections w) /\
    effects w1 = effects w
      ++ [EWrite (response e) (heartbeat_message env (clock w));
          EClearInterval t; EEnd (response e)] /\
    interval_fires env t w1 = (w1, Normal tt)).
  { intros l w1. split_and!.
    - by apply after_close_lookup.
    - done.
    - simpl. unfold cancelled. rewrite Ht. by rewrite <- app_assoc.
    - unfold interval_fires. simpl. by rewrite Ht, lookup_delete_eq. }
  destruct (res_write env _ _ _) as [[]|err]; [done| |]; cbn [fst snd];
    (split; [done | apply Hcl]).
Qed.

(** X5. When the interval of a live entry fires and the keepalive write
    is accepted, only the write and a console line happen: the keepalive is
    not counted as an event and is no activity ([eventCount] and
    [lastActivity] stay), the entry stays registered and its interval
    scheduled. *)
Theorem accepted_heartbeat_is_inert w t r e :
  intervals w !! t = Some r -> heap w !! r = Some e -> isAlive e = true ->
  res_write env (effects w) (response e) (heartbeat_message env (clock w))
    = Normal true ->
  let w' := exec (interval_fires env t) w in
  result (interval_fires env t) w = Normal tt /\
  heap w' = heap w /\ connections w' = connections w /\
  intervals w' = intervals w /\
  effects w' = effects w
    ++ [EWrite (response e) (heartbeat_message env (clock w))] /\
  console w' = console w ++ [LogHeartbeatSent (clientName e)].
Proof.
  intros Hs H Ha Hw.
  assert (Heq : interval_fires env t w = heartbeat env r w)
    by (unfold interval_fires; by rewrite Hs).
  unfold exec, result. rewrite Heq, (heartbeat_alive env w r e H Ha), Hw.
  by split_and!.
Qed.

(** X6. A disconnect, error or finish event of the transport of a live
    entry closes it: the listener returns normally, the entry is closed,
    its name removed, its interval cancelled and its transport ended, with
    no write. A later event of any kind on the closed entry changes nothing
    but the console. *)
Theorem transport_event_closes ev err w r e :
  heap w !! r = Some e -> isAlive e = true ->
  let w' := exec (on_transport_event env ev err r) w in
  result (on_transport_event env ev err r) w = Normal tt /\
  heap w' !! r = Some (closed e) /\
  connections w' = delete (clientName e) (connections w) /\
  effects w' = effects w ++ cancelled e ++ [EEnd (response e)] /\
  (forall t, heartbeatInterval e = Some t -> intervals w' !! t = None) /\
  (forall ev' err',
     result (on_transport_event env ev' err' r) w' = Normal tt /\
     exists lines,
       only_logged w' (exec (on_transport_event env ev' err' r) w') lines).
Proof.
  intros H Ha.
  assert (exists l, on_transport_event env ev err r w =
                      (after_close env l r e, Normal tt) /\
                    heap l = heap w /\ connections l = connections w /\
                    intervals l = intervals w /\ effects l = effects w)
    as (l & Heq & Hh & Hc & Hi & He).
  { destruct ev; simpl.
    - eexists. split; [by apply cleanup_alive | done].
    - unfold bind, getf, console_log. rewrite H.
      eexists. split; [by apply cleanup_alive | done].
    - unfold bind, getf, console_log. rewrite H.
      eexists. split; [by apply cleanup_alive | done].
    - eexists. split; [by apply cleanup_alive | done]. }
  assert (Hl : heap l !! r = Some e) by (by rewrite Hh).
  unfold exec, result. rewrite Heq. cbn [fst snd]. split_and!.
  - done.
  - by apply after_close_lookup.
  - simpl. by rewrite Hc.
  - simpl. by rewrite He.
  - intros t Ht. simpl. rewrite Ht. apply lookup_delete_eq.
  - intros ev' err'.
    destruct (on_transport_event_closed env ev' err' (after_close env l r e)
                r (closed e)) as (lines & Hres & Hlog);
      [by apply after_close_lookup | done |].
    split; [exact Hres | by exists lines].
Qed.

End Heartbeat_and_disconnect.

Section Registry_operations.

Context (env : Env).

(** [register] in a world where registry and liveness agree. *)
Lemma register_in_registry w name resp pod :
  registry_inv w ->
  let w' := exec (register env name resp pod) w in
  let new := length (heap w) in
  result (register env name resp pod) w = Normal new /\
  heap w' !! new =
    Some (mkEntry name resp pod (clock w) (clock w) (Some (next_timer w)) 0 true) /\
  connections w' = <[name := new]> (connections w) /\
  size (connections w') =
    match connections w !! name with
    | Some _ => size (connections w)
    | None => S (size (connections w))
    end /\
  (forall name' r', name' <> name -> connections w !! name' = Some r' ->
     connections w' !! name' = Some r' /\ heap w' !! r' = heap w !! r').
Proof.
  intros Hinv w' new.
  pose proof (register_evicted_stored env name resp pod w
                (registered_valid w name Hinv)) as Hreg.
  assert (Hw' : w' = stored name resp pod (evicted env name w))
    by (subst w'; unfold exec; by rewrite Hreg).
  pose proof (evicted_length env name w) as Hlen.
  pose proof (evicted_next_timer env name w) as Hnt.
  assert (Hclock : clock (evicted env name w) = clock w).
  { unfold evicted. destruct (connections w !! name) as [old|] eqn:Hold; [|done].
    destruct Hinv as [H1 _]. destruct (H1 name old Hold) as (e & He & Hn & Ha).
    unfold exec. simpl.
    by rewrite (close_alive env (print (LogForcedEviction name) w) old e He Ha). }
  assert (Hconn : connections (evicted env name w) = delete name (connections w)).
  { unfold evicted. destruct (connections w !! name) as [old|] eqn:Hold.
    - simpl. destruct Hinv as [H1 _].
      destruct (H1 name old Hold) as (e & He & Hn & Ha). unfold exec.
      rewrite (close_alive env (print (LogForcedEviction name) w) old e He Ha).
      simpl. by rewrite Hn, delete_delete_eq.
    - symmetry. by apply delete_id. }
  split_and!.
  - unfold result. by rewrite Hreg.
  - rewrite Hw'. cbn [stored print set_connections created heap].
    unfold new. rewrite <- Hlen.
    rewrite list_lookup_middle by done.
    unfold new_entry. by rewrite Hclock, Hnt.
  - rewrite Hw'. cbn [stored print set_connections created connections].
    rewrite Hconn, Hlen. apply insert_delete_eq.
  - rewrite Hw'. cbn [stored print set_connections created connections].
    rewrite Hconn, Hlen, insert_delete_eq, map_size_insert.
    by destruct (connections w !! name).
  - intros name' r' Hne Hr'. rewrite Hw'.
    cbn [stored print set_connections created connections heap].
    rewrite lookup_insert_ne by done. rewrite Hconn, lookup_delete_ne by done.
    split; [done|].
    destruct Hinv as [H1 H2].
    destruct (H1 name' r' Hr') as (e' & He' & Hn' & Ha').
    rewrite lookup_app_l
      by (rewrite Hlen; by eapply lookup_lt_Some).
    unfold evicted. destruct (connections w !! name) as [old|] eqn:Hold; [|done].
    destruct (H1 name old Hold) as (e & He & Hn & Ha). unfold exec.
    rewrite (close_alive env (print (LogForcedEviction name) w) old e He Ha).
    simpl. rewrite list_lookup_insert_ne; [done|]. intros ->. congruence.
Qed.

(** [register] closes the entry that was registered under the name. *)
Lemma register_closes_previous w name resp pod old e :
  registry_inv w ->
  connections w !! name = Some old -> heap w !! old = Some e ->
  heap (exec (register env name resp pod) w) !! old = Some (closed e).
Proof.
  intros Hinv Hold He. unfold exec.
  rewrite (register_evicted_stored env name resp pod w
             (registered_valid w name Hinv)).
  destruct Hinv as [H1 _]. destruct (H1 name old Hold) as (e' & He' & Hn & Ha).
  assert (e' = e) as -> by congruence.
  rewrite (evicted_registered env name old e w Hold He Ha Hn).
  cbn [fst stored print set_connections created heap after_close].
  assert (Hl : <[old := closed e]> (heap w) !! old = Some (closed e))
    by (by eapply lookup_insert_heap).
  rewrite lookup_app_l; [done|]. by eapply lookup_lt_Some.
Qed.

(** X7. [register] in a world where registry and liveness agree: it
    returns the new entry, which wraps the transport, is alive and has
    counted nothing; the name now maps to it; [count] grows by one exactly
    when the name was not registered; and the registration and the entry of
    every other name are as before. *)
Theorem register_leaves_others w name resp pod :
  registry_inv w ->
  let w' := exec (register env name resp pod) w in
  let new := length (heap w) in
  result (register env name resp pod) w = Normal new /\
  heap w' !! new =
    Some (mkEntry name resp pod (clock w) (clock w) (Some (next_timer w)) 0 true) /\
  connections w' = <[name := new]> (connections w) /\
  size (connections w') =
    match connections w !! name with
    | Some _ => size (connections w)
    | None => S (size (connections w))
    end /\
  (forall name' r', name' <> name -> connections w !! name' = Some r' ->
     connections w' !! name' = Some r' /\ heap w' !! r' = heap w !! r').
Proof. apply register_in_registry. Qed.

(** X8. [remove] only unregisters: it returns whether the name was
    registered, afterwards [get] of the name is absent, and a second
    [remove] returns [false] and changes nothing. It does not close: the
    entries (a live one stays alive), the intervals and the transports are
    as before. *)
Theorem remove_only_unregisters w name :
  let w' := exec (remove name) w in
  result (remove name) w
    = Normal (bool_decide (is_Some (connections w !! name))) /\
  connections w' = delete name (connections w) /\
  result (get (JStr name)) w' = Normal None /\
  heap w' = heap w /\ intervals w' = intervals w /\ effects w' = effects w /\
  remove name w' = (w', Normal false).
Proof.
  intros w'. subst w'. unfold exec, result. rewrite remove_world.
  cbn [fst snd].
  assert (Hc : forall x, connections
            (if bool_decide (is_Some (connections w !! name))
             then print x (set_connections (delete name) w)
             else set_connections (delete name) w)
            = delete name (connections w)) by (intros x; by case_bool_decide).
  split_and!; try (by case_bool_decide).
  - unfold get, lookup_key. cbn [as_key snd]. by rewrite Hc, lookup_delete_eq.
  - rewrite remove_world, Hc, lookup_delete_eq.
    rewrite bool_decide_eq_false_2 by (by intros [x Hx]).
    f_equal. apply world_ext; try done.
    simpl. rewrite Hc. by rewrite delete_delete_eq.
Qed.

(** X9. [close] unregisters by name, not by identity: closing a live entry
    removes the registration of its [clientName] even when another entry
    is the one registered under it, and leaves that other entry as it is. *)
Theorem close_unregisters_by_name w r e r' :
  heap w !! r = Some e -> isAlive e = true ->
  connections w !! clientName e = Some r' -> r' <> r ->
  let w' := exec (close env r) w in
  connections w' !! clientName e = None /\
  heap w' !! r' = heap w !! r'.
Proof.
  intros H Ha Hr' Hne. unfold exec. rewrite (close_alive env w r e H Ha).
  simpl. split; [apply lookup_delete_eq | by rewrite list_lookup_insert_ne].
Qed.

End Registry_operations.

Section Sending_more.

Context (env : Env).

Lemma run_cons a actions w :
  run env (a :: actions) w = run env actions (perform env a w).
Proof. reflexivity. Qed.

(** X10. On a transport that accepts every write, [n] events whose log
    line can be evaluated (none is [null] or [undefined], and each action,
    or the default in its place, has a string form), sent to a live entry
    whose counter stays within [2^53], are counted [n] times, written in
    the order they were sent, one chunk each, and leave the entry alive and
    the registry as it was. *)
Theorem accepted_sends_are_counted events : forall w r e,
  heap w !! r = Some e -> isAlive e = true ->
  (forall history chunk, res_write env history (response e) chunk = Normal true) ->
  Forall (fun ev =>
            nullish ev = false /\
            convertible (js_or (property ev "action") (JStr "event")) = true)
         events ->
  (N.of_nat (eventCount e + length events) <= MAX_SAFE)%N ->
  let w' := run env (ASendEvent r <$> events) w in
  exists e', heap w' !! r = Some e' /\
    eventCount e' = eventCount e + length events /\
    isAlive e' = true /\ response e' = response e /\
    connections w' = connections w /\
    effects w' = effects w
      ++ ((fun ev => EWrite (response e) (data_message env ev)) <$> events).
Proof.
  induction events as [|ev events IH]; intros w r e H Ha Hw Hall Hmax.
  - simpl. exists e. rewrite app_nil_r. split_and!; try done; lia.
  - apply Forall_cons in Hall as [[Hn Hv] Hall].
    rewrite fmap_cons, run_cons. cbv zeta.
    pose proof (sendEvent_write_true env w r e ev H Ha (Hw _ _) Hn Hv) as Hsend.
    set (w1 := print (LogEventSent (increment (eventCount e)) (clientName e)
                        (js_or (property ev "action") (JStr "event")))
                 (set_heap (insert r (delivered (clock w) e))
                    (emit (EWrite (response e) (data_message env ev)) w)))
      in Hsend.
    assert (Hp : perform env (ASendEvent r ev) w = w1)
      by (simpl; unfold exec; by rewrite Hsend).
    rewrite Hp.
    assert (H1 : heap w1 !! r = Some (delivered (clock w) e))
      by (subst w1; simpl; by eapply lookup_insert_heap).
    assert (Hinc : eventCount (delivered (clock w) e) = eventCount e + 1).
    { simpl. apply increment_below. cbn [length] in Hmax. lia. }
    destruct (IH w1 r (delivered (clock w) e) H1 Ha Hw Hall)
      as (e' & He' & Hc & Ha' & Hr & Hconn & Heff).
    { rewrite Hinc. cbn [length] in Hmax. lia. }
    exists e'. split_and!; try done.
    + rewrite Hc, Hinc. simpl. lia.
    + rewrite Heff. subst w1. simpl. by rewrite <- app_assoc.
Qed.

(** What [sendEvent] does to the store and the effects, case by case. *)
Lemma sendEvent_cases w r event :
  exists b added,
    (heap w !! r = None \/ result (sendEvent env r event) w = Normal b) /\
    effects (exec (sendEvent env r event) w) = effects w ++ added /\
    (occurrences is_write added <= 1)%nat /\
    (forall r', r' <> r ->
       heap (exec (sendEvent env r event) w) !! r' = heap w !! r').
Proof.
  unfold exec, result. destruct (heap w !! r) as [e|] eqn:H.
  - destruct (isAlive e) eqn:Ha.
    + assert (Hocc : (occurrences is_write
                ([EWrite (response e) (data_message env event)]
                   ++ cancelled e ++ [EEnd (response e)]) <= 1)%nat)
        by (unfold cancelled; destruct (heartbeatInterval e); vm_compute; lia).
      destruct (res_write env (effects w) (response e) (data_message env event))
        as [[]|err] eqn:Hw.
      * destruct (log_fault event) as [fault|] eqn:Hf.
        -- rewrite (sendEvent_log_throws env w r e event fault H Ha Hw Hf).
           exists false, ([EWrite (response e) (data_message env event)]
                            ++ cancelled e ++ [EEnd (response e)]).
           split_and!; [by right | by simpl; rewrite <- app_assoc | done |].
           intros r' Hne. simpl. by rewrite !list_lookup_insert_ne.
        -- destruct (log_fault_None event Hf) as [Hn Hv].
           rewrite (sendEvent_write_true env w r e event H Ha Hw Hn Hv).
           exists true, [EWrite (response e) (data_message env event)].
           split_and!; [by right | done | vm_compute; lia |].
           intros r' Hne. simpl. by rewrite list_lookup_insert_ne.
      * rewrite (sendEvent_write_false env w r e event H Ha Hw).
        exists false, ([EWrite (response e) (data_message env event)]
                         ++ cancelled e ++ [EEnd (response e)]).
        split_and!; [by right | by simpl; rewrite <- app_assoc | done |].
        intros r' Hne. simpl. by rewrite list_lookup_insert_ne.
      * rewrite (sendEvent_write_throws env w r e event err H Ha Hw).
        exists false, ([EWrite (response e) (data_message env event)]
                         ++ cancelled e ++ [EEnd (response e)]).
        split_and!; [by right | by simpl; rewrite <- app_assoc | done |].
        intros r' Hne. simpl. by rewrite list_lookup_insert_ne.
    + rewrite (sendEvent_closed env w r e event H Ha).
      exists false, []. rewrite app_nil_r.
      split_and!; [by right | done | vm_compute; lia | done].
  - unfold sendEvent, bind. rewrite (getf_dangling r isAlive w H).
    exists false, []. rewrite app_nil_r.
    split_and!; [by left | done | vm_compute; lia | done].
Qed.

(** [routeToClient] on a record whose target is registered: one
    [sendEvent], then a console line. *)
Lemma routeToClient_present this event r w :
  nullish event = false ->
  lookup_key (property event "clientName") (connections w) = Some r ->
  routeToClient env this event w =
    match sendEvent env r event w with
    | (w1, Normal true) =>
        (print (LogRouted (property event "clientName") (sub_podName this)) w1,
         Normal tt)
    | (w1, Normal false) =>
        (print (LogFailedToSend (property event "clientName")) w1, Normal tt)
    | (w1, Throw err) => (w1, Throw err)
    end.
Proof.
  intros Hn Hk. unfold routeToClient, get_prop, has, get, bind.
  rewrite Hn. unfold ret at 1. js_simpl.
  rewrite Hk, bool_decide_eq_true_2 by eauto. js_simpl. rewrite ?Hk.
  unfold interpolate. rewrite (routed_convertible _ r _ Hk).
  destruct (sendEvent env r event w) as [w1 [[]|err]]; reflexivity.
Qed.

(** What [handleMessage] does: nothing but console lines, or one
    [sendEvent] on the entry registered under the target. *)
Lemma handleMessage_cases this chan msg w :
  (exists lines, handleMessage env this chan msg w = (lines, Normal tt) /\
     heap lines = heap w /\ connections lines = connections w /\
     effects lines = effects w) \/
  (exists v r w1 l1 l2,
     JSON_parse env msg = Normal v /\
     lookup_key (property v "clientName") (connections w) = Some r /\
     heap l1 = heap w /\ effects l1 = effects w /\
     w1 = exec (sendEvent env r v) l1 /\
     exec (handleMessage env this chan msg) w = l2 /\
     result (handleMessage env this chan msg) w = Normal tt /\
     heap l2 = heap w1 /\ effects l2 = effects w1).
Proof.
  destruct (JSON_parse env msg) as [v|err] eqn:Hp.
  - destruct (nullish v) eqn:Hn.
    + left. eexists. split; [by apply handleMessage_nullish | done].
    + destruct (truthy (property v "clientName")) eqn:Ht.
      * destruct (lookup_key (property v "clientName") (connections w))
          as [r|] eqn:Hk.
        -- right.
           exists v, r, (exec (sendEvent env r v) (print (LogReceived chan msg) w)),
             (print (LogReceived chan msg) w).
           unfold exec, result.
           rewrite (handleMessage_routes env this chan msg v w Hp Hn Ht).
           unfold try_catch.
           rewrite (routeToClient_present this v r
                      (print (LogReceived chan msg) w) Hn Hk).
           destruct (sendEvent env r v (print (LogReceived chan msg) w))
             as [w1 [[]|e1]]; eexists; by split_and!.
        -- left.
           rewrite (handleMessage_routes env this chan msg v w Hp Hn Ht).
           unfold try_catch.
           destruct (convertible (property v "clientName")) eqn:Hv.
           ++ rewrite (routeToClient_absent env this v
                         (print (LogReceived chan msg) w) Hn Hk Hv).
              eexists. by split_and!.
           ++ rewrite (routeToClient_absent_unprintable env this v
                         (print (LogReceived chan msg) w) Hn Hk Hv).
              eexists. by split_and!.
      * left. eexists.
        split; [by apply (handleMessage_invalid env this chan msg v) | done].
  - left. eexists. split; [by apply handleMessage_parse_error | done].
Qed.

(** X11. A bus message performs at most one transport write, whatever the
    message and the world: a delivery is attempted once and never retried. *)
Theorem one_write_per_message this chan msg w :
  exists added,
    effects (exec (handleMessage env this chan msg) w) = effects w ++ added /\
    (occurrences is_write added <= 1)%nat.
Proof.
  destruct (handleMessage_cases this chan msg w)
    as [(l & Heq & _ & _ & He)
       |(v & r & w1 & l1 & l2 & _ & _ & _ & He1 & Hw1 & Hl2 & _ & _ & He2)].
  - exists []. unfold exec. rewrite Heq, app_nil_r. cbn [fst].
    split; [done|]. vm_compute; lia.
  - destruct (sendEvent_cases l1 r v) as (b & added & _ & Heff & Hocc & _).
    exists added. rewrite Hl2, He2, Hw1, Heff, He1. by split.
Qed.

(** X12. A bus message changes no entry but the one registered under its
    target identity. *)
Theorem message_touches_only_its_target this chan msg w r' :
  (forall v, JSON_parse env msg = Normal v ->
     lookup_key (property v "clientName") (connections w) <> Some r') ->
  heap (exec (handleMessage env this chan msg) w) !! r' = heap w !! r'.
Proof.
  intros Hother.
  destruct (handleMessage_cases this chan msg w)
    as [(l & Heq & Hh & _)
       |(v & r & w1 & l1 & l2 & Hp & Hk & Hh1 & _ & Hw1 & Hl2 & _ & Hh2 & _)].
  - unfold exec. rewrite Heq. cbn [fst]. by rewrite Hh.
  - destruct (sendEvent_cases l1 r v) as (b & added & _ & _ & _ & Hframe).
    rewrite Hl2, Hh2, Hw1, Hframe, Hh1; [done|].
    intros ->. by apply (Hother v Hp).
Qed.

(** X13. Faults do not escape. [handleMessage] returns normally for every
    message in every world; on an entry that exists, [sendEvent], [close],
    the heartbeat callback and the transport listeners return normally
    whatever the transport does. *)
Theorem faults_do_not_escape :
  (forall this chan msg w,
     result (handleMessage env this chan msg) w = Normal tt) /\
  (forall w r e, heap w !! r = Some e ->
     (forall event, exists b, result (sendEvent env r event) w = Normal b) /\
     result (close env r) w = Normal tt /\
     result (heartbeat env r) w = Normal tt /\
     (forall ev err, result (on_transport_event env ev err r) w = Normal tt)).
Proof.
  split.
  - intros this chan msg w. unfold result, handleMessage, try_catch.
    match goal with |- snd (let (_, _) := ?body w in _) = _ =>
      destruct (body w) as [w1 [[]|err]] end; reflexivity.
  - intros w r e H. split_and!.
    + intros event. destruct (sendEvent_cases w r event)
        as (b & added & [Hnone|Hres] & _); [congruence | eauto].
    + by eapply close_never_throws.
    + unfold result. destruct (isAlive e) eqn:Ha.
      * rewrite (heartbeat_alive env w r e H Ha).
        by destruct (res_write env _ _ _) as [[]|err].
      * by rewrite (heartbeat_closed env w r e H Ha).
    + intros ev err. destruct (isAlive e) eqn:Ha.
      * assert (Hc : forall l, heap l = heap w ->
                  result (cleanup env r) l = Normal tt).
        { intros l Hl. unfold result.
          rewrite (cleanup_alive env l r e) by (by rewrite ?Hl). done. }
        destruct ev; simpl; try (by apply Hc);
          unfold result, bind, getf, console_log; rewrite H;
          by apply (Hc (print _ w)).
      * destruct (on_transport_event_closed env ev err w r e H Ha)
          as (lines & Hres & _). exact Hres.
Qed.

End Sending_more.

Section Listing.

Context (env : Env).

Lemma Forall2_fmap_eq {A B C} (f : A -> C) (g : B -> C) (l : list A)
  (k : list B) :
  Forall2 (fun a b => f a = g b) l k -> f <$> l = g <$> k.
Proof. induction 1 as [|a b l k Hab _ IH]; csimpl; [done|]. by rewrite Hab, IH. Qed.

Lemma Forall2_right {A B} (R : A -> B -> Prop) (P : B -> Prop) l k :
  Forall2 R l k -> (forall a b, R a b -> P b) -> Forall P k.
Proof. induction 1; intros HP; constructor; eauto. Qed.

Lemma Forall2_elem_l {A B} (R : A -> B -> Prop) l k a :
  Forall2 R l k -> a ∈ l -> exists b, b ∈ k /\ R a b.
Proof.
  induction 1 as [|a' b' l k Hab _ IH]; intros Hin.
  - by apply elem_of_nil in Hin.
  - apply elem_of_cons in Hin as [->|Hin].
    + exists b'. split; [left | done].
    + destruct (IH Hin) as (b & Hb & HR). exists b. split; [by right | done].
Qed.

Lemma Forall2_elem_r {A B} (R : A -> B -> Prop) l k b :
  Forall2 R l k -> b ∈ k -> exists a, a ∈ l /\ R a b.
Proof.
  induction 1 as [|a' b' l k Hab _ IH]; intros Hin.
  - by apply elem_of_nil in Hin.
  - apply elem_of_cons in Hin as [->|Hin].
    + exists a'. split; [left | done].
    + destruct (IH Hin) as (a & Ha & HR). exists a. split; [by right | done].
Qed.

Lemma Map_entries_perm (m : gmap string nat) :
  Map_entries m ≡ₚ map_to_list m.
Proof. apply merge_sort_Permutation. Qed.

Lemma elem_of_Map_entries (m : gmap string nat) name r :
  (name, r) ∈ Map_entries m <-> m !! name = Some r.
Proof. rewrite Map_entries_perm. apply elem_of_map_to_list. Qed.

(** The loop of [getAll] over entries that exist: it reads, and appends
    one [getStats] per binding, in order. *)
Lemma getAll_loop_reads (Q : string * nat -> ConnectionEntry -> Prop) entries :
  forall acc w,
  Forall (fun kr => exists e, heap w !! snd kr = Some e /\ Q kr e) entries ->
  exists ss,
    getAll_loop env entries acc w = (w, Normal (acc ++ ss)) /\
    Forall2 (fun kr s => exists e, heap w !! snd kr = Some e /\ Q kr e /\
                                   s = stats_at env (clock w) e) entries ss.
Proof.
  induction entries as [|[k r] entries IH]; intros acc w Hall;
    cbn [getAll_loop].
  - exists []. rewrite app_nil_r. by split.
  - apply Forall_cons in Hall as [(e & He & HQ) Hall]. cbn [snd] in He.
    assert (Hs : getStats env r w = (w, Normal (stats_at env (clock w) e))).
    { unfold getStats, bind, getf, new_Date, ret. by rewrite He. }
    destruct (IH (acc ++ [stats_at env (clock w) e]) w Hall) as (ss & Heq & HF).
    exists (stats_at env (clock w) e :: ss). split.
    + unfold bind at 1. rewrite Hs, Heq. by rewrite <- app_assoc.
    + constructor; [|done]. by exists e.
Qed.

(** [getAll] in a world where registry and liveness agree. *)
Lemma getAll_in_registry w :
  registry_inv w ->
  exists l,
    getAll env w = (w, Normal l) /\
    length l = size (connections w) /\
    stats_clientName <$> l = fst <$> Map_entries (connections w) /\
    NoDup (stats_clientName <$> l) /\
    Forall (fun s => stats_isAlive s = true) l /\
    (forall name r e, connections w !! name = Some r -> heap w !! r = Some e ->
       stats_at env (clock w) e ∈ l) /\
    (forall s, s ∈ l ->
       exists name r e, connections w !! name = Some r /\
         heap w !! r = Some e /\ s = stats_at env (clock w) e).
Proof.
  intros [H1 H2].
  set (Q := fun (kr : string * nat) (e : ConnectionEntry) =>
              connections w !! fst kr = Some (snd kr) /\
              clientName e = fst kr /\ isAlive e = true).
  assert (Hall : Forall (fun kr => exists e, heap w !! snd kr = Some e /\ Q kr e)
                   (Map_entries (connections w))).
  { apply Forall_forall. intros [k r] Hin.
    apply elem_of_Map_entries in Hin.
    destruct (H1 k r Hin) as (e & He & Hn & Ha). exists e. by split. }
  destruct (getAll_loop_reads Q _ [] w Hall) as (l & Heq & HF).
  exists l. split; [exact Heq|].
  assert (Hnames : stats_clientName <$> l = fst <$> Map_entries (connections w)).
  { symmetry. apply Forall2_fmap_eq.
    eapply Forall2_impl; [exact HF|].
    intros kr s (e & _ & (_ & Hn & _) & ->). by rewrite <- Hn. }
  split_and!.
  - rewrite <- (Forall2_length _ _ _ HF), Map_entries_perm.
    apply length_map_to_list.
  - exact Hnames.
  - rewrite Hnames, Map_entries_perm. apply NoDup_fst_map_to_list.
  - eapply Forall2_right; [exact HF|].
    intros kr s (e & _ & (_ & _ & Ha) & ->). exact Ha.
  - intros name r e Hr He.
    destruct (Forall2_elem_l _ _ _ (name, r) HF) as (s & Hs & e' & He' & _ & ->).
    + by apply elem_of_Map_entries.
    + simpl in He'. by assert (e' = e) as -> by congruence.
  - intros s Hs.
    destruct (Forall2_elem_r _ _ _ s HF Hs) as ([k r] & _ & e & He & (Hr & _) & ->).
    by exists k, r, e.
Qed.

(** X14. [getAll] in a world where registry and liveness agree: it reads
    only, and returns one [getStats] record per registered entry, as many
    as [count], in the order of registration; the names are pairwise
    distinct and every record reports a live entry. *)
Theorem getAll_lists_registered w :
  registry_inv w ->
  exists l,
    getAll env w = (w, Normal l) /\
    length l = size (connections w) /\
    stats_clientName <$> l = fst <$> Map_entries (connections w) /\
    NoDup (stats_clientName <$> l) /\
    Forall (fun s => stats_isAlive s = true) l /\
    (forall name r e, connections w !! name = Some r -> heap w !! r = Some e ->
       stats_at env (clock w) e ∈ l) /\
    (forall s, s ∈ l ->
       exists name r e, connections w !! name = Some r /\
         heap w !! r = Some e /\ s = stats_at env (clock w) e).
Proof. apply getAll_in_registry. Qed.

End Listing.
(** ** The process: proof steps *)

Ltac app_simpl :=
  cbn [world redisSubscriber this_subscriber listeners next_client awaiting
       server serverStartTime exited outputs
       with_world with_redisSubscriber with_subscriber with_listeners
       with_next_client with_awaiting with_server with_exited output
       fst snd].

Lemma server_ext (a b : Server) :
  world a = world b -> redisSubscriber a = redisSubscriber b ->
  this_subscriber a = this_subscriber b -> listeners a = listeners b ->
  next_client a = next_client b -> awaiting a = awaiting b ->
  server a = server b -> serverStartTime a = serverStartTime b ->
  exited a = exited b -> outputs a = outputs b -> a = b.
Proof. destruct a, b; simpl; congruence. Qed.

Lemma with_world_id s : with_world (world s) s = s.
Proof. by destruct s. Qed.

Lemma with_world_twice w1 w2 s :
  with_world w2 (with_world w1 s) = with_world w2 s.
Proof. done. Qed.

(** A computation of the world that only reads leaves the process as
    it is. *)
Lemma lift_read {A} (c : M A) s :
  fst (c (world s)) = world s -> lift c s = (s, snd (c (world s))).
Proof. intros H. unfold lift. by rewrite H, with_world_id. Qed.

Lemma lift_run {A} (c : M A) s w r :
  c (world s) = (w, r) -> lift c s = (with_world w s, r).
Proof. intros H. unfold lift. by rewrite H. Qed.

Ltac app_run :=
  repeat (progress (cbn [fst snd negb]; rewrite ?with_world_id)).

Section Composition.

Context (I : World -> Prop).

Lemma keeps_done {A} (a : A) : keeps I (done_ a).
Proof. by intros s. Qed.

Lemma keeps_raise {A} err : keeps I (@raise A err).
Proof. by intros s. Qed.

Lemma keeps_and_then {A B} (c : P A) (k : A -> P B) :
  keeps I c -> (forall a, keeps I (k a)) -> keeps I (and_then c k).
Proof.
  intros Hc Hk s Hs. unfold and_then. specialize (Hc s Hs).
  destruct (c s) as [s1 [a|err]]; [by apply Hk | done].
Qed.

Lemma keeps_guarded {A} (c : P A) (h : JSError -> P A) :
  keeps I c -> (forall err, keeps I (h err)) -> keeps I (guarded c h).
Proof.
  intros Hc Hh s Hs. unfold guarded. specialize (Hc s Hs).
  destruct (c s) as [s1 [a|err]]; [done | by apply Hh].
Qed.

Lemma keeps_lift {A} (c : M A) :
  (forall w, I w -> I (fst (c w))) -> keeps I (lift c).
Proof. intros Hc s Hs. by apply Hc. Qed.

Lemma keeps_world {A} (c : P A) :
  (forall s, world (fst (c s)) = world s) -> keeps I c.
Proof. intros Hc s Hs. by rewrite Hc. Qed.

Lemma keeps_out o : keeps I (out o).
Proof. by apply keeps_world. Qed.

Lemma keeps_app_log l : keeps I (app_log l).
Proof. by apply keeps_world. Qed.

Lemma keeps_gets {A} (f : Server -> A) : keeps I (gets f).
Proof. by apply keeps_world. Qed.

Lemma keeps_assign f : keeps I (assign f).
Proof. by apply keeps_world. Qed.

Lemma keeps_process_exit code : keeps I (process_exit code).
Proof. by apply keeps_world. Qed.

Lemma keeps_suspend a : keeps I (suspend a).
Proof. by apply keeps_world. Qed.

End Composition.

Ltac keeps_step :=
  lazymatch goal with
  | |- keeps _ (done_ _) => apply keeps_done
  | |- keeps _ (raise _) => apply keeps_raise
  | |- keeps _ (out _) => apply keeps_out
  | |- keeps _ (app_log _) => apply keeps_app_log
  | |- keeps _ (gets _) => apply keeps_gets
  | |- keeps _ (assign _) => apply keeps_assign
  | |- keeps _ (process_exit _) => apply keeps_process_exit
  | |- keeps _ (suspend _) => apply keeps_suspend
  | |- keeps _ (and_then _ _) => apply keeps_and_then; [|intros ?]
  | |- keeps _ (guarded _ _) => apply keeps_guarded; [|intros ?]
  | |- keeps _ (fun _ => _) => apply keeps_world; intros ?; reflexivity
  | |- keeps _ (lift _) => apply keeps_world; intros ?; reflexivity
  | |- keeps _ (match ?x with _ => _ end) => destruct x
  end.

Ltac keeps_all := repeat keeps_step.

(** ** closeAll *)

Section CloseAll.

Context (env : Env).

Lemma same_process_refl s : same_process s s.
Proof. by repeat split. Qed.

Lemma same_process_trans s1 s2 s3 :
  same_process s1 s2 -> same_process s2 s3 -> same_process s1 s3.
Proof.
  unfold same_process. intros (?&?&?&?&?&?&?&?) (?&?&?&?&?&?&?&?).
  split_and!; congruence.
Qed.

Lemma closeAll_loop_cons name r rest s :
  closeAll_loop env ((name, r) :: rest) s =
    if bool_decide (connections (world s) !! name = Some r) then
      match close env r (world s) with
      | (w', Normal _) => closeAll_loop env rest (with_world w' s)
      | (w', Throw err) =>
          closeAll_loop env rest
            (output (OLog (LogErrorClosing (message err))) (with_world w' s))
      end
    else closeAll_loop env rest s.
Proof.
  cbn [closeAll_loop]. unfold and_then at 1. rewrite lift_read by done.
  cbn [snd]. case_bool_decide.
  - unfold and_then, guarded, lift, app_log, out.
    destruct (close env r (world s)) as [w' [[]|err]]; reflexivity.
  - reflexivity.
Qed.

(** The loop returns normally and touches the world and the outputs only,
    whatever the state. *)
Lemma closeAll_loop_returns l : forall s,
  snd (closeAll_loop env l s) = Normal tt /\
  same_process s (fst (closeAll_loop env l s)) /\
  steps env (world s) (world (fst (closeAll_loop env l s))).
Proof.
  induction l as [|[name r] rest IH]; intros s.
  - split_and!; [done | apply same_process_refl | apply steps_refl].
  - rewrite closeAll_loop_cons. case_bool_decide; [|apply IH].
    pose proof (steps_close env r (world s)) as Hst. unfold exec in Hst.
    destruct (close env r (world s)) as [w' [[]|err]]; cbn [fst] in Hst.
    + destruct (IH (with_world w' s)) as (Hr & Hp & Hs).
      split_and!; [done | done |]. eapply steps_trans; [exact Hst | exact Hs].
    + destruct (IH (output (OLog (LogErrorClosing (message err)))
                          (with_world w' s))) as (Hr & Hp & Hs).
      split_and!; [done | done |]. eapply steps_trans; [exact Hst | exact Hs].
Qed.

Lemma steps_clear w : steps env w (set_connections (fun _ => ∅) w).
Proof.
  remember (connections w) as m eqn:Hm. revert w Hm.
  induction m as [|name r m Hnone IH] using map_ind; intros w Hm.
  - replace (set_connections (fun _ => ∅) w) with w; [apply steps_refl|].
    apply world_ext; try done; simpl; by rewrite <- Hm.
  - eapply steps_trans; [apply rtc_once, (prim_unregister env w name)|].
    replace (set_connections (fun _ => ∅) w)
      with (set_connections (fun _ => ∅) (set_connections (delete name) w))
      by done.
    apply IH. simpl. rewrite <- Hm. by rewrite delete_insert_id.
Qed.

Lemma closing_effects_ext hp1 hp2 l :
  (forall kr, kr ∈ l -> hp1 !! snd kr = hp2 !! snd kr) ->
  closing_effects hp1 l = closing_effects hp2 l.
Proof.
  induction l as [|kr l IH]; intros H; [done|].
  unfold closing_effects. cbn [flat_map].
  rewrite (H kr) by left. f_equal. apply IH. intros kr' Hin. apply H. by right.
Qed.

Lemma closed_closed e : closed (closed e) = closed e.
Proof. done. Qed.

(** The loop over bindings of a registry that agrees with liveness: every
    entry behind them is closed. *)
Lemma closeAll_loop_closes l : forall s,
  registry_inv (world s) -> NoDup l.*1 ->
  (forall name r, (name, r) ∈ l -> connections (world s) !! name = Some r) ->
  exists w',
    closeAll_loop env l s = (with_world w' s, Normal tt) /\
    registry_inv w' /\
    (forall name, connections w' !! name =
       if bool_decide (name ∈ l.*1) then None
       else connections (world s) !! name) /\
    length (heap w') = length (heap (world s)) /\
    (forall r e, heap (world s) !! r = Some e ->
       heap w' !! r = Some (if bool_decide (r ∈ l.*2) then closed e else e)) /\
    effects w' = effects (world s) ++ closing_effects (heap (world s)) l /\
    clock w' = clock (world s).
Proof.
  induction l as [|[name r] rest IH]; intros s Hinv Hnd Hin.
  - exists (world s). rewrite with_world_id.
    split_and!; try done. simpl. by rewrite app_nil_r.
  - rewrite closeAll_loop_cons.
    pose proof (Hin name r ltac:(left)) as Hr.
    rewrite bool_decide_eq_true_2 by done.
    destruct Hinv as [H1 H2].
    destruct (H1 name r Hr) as (e & He & Hn & Ha).
    rewrite (close_alive env (world s) r e He Ha).
    rewrite fmap_cons in Hnd. apply NoDup_cons in Hnd as [Hfresh Hnd].
    cbn [fst] in Hfresh.
    assert (Hother : forall name' r', (name', r') ∈ rest ->
              name' <> name /\ r' <> r /\
              connections (world s) !! name' = Some r').
    { intros name' r' Hin'.
      pose proof (Hin name' r' ltac:(by right)) as Hr'.
      assert (name' <> name).
      { intros ->. apply Hfresh.
        apply list_elem_of_fmap. by exists (name, r'). }
      split_and!; try done. intros ->.
      destruct (H1 name' r Hr') as (e' & He' & Hn' & _). congruence. }
    destruct (IH (with_world (after_close env (world s) r e) s))
      as (w' & Heq & Hinv' & Hc & Hlen & Hh & Heff & Hclock).
    { by apply inv_after_close. }
    { done. }
    { intros name' r' Hin'. destruct (Hother name' r' Hin') as (? & ? & ?).
      simpl. rewrite Hn. by rewrite lookup_delete_ne. }
    exists w'. cbn [world with_world] in *.
    split_and!.
    + by rewrite Heq.
    + done.
    + intros name0. rewrite Hc. cbn [after_close connections].
      rewrite Hn, fmap_cons. cbn [fst].
      destruct (decide (name0 = name)) as [->|Hne].
      * rewrite lookup_delete_eq.
        rewrite (bool_decide_eq_true_2 (name ∈ name :: rest.*1)) by left.
        by case_bool_decide.
      * rewrite lookup_delete_ne by done.
        repeat case_bool_decide; try done.
        -- exfalso. match goal with H : ¬ _ |- _ => apply H end. by right.
        -- exfalso. match goal with H : _ ∈ _ :: _ |- _ =>
                      apply elem_of_cons in H as [?|?] end; done.
    + rewrite Hlen. simpl. apply length_insert.
    + intros r0 e0 He0. rewrite fmap_cons. cbn [snd].
      destruct (decide (r0 = r)) as [->|Hne].
      * assert (e0 = e) as -> by congruence.
        rewrite (Hh r (closed e)) by (simpl; by eapply lookup_insert_heap).
        rewrite (bool_decide_eq_true_2 (r ∈ r :: rest.*2)) by left.
        by case_bool_decide.
      * rewrite (Hh r0 e0) by (simpl; by rewrite list_lookup_insert_ne).
        repeat case_bool_decide; try done.
        -- exfalso. match goal with H : ¬ _ |- _ => apply H end. by right.
        -- exfalso. match goal with H : _ ∈ _ :: _ |- _ =>
                      apply elem_of_cons in H as [?|?] end; done.
    + rewrite Heff. simpl. rewrite <- !app_assoc. f_equal.
      unfold closing_effects at 2. cbn [flat_map snd]. rewrite He.
      rewrite <- !app_assoc. do 2 f_equal.
      apply closing_effects_ext. intros [name' r'] Hin'.
      destruct (Hother name' r' Hin') as (? & ? & ?).
      simpl. by rewrite list_lookup_insert_ne.
    + by rewrite Hclock.
Qed.

End CloseAll.

Section CloseAll_properties.

Context (env : Env).

Lemma closeAll_unfold s :
  closeAll env s =
    match closeAll_loop env (Map_entries (connections (world s)))
            (output (OLog (LogClosingAll (size (connections (world s))))) s)
    with
    | (s1, Normal _) =>
        (with_world (set_connections (fun _ => ∅) (world s1)) s1, Normal tt)
    | (s1, Throw err) => (s1, Throw err)
    end.
Proof.
  unfold closeAll, and_then, lift, app_log, out, count. cbn [fst snd].
  rewrite !with_world_id.
  destruct (closeAll_loop env _ _) as [s1 [[]|err]]; reflexivity.
Qed.

Lemma shut_dead e : isAlive (shut e) = false.
Proof. unfold shut. by destruct (isAlive e) eqn:Ha. Qed.

Lemma NoDup_Map_entries (m : gmap string nat) : NoDup (Map_entries m).*1.
Proof. rewrite Map_entries_perm. apply NoDup_fst_map_to_list. Qed.

(** X15. [closeAll] never throws and leaves the registry empty, in every
    state; it changes nothing of the process but the registry's world and
    the outputs, and the entries keep their identity. *)
Theorem closeAll_never_throws s :
  let s' := fst (closeAll env s) in
  snd (closeAll env s) = Normal tt /\
  connections (world s') = ∅ /\
  result count (world s') = Normal 0 /\
  same_process s s' /\
  heap_evolves (world s) (world s').
Proof.
  intros s'. subst s'. rewrite closeAll_unfold.
  set (s0 := output (OLog (LogClosingAll (size (connections (world s))))) s).
  destruct (closeAll_loop_returns env (Map_entries (connections (world s))) s0)
    as (Hr & Hp & Hs).
  destruct (closeAll_loop env _ s0) as [s1 [[]|err]]; [|done].
  cbn [fst snd] in *. split_and!.
  - done.
  - done.
  - unfold result, count. cbn [snd with_world world set_connections connections].
    by rewrite map_size_empty.
  - unfold same_process in *. destruct Hp as (?&?&?&?&?&?&?&?).
    by split_and!.
  - intros r e He. by apply (steps_evolves env _ _ Hs r e).
Qed.

(** [closeAll] in a state where registry and liveness agree. *)
Lemma closeAll_closes s :
  registry_inv (world s) -> timers_inv (world s) ->
  let s' := fst (closeAll env s) in
  snd (closeAll env s) = Normal tt /\
  connections (world s') = ∅ /\
  intervals (world s') = ∅ /\
  length (heap (world s')) = length (heap (world s)) /\
  (forall r e, heap (world s) !! r = Some e ->
     heap (world s') !! r = Some (shut e)) /\
  (forall r e', heap (world s') !! r = Some e' -> isAlive e' = false) /\
  effects (world s') =
    effects (world s)
      ++ closing_effects (heap (world s)) (Map_entries (connections (world s))) /\
  outputs s' =
    outputs s ++ [(length (console (world s)), length (effects (world s)),
                   OLog (LogClosingAll (size (connections (world s)))))].
Proof.
  intros Hinv Htim s'. subst s'.
  pose proof (closeAll_loop_returns env (Map_entries (connections (world s)))
    (output (OLog (LogClosingAll (size (connections (world s))))) s))
    as (_ & _ & Hsteps).
  rewrite closeAll_unfold.
  set (s0 := output (OLog (LogClosingAll (size (connections (world s))))) s)
    in *.
  destruct (closeAll_loop_closes env (Map_entries (connections (world s))) s0)
    as (w' & Heq & Hinv' & Hc & Hlen & Hh & Heff & Hclock).
  { done. }
  { apply NoDup_Map_entries. }
  { intros name r Hin. by apply elem_of_Map_entries. }
  rewrite Heq in *. cbn [fst snd world with_world] in *.
  change (world s0) with (world s) in *.
  assert (Hshut : forall r e, heap (world s) !! r = Some e ->
            heap w' !! r = Some (shut e)).
  { intros r e He. rewrite (Hh r e He). unfold shut.
    destruct Hinv as [H1 H2]. case_bool_decide as Hin.
    - apply list_elem_of_fmap in Hin as ([name r'] & -> & Hin).
      apply elem_of_Map_entries in Hin.
      destruct (H1 name r' Hin) as (e' & He' & _ & Ha'). cbn [snd] in He.
      assert (e' = e) as -> by congruence. by rewrite Ha'.
    - destruct (isAlive e) eqn:Ha; [|done]. exfalso. apply Hin.
      apply list_elem_of_fmap. exists (clientName e, r). split; [done|].
      apply elem_of_Map_entries. by apply H2. }
  assert (Hdead : forall r e', heap w' !! r = Some e' -> isAlive e' = false).
  { intros r e' He'.
    destruct (lookup_lt_is_Some_2 (heap (world s)) r) as [e He].
    { rewrite <- Hlen. by eapply lookup_lt_Some. }
    rewrite (Hshut r e He) in He'. injection He' as <-. apply shut_dead. }
  split_and!; try done.
  - apply map_empty. intros t.
    destruct (intervals w' !! t) as [r|] eqn:Ht; [|done]. exfalso.
    destruct (steps_timers env _ _ Htim Hsteps) as (T1 & _ & _).
    destruct (T1 t r Ht) as (e' & He' & Ha' & _).
    by rewrite (Hdead r e' He') in Ha'.
Qed.

(** X16. [closeAll] in a state where registry and liveness agree and the
    timers follow liveness: every entry is closed, no interval stays
    scheduled, and the transports of the registered entries are ended once
    each, in the order of registration, with no write. *)
Theorem closeAll_closes_everything s :
  registry_inv (world s) -> timers_inv (world s) ->
  let s' := fst (closeAll env s) in
  snd (closeAll env s) = Normal tt /\
  connections (world s') = ∅ /\
  intervals (world s') = ∅ /\
  length (heap (world s')) = length (heap (world s)) /\
  (forall r e, heap (world s) !! r = Some e ->
     heap (world s') !! r = Some (shut e)) /\
  (forall r e', heap (world s') !! r = Some e' -> isAlive e' = false) /\
  effects (world s') =
    effects (world s)
      ++ closing_effects (heap (world s)) (Map_entries (connections (world s))) /\
  outputs s' =
    outputs s ++ [(length (console (world s)), length (effects (world s)),
                   OLog (LogClosingAll (size (connections (world s)))))].
Proof. apply closeAll_closes. Qed.


End CloseAll_properties.

(** ** What a turn of the event loop keeps *)

Section Turn_keeps.

Context (env : Env) (st : Settings).

Lemma getAll_loop_world entries : forall acc w,
  fst (getAll_loop env entries acc w) = w.
Proof.
  induction entries as [|[k r] entries IH]; intros acc w; [done|].
  cbn [getAll_loop]. unfold bind.
  pose proof (getStats_pure env w r) as Hp. unfold exec in Hp.
  destruct (getStats env r w) as [w1 [x|err]]; cbn [fst] in Hp; subst w1.
  - apply IH.
  - done.
Qed.

Lemma getAll_world w : fst (getAll env w) = w.
Proof. apply getAll_loop_world. Qed.

Context (I : World -> Prop).
Context (I_perform : forall a w, I w -> I (perform env a w)).
Context (I_frame : forall w w',
  heap w' = heap w -> connections w' = connections w ->
  intervals w' = intervals w -> next_timer w' = next_timer w -> I w -> I w').
Context (I_closeAll : keeps I (closeAll env)).

Lemma keeps_read {A} (c : M A) :
  (forall w, fst (c w) = w) -> keeps I (lift c).
Proof. intros Hc. apply keeps_lift. intros w Hw. by rewrite Hc. Qed.

Lemma keeps_response_write res chunk :
  keeps I (lift (response_write env res chunk)).
Proof. apply keeps_lift. intros w. by apply I_frame. Qed.

Lemma keeps_register name res p : keeps I (lift (register env name res p)).
Proof. apply keeps_lift. intros w. apply (I_perform (ARegister name res p)). Qed.

Lemma keeps_timestamp : keeps I (timestamp env).
Proof. unfold timestamp. keeps_all. Qed.

Lemma keeps_to_string v : keeps I (to_string st v).
Proof. by apply keeps_world. Qed.

Lemma keeps_getStatus : keeps I getStatus.
Proof. unfold getStatus. keeps_all. Qed.

Lemma keeps_get_prop v key : keeps I (lift (get_prop v key)).
Proof. apply keeps_read. intros w. unfold get_prop. by destruct (nullish v). Qed.

Lemma keeps_getAll : keeps I (lift (getAll env)).
Proof. apply keeps_read. apply getAll_world. Qed.

Lemma keeps_getStats r : keeps I (lift (getStats env r)).
Proof. apply keeps_read. intros w. apply (getStats_pure env). Qed.

Lemma keeps_handle req res : keeps I (handle env st req res).
Proof.
  unfold handle, error_handler, respond. keeps_all.
  destruct req as [body|name| | |name|path]; cbn [route];
    unfold post_register, get_events, get_health, get_admin_connections,
      get_admin_client, not_found, respond;
    keeps_all;
    first [ apply keeps_to_string | apply keeps_timestamp
          | apply keeps_get_prop | apply keeps_response_write
          | apply keeps_register | apply keeps_getStatus
          | apply keeps_getAll | apply keeps_getStats ].
Qed.

Lemma keeps_listener ev : keeps I (listener env ev).
Proof.
  destruct ev; cbn [listener];
    unfold on_connect, on_ready, on_error, on_close, on_reconnecting,
      on_message; keeps_all.
  apply keeps_lift. intros w. apply (I_perform (ABusMessage _ chan msg)).
Qed.

Lemma keeps_emit_to installed c ev : keeps I (emit_to env installed c ev).
Proof.
  induction installed as [|[c' name] rest IH]; cbn [emit_to]; keeps_all;
    first [apply keeps_listener | exact IH].
Qed.

Lemma keeps_subscriber_on name : keeps I (subscriber_on name).
Proof. unfold subscriber_on. keeps_all. Qed.

Lemma keeps_connect_begin : keeps I connect_begin.
Proof.
  unfold connect_begin, connect_catch, new_Redis.
  keeps_all; apply keeps_subscriber_on.
Qed.

Lemma keeps_start_end : keeps I (start_end st).
Proof. unfold start_end. keeps_all. Qed.

Lemma keeps_start : keeps I (start st).
Proof.
  unfold start, start_catch. keeps_all;
    first [apply keeps_connect_begin | apply keeps_start_end].
Qed.

Lemma keeps_start_resume outcome : keeps I (start_resume st outcome).
Proof.
  unfold start_resume, start_catch, connect_resume, connect_catch.
  keeps_all; first [apply keeps_subscriber_on | apply keeps_start_end].
Qed.

Lemma keeps_gracefulShutdown_end : keeps I gracefulShutdown_end.
Proof. unfold gracefulShutdown_end. keeps_all. Qed.

Lemma keeps_gracefulShutdown name : keeps I (gracefulShutdown env name).
Proof.
  unfold gracefulShutdown, disconnect_begin. keeps_all;
    first [apply I_closeAll | apply keeps_gracefulShutdown_end].
Qed.

Lemma keeps_gracefulShutdown_resume outcome :
  keeps I (gracefulShutdown_resume outcome).
Proof.
  unfold gracefulShutdown_resume, disconnect_resume. keeps_all;
    apply keeps_gracefulShutdown_end.
Qed.

Lemma keeps_retryStrategy this times :
  keeps I (lift (retryStrategy this times)).
Proof.
  apply keeps_lift. intros w. unfold retryStrategy.
  destruct (_ <? _)%Z; by apply I_frame.
Qed.

Lemma keeps_react input : keeps I (react env st input).
Proof.
  destruct input; cbn [react]; unfold reconnectOnError, on_listening,
    on_server_closed; keeps_all;
    first [ apply keeps_handle | apply keeps_emit_to
          | apply keeps_retryStrategy | apply keeps_start_resume
          | apply keeps_gracefulShutdown_resume | apply keeps_gracefulShutdown
          | idtac ].
  - apply keeps_lift. intros w. apply (I_perform (ATransportEvent ev err r)).
  - apply keeps_lift. intros w. apply (I_perform (AIntervalFires t)).
  - apply keeps_lift. intros w. apply (I_perform (AClockAdvances now)).
Qed.

Lemma keeps_turn input s : I (world s) -> I (world (turn env st input s)).
Proof.
  intros Hs. unfold turn. destruct (exited s); [done|].
  pose proof (keeps_react input s Hs) as Hk.
  by destruct (react env st input s) as [s1 [[]|err]].
Qed.

Lemma keeps_booted t0 : I (initial_world t0) -> I (world (booted env st t0)).
Proof.
  intros H0. unfold booted.
  pose proof (keeps_start (loaded env st t0) H0) as Hk.
  by destruct (start st (loaded env st t0)) as [s1 [[]|err]].
Qed.

End Turn_keeps.

(** ** The states of the process *)

Section Serving.

Context (env : Env) (st : Settings).

Lemma inv_closeAll : keeps registry_inv (closeAll env).
Proof.
  intros s Hinv. rewrite closeAll_unfold.
  set (s0 := output (OLog (LogClosingAll (size (connections (world s))))) s).
  destruct (closeAll_loop_closes env (Map_entries (connections (world s))) s0)
    as (w' & Heq & Hinv' & Hc & _).
  { done. }
  { apply NoDup_Map_entries. }
  { intros name r Hin. by apply elem_of_Map_entries. }
  rewrite Heq. cbn [fst world with_world].
  assert (Hempty : connections w' = ∅).
  { apply map_empty. intros name. rewrite Hc. case_bool_decide as Hin; [done|].
    change (world s0) with (world s).
    destruct (connections (world s) !! name) as [r|] eqn:Hr; [|done].
    exfalso. apply Hin. apply list_elem_of_fmap. exists (name, r).
    split; [done|]. by apply elem_of_Map_entries. }
  eapply inv_frame; [| |exact Hinv']; [done|]. simpl. by rewrite Hempty.
Qed.

Lemma steps_closeAll w0 : keeps (steps env w0) (closeAll env).
Proof.
  intros s Hs. rewrite closeAll_unfold.
  set (s0 := output (OLog (LogClosingAll (size (connections (world s))))) s).
  destruct (closeAll_loop_returns env (Map_entries (connections (world s))) s0)
    as (Hr & _ & Hst).
  destruct (closeAll_loop env _ s0) as [s1 [[]|err]]; [|done].
  cbn [fst snd world with_world] in *.
  eapply steps_trans; [exact Hs|]. eapply steps_trans; [exact Hst|].
  apply steps_clear.
Qed.

Lemma turn_registry_inv input s :
  registry_inv (world s) -> registry_inv (world (turn env st input s)).
Proof.
  apply keeps_turn.
  - apply inv_perform.
  - intros w w' Hh Hc _ _. by apply inv_frame.
  - apply inv_closeAll.
Qed.

Lemma turn_steps w0 input s :
  steps env w0 (world s) -> steps env w0 (world (turn env st input s)).
Proof.
  apply keeps_turn.
  - intros a w Hw. eapply steps_trans; [exact Hw | apply steps_perform].
  - intros w w' Hh Hc Hi Hn Hw.
    eapply steps_trans; [exact Hw | by apply steps_frame].
  - apply steps_closeAll.
Qed.

Lemma turns_steps inputs : forall s,
  steps env (world s) (world (turns env st inputs s)).
Proof.
  induction inputs as [|i inputs IH]; intros s; [apply steps_refl|].
  cbn [turns foldl]. eapply steps_trans; [|apply IH].
  apply turn_steps, steps_refl.
Qed.

Lemma serving_registry_inv s : serving env st s -> registry_inv (world s).
Proof.
  induction 1 as [t0|s input _ IH].
  - apply (keeps_booted env st registry_inv). apply inv_initial.
  - by apply turn_registry_inv.
Qed.

Lemma serving_steps s :
  serving env st s -> exists t0, steps env (initial_world t0) (world s).
Proof.
  induction 1 as [t0|s input _ [t0 IH]]; exists t0.
  - apply (keeps_booted env st (steps env (initial_world t0))). apply steps_refl.
  - by apply turn_steps.
Qed.

Lemma serving_timers_inv s : serving env st s -> timers_inv (world s).
Proof.
  intros Hs. destruct (serving_steps s Hs) as [t0 Hst].
  eapply steps_timers; [apply timers_inv_initial | exact Hst].
Qed.

(** X17. In every state the process can be in, whatever requests, bus
    events, timers, transport events, settled promises and signals came in,
    the registry and the liveness flags agree and the scheduled intervals
    are exactly the heartbeat timers of the live entries. *)
Theorem process_keeps_registry_and_timers s :
  serving env st s ->
  registry_inv (world s) /\ timers_inv (world s) /\
  (forall r1 r2 e1 e2,
     heap (world s) !! r1 = Some e1 -> heap (world s) !! r2 = Some e2 ->
     isAlive e1 = true -> isAlive e2 = true ->
     clientName e1 = clientName e2 -> r1 = r2).
Proof.
  intros Hs. pose proof (serving_registry_inv s Hs) as Hinv.
  split_and!; [done | by apply serving_timers_inv |].
  intros r1 r2 e1 e2. by apply inv_unique.
Qed.

(** X18. Along any turns of the event loop, shutdown included, an entry
    stays in the heap with its identity, its [eventCount] never decreases,
    and once it is closed it is never alive again. *)
Theorem entries_outlive_turns inputs s r e :
  heap (world s) !! r = Some e ->
  exists e', heap (world (turns env st inputs s)) !! r = Some e' /\
    clientName e' = clientName e /\ response e' = response e /\
    podName e' = podName e /\ connectedAt e' = connectedAt e /\
    (eventCount e <= eventCount e')%nat /\
    (isAlive e = false -> isAlive e' = false /\ eventCount e' = eventCount e).
Proof.
  intros H. exact (steps_evolves env _ _ (turns_steps inputs s) r e H).
Qed.

End Serving.

(** ** What returns normally *)

Section Returning.

Lemma returns_done {A} (a : A) : returns (done_ a).
Proof. intros s. by exists a. Qed.

Lemma returns_and_then {A B} (c : P A) (k : A -> P B) :
  returns c -> (forall a, returns (k a)) -> returns (and_then c k).
Proof.
  intros Hc Hk s. unfold and_then. destruct (Hc s) as [a Ha].
  destruct (c s) as [s1 [a'|err]]; [apply Hk | done].
Qed.

(** A [try] whose handler returns normally returns normally. *)
Lemma returns_guarded {A} (c : P A) (h : JSError -> P A) :
  (forall err, returns (h err)) -> returns (guarded c h).
Proof.
  intros Hh s. unfold guarded.
  destruct (c s) as [s1 [a|err]]; [by exists a | apply Hh].
Qed.

Lemma returns_lift {A} (c : M A) :
  (forall w, exists a, snd (c w) = Normal a) -> returns (lift c).
Proof. intros Hc s. apply Hc. Qed.

Lemma returns_now {A} (c : P A) :
  (forall s, exists a, snd (c s) = Normal a) -> returns c.
Proof. done. Qed.

End Returning.

Ltac returns_step :=
  lazymatch goal with
  | |- returns (done_ _) => apply returns_done
  | |- returns (and_then _ _) => apply returns_and_then; [|intros ?]
  | |- returns (guarded _ _) => apply returns_guarded; intros ?
  | |- returns (match ?x with _ => _ end) => destruct x
  | |- returns _ => apply returns_now; intros ?; eexists; reflexivity
  end.

Ltac returns_all := repeat returns_step.

Section Faults.

Context (env : Env) (st : Settings).

Lemma handleMessage_returns this chan msg w :
  snd (handleMessage env this chan msg w) = Normal tt.
Proof.
  unfold handleMessage, try_catch.
  match goal with |- snd (let (_, _) := ?body w in _) = _ =>
    destruct (body w) as [w1 [[]|err]] end; reflexivity.
Qed.

Lemma heartbeat_returns w r e :
  heap w !! r = Some e -> snd (heartbeat env r w) = Normal tt.
Proof.
  intros H. destruct (isAlive e) eqn:Ha.
  - rewrite (heartbeat_alive env w r e H Ha).
    by destruct (res_write env _ _ _) as [[]|err].
  - by rewrite (heartbeat_closed env w r e H Ha).
Qed.

Lemma on_transport_event_returns ev err w r e :
  heap w !! r = Some e -> snd (on_transport_event env ev err r w) = Normal tt.
Proof.
  intros H. destruct (isAlive e) eqn:Ha.
  - assert (Hc : forall l, heap l = heap w ->
              snd (cleanup env r l) = Normal tt).
    { intros l Hl.
      rewrite (cleanup_alive env l r e) by (by rewrite ?Hl). done. }
    destruct ev; simpl; try (by apply Hc);
      unfold bind, getf, console_log; rewrite H;
      by apply (Hc (print _ w)).
  - destruct (on_transport_event_closed env ev err w r e H Ha)
      as (lines & Hres & _). exact Hres.
Qed.

Lemma returns_closeAll : returns (closeAll env).
Proof.
  intros s. exists tt. rewrite closeAll_unfold.
  set (s0 := output _ s).
  destruct (closeAll_loop_returns env (Map_entries (connections (world s))) s0)
    as (Hr & _ & _).
  by destruct (closeAll_loop env _ s0) as [s1 [[]|err]].
Qed.

Lemma returns_disconnect_begin : returns disconnect_begin.
Proof.
  intros s. unfold disconnect_begin, and_then, gets, app_log, out.
  destruct (this_subscriber s) as [c|] eqn:Hc; cbn [fst snd this_subscriber output].
  - rewrite Hc. by eexists.
  - by eexists.
Qed.

Lemma returns_handle req res : returns (handle env st req res).
Proof. unfold handle, error_handler, respond. returns_all. Qed.

Lemma returns_listener ev : returns (listener env ev).
Proof.
  destruct ev; cbn [listener];
    unfold on_connect, on_ready, on_error, on_close, on_reconnecting,
      on_message; returns_all.
  apply returns_lift. intros w. exists tt. apply handleMessage_returns.
Qed.

Lemma returns_emit_to installed c ev : returns (emit_to env installed c ev).
Proof.
  induction installed as [|[c' name] rest IH]; cbn [emit_to]; returns_all;
    first [apply returns_listener | exact IH].
Qed.

Lemma returns_gracefulShutdown name : returns (gracefulShutdown env name).
Proof.
  unfold gracefulShutdown.
  apply returns_and_then; [returns_all|intros _].
  apply returns_and_then; [returns_all|intros listening].
  apply returns_and_then; [destruct listening; returns_all|intros _].
  apply returns_and_then; [apply returns_closeAll|intros _].
  apply returns_and_then; [apply returns_disconnect_begin|intros suspended].
  destruct suspended; unfold gracefulShutdown_end; returns_all.
Qed.

Lemma gracefulShutdown_resume_normal v :
  returns (gracefulShutdown_resume (Normal v)).
Proof.
  unfold gracefulShutdown_resume, disconnect_resume, gracefulShutdown_end.
  returns_all.
Qed.

Lemma gracefulShutdown_resume_throw err s :
  gracefulShutdown_resume (Throw err) s = (s, Throw err).
Proof. done. Qed.

(** X19. No fault reaches the event loop, with one exception. In a state
    where the timers follow liveness, as in every state the process can be
    in, the callback run for an input returns normally, whatever the
    transports, [JSON.parse] and the bus do, unless the input is the
    rejection of the [quit] that [gracefulShutdown] awaits: that rejection
    is not caught. *)
Theorem only_a_rejected_quit_escapes s input :
  timers_inv (world s) ->
  (forall i err, input = Settled i (Throw err) ->
     awaiting s !! i <> Some AwaitQuit) ->
  snd (react env st input s) = Normal tt.
Proof.
  intros Htim Hq.
  assert (Hu : forall c : P unit, returns c -> snd (c s) = Normal tt).
  { intros c Hc. destruct (Hc s) as [[] H]. exact H. }
  destruct input; cbn [react].
  - apply Hu, returns_handle.
  - unfold and_then. rewrite lift_read by done. cbn [snd].
    case_bool_decide as Hk; [|done]. destruct Hk as [e He].
    unfold lift. cbn [snd]. by eapply on_transport_event_returns.
  - unfold lift, interval_fires. cbn [snd].
    destruct (intervals (world s) !! t) as [r|] eqn:Ht; [|done].
    destruct Htim as (T1 & _ & _).
    destruct (T1 t r Ht) as (e & He & _). by eapply heartbeat_returns.
  - apply Hu. returns_all. apply returns_emit_to.
  - apply Hu. returns_all. apply returns_lift. intros w.
    unfold retryStrategy. destruct (_ <? _)%Z; by eexists.
  - apply Hu. unfold reconnectOnError. returns_all.
  - unfold and_then, gets. cbn [fst snd].
    destruct (awaiting s !! i) as [[]|] eqn:Ha; [| |done].
    + cbn [fst snd]. apply (Hu (fun s => start_resume st outcome
                                 (with_awaiting (delete i (awaiting s)) s))).
      intros s'. unfold start_resume, start_catch.
      apply (returns_guarded _ _); intros ?; returns_all.
    + destruct outcome as [v|err].
      * cbn [fst snd].
        destruct (gracefulShutdown_resume_normal v
                    (with_awaiting (delete i (awaiting s)) s)) as [[] H].
        exact H.
      * exfalso. by apply (Hq i err).
  - apply Hu. unfold on_listening. returns_all.
  - apply Hu. unfold on_server_closed. returns_all.
  - apply Hu, returns_gracefulShutdown.
  - done.
Qed.

End Faults.

(** ** Shutdown *)

Section Shutdown.

Context (env : Env) (st : Settings).

Lemma turn_normal input s :
  exited s = None -> snd (react env st input s) = Normal tt ->
  turn env st input s = fst (react env st input s).
Proof.
  intros Hex Hr. unfold turn. rewrite Hex.
  by destruct (react env st input s) as [s1 [[]|err]].
Qed.

Lemma react_settled_quit i outcome s :
  awaiting s !! i = Some AwaitQuit ->
  react env st (Settled i outcome) s =
    gracefulShutdown_resume outcome (with_awaiting (delete i (awaiting s)) s).
Proof.
  intros H. cbn [react]. unfold and_then at 1, gets at 1. cbn [fst snd].
  rewrite H. reflexivity.
Qed.

Lemma disconnect_begin_some s c :
  this_subscriber s = Some c ->
  disconnect_begin s =
    (output (OQuit c) (output (OLog LogDisconnecting) s), Normal true).
Proof.
  intros Hc. unfold disconnect_begin, and_then, gets, app_log, out.
  cbn [fst snd]. rewrite Hc. cbn [this_subscriber output]. by rewrite Hc.
Qed.

Lemma disconnect_begin_none s :
  this_subscriber s = None -> disconnect_begin s = (s, Normal false).
Proof.
  intros Hc. unfold disconnect_begin, and_then, gets. by rewrite Hc.
Qed.

Lemma gracefulShutdown_unfold name s :
  gracefulShutdown env name s =
    let s1 := output (OLog (LogShutdownReceived name)) s in
    let s2 := if server s then output OServerClose s1 else s1 in
    match closeAll env s2 with
    | (s3, Normal _) =>
        match this_subscriber s3 with
        | Some c =>
            (with_awaiting (awaiting s3 ++ [AwaitQuit])
               (output (OQuit c) (output (OLog LogDisconnecting) s3)),
             Normal tt)
        | None =>
            (with_exited (Some 0%Z)
               (output (OExit 0) (output (OLog LogShutdownCompleted) s3)),
             Normal tt)
        end
    | (s3, Throw err) => (s3, Throw err)
    end.
Proof.
  cbv zeta. unfold gracefulShutdown.
  unfold and_then at 1. unfold app_log at 1, out at 1.
  unfold and_then at 1. unfold gets at 1. cbn [server output].
  unfold and_then at 1.
  assert (Hs2 : (if server s
                 then out OServerClose
                        (output (OLog (LogShutdownReceived name)) s)
                 else done_ () (output (OLog (LogShutdownReceived name)) s))
                = ((if server s
                    then output OServerClose
                           (output (OLog (LogShutdownReceived name)) s)
                    else output (OLog (LogShutdownReceived name)) s),
                   Normal tt)) by (by destruct (server s)).
  replace ((if server s then out OServerClose else done_ ())
             (output (OLog (LogShutdownReceived name)) s))
    with (if server s
          then out OServerClose (output (OLog (LogShutdownReceived name)) s)
          else done_ () (output (OLog (LogShutdownReceived name)) s))
    by (by destruct (server s)).
  rewrite Hs2. unfold and_then at 1.
  destruct (closeAll env _) as [s3 [[]|err]]; [|done].
  unfold and_then.
  destruct (this_subscriber s3) as [c|] eqn:Hc.
  - by rewrite (disconnect_begin_some s3 c Hc).
  - by rewrite (disconnect_begin_none s3 Hc).
Qed.

Lemma closing_effects_ends hp entries name r e :
  (name, r) ∈ entries -> hp !! r = Some e ->
  EEnd (response e) ∈ closing_effects hp entries.
Proof.
  intros Hin He. unfold closing_effects. apply list_elem_of_In, in_flat_map.
  exists (name, r). split; [by apply list_elem_of_In|].
  cbn [snd]. rewrite He. apply list_elem_of_In, elem_of_app. right. by left.
Qed.

(** X20. A signal, in a state where registry, liveness and timers agree
    (as in every state the process can be in), closes every connection
    before the bus client is asked to quit: afterwards nothing is
    registered, no entry is alive, no interval is scheduled and the
    transport of every entry that was alive is ended. Without a bus client
    the process exits with code 0 at once; with one, [quit] is called and
    awaited: when it resolves the process exits with code 0, when it
    rejects the rejection escapes and [process.exit] is not called. *)
Theorem shutdown_closes_every_connection s name :
  registry_inv (world s) -> timers_inv (world s) -> exited s = None ->
  let s' := turn env st (Signal name) s in
  connections (world s') = ∅ /\
  intervals (world s') = ∅ /\
  (forall r e', heap (world s') !! r = Some e' -> isAlive e' = false) /\
  (forall r e, heap (world s) !! r = Some e -> isAlive e = true ->
     EEnd (response e) ∈ effects (world s')) /\
  match this_subscriber s with
  | None => exited s' = Some 0%Z
  | Some c =>
      exited s' = None /\
      awaiting s' = awaiting s ++ [AwaitQuit] /\
      (exists stamp, last (outputs s') = Some (stamp, OQuit c)) /\
      (forall v,
         exited (turn env st (Settled (length (awaiting s)) (Normal v)) s')
           = Some 0%Z) /\
      (forall err,
         let after := react env st (Settled (length (awaiting s)) (Throw err)) s' in
         snd after = Throw err /\ outputs (fst after) = outputs s' /\
         exited (fst after) = None)
  end.
Proof.
  intros Hinv Htim Hex s'.
  assert (Hturn : s' = fst (gracefulShutdown env name s)).
  { subst s'. apply turn_normal; [done|].
    destruct (returns_gracefulShutdown env name s) as [[] H]. exact H. }
  rewrite Hturn. clear Hturn s'.
  rewrite gracefulShutdown_unfold. cbv zeta.
  set (s2 := if server s
             then output OServerClose (output (OLog (LogShutdownReceived name)) s)
             else output (OLog (LogShutdownReceived name)) s).
  assert (Hw : world s2 = world s) by (subst s2; by destruct (server s)).
  assert (Hsub : this_subscriber s2 = this_subscriber s)
    by (subst s2; by destruct (server s)).
  assert (Haw : awaiting s2 = awaiting s)
    by (subst s2; by destruct (server s)).
  assert (Hex2 : exited s2 = None)
    by (subst s2; by destruct (server s)).
  destruct (closeAll_closes env s2) as (Hr & Hc & Hi & Hlen & Hh & Hd & Heff & _);
    [by rewrite Hw | by rewrite Hw |].
  pose proof (closeAll_loop_returns env (Map_entries (connections (world s2)))
                (output (OLog (LogClosingAll (size (connections (world s2))))) s2))
    as (_ & Hsame & _).
  assert (Hp : same_process s2 (fst (closeAll env s2))).
  { rewrite closeAll_unfold.
    destruct (closeAll_loop env _ _) as [s1 [[]|err]]; [|done].
    unfold same_process in *. cbn [fst] in *.
    destruct Hsame as (?&?&?&?&?&?&?&?). by split_and!. }
  destruct (closeAll env s2) as [s3 [[]|err]]; [|done].
  cbn [fst snd] in *. destruct Hp as (_ & Hsub3 & _ & _ & Haw3 & _ & _ & Hex3).
  rewrite Hw in *.
  assert (Hends : forall r e, heap (world s) !! r = Some e -> isAlive e = true ->
            EEnd (response e) ∈ effects (world s3)).
  { intros r e He Ha. rewrite Heff. apply elem_of_app. right.
    apply (closing_effects_ends _ _ (clientName e) r e); [|done].
    apply elem_of_Map_entries. destruct Hinv as [_ H2]. by apply H2. }
  rewrite Hsub3, Hsub. destruct (this_subscriber s) as [c|] eqn:Hc0.
  - cbn [fst world with_awaiting output exited awaiting outputs].
    assert (Hlook : (awaiting s ++ [AwaitQuit]) !! length (awaiting s)
                    = Some AwaitQuit) by (by rewrite list_lookup_middle).
    split_and!; try done.
    + congruence.
    + by rewrite Haw3, Haw.
    + eexists. by rewrite last_snoc.
    + intros v. unfold turn. cbn [exited with_awaiting output].
      rewrite Hex3, Hex2, react_settled_quit
        by (cbn [awaiting with_awaiting]; by rewrite Haw3, Haw).
      unfold gracefulShutdown_resume, disconnect_resume, gracefulShutdown_end,
        and_then, assign, app_log, out, process_exit.
      by cbn [fst snd exited with_exited].
    + intros err. cbv zeta.
      rewrite react_settled_quit
        by (cbn [awaiting with_awaiting]; by rewrite Haw3, Haw).
      rewrite gracefulShutdown_resume_throw. cbn [fst snd].
      split_and!; [done | done |].
      cbn [exited with_awaiting output]. congruence.
  - cbn [fst world with_exited output exited]. by split_and!.
Qed.

End Shutdown.

(** ** The SSE endpoint *)

Section Events_endpoint.

Context (env : Env) (st : Settings).

Lemma and_then_out {B} o (k : unit -> P B) s :
  and_then (out o) k s = k tt (output o s).
Proof. done. Qed.

Lemma register_effects_extend name res p w :
  registry_inv w ->
  exists added, effects (exec (register env name res p) w) = effects w ++ added.
Proof.
  intros Hinv. unfold exec.
  rewrite (register_evicted_stored env name res p w
             (registered_valid w name Hinv)).
  cbn [fst stored print set_connections created effects].
  destruct (connections w !! name) as [old|] eqn:Hold.
  - destruct Hinv as [H1 _]. destruct (H1 name old Hold) as (e & He & Hn & Ha).
    rewrite (evicted_registered env name old e w Hold He Ha Hn).
    cbn [after_close effects print]. rewrite <- !app_assoc. by eexists.
  - unfold evicted. rewrite Hold. by eexists.
Qed.

(** The first chunks of a stream. *)
Lemma get_events_unfold name res s :
  let w := world s in
  let hello := ": Connected to " +:+ pod env +:+ nl +:+ nl in
  let data := "data: " +:+ JSON_stringify env
                (connected_record env name (toISOString env (clock w)))
              +:+ nl +:+ nl in
  exists s1, world s1 = w /\
  get_events env name res s =
    match res_write env (effects w) res hello with
    | Throw err =>
        (output (OLog (LogInitialMessageError name (message err)))
           (with_world (emit (EWrite res hello) w) s1), Normal tt)
    | Normal _ =>
        match res_write env (effects w ++ [EWrite res hello]) res data with
        | Throw err =>
            (output (OLog (LogInitialMessageError name (message err)))
               (with_world (emit (EWrite res data) (emit (EWrite res hello) w)) s1),
             Normal tt)
        | Normal _ =>
            let w2 := emit (EWrite res data) (emit (EWrite res hello) w) in
            (with_world (fst (register env name res (pod env) w2)) s1,
             match snd (register env name res (pod env) w2) with
             | Normal _ => Normal tt
             | Throw err => Throw err
             end)
        end
    end.
Proof.
  cbv zeta. unfold get_events, app_log. rewrite !and_then_out.
  set (s1 := output _ _). exists s1. split; [done|].
  assert (Hw : world s1 = world s) by done. clearbody s1.
  unfold and_then, guarded, lift, timestamp, and_then, lift, done_,
    response_write, new_Date, app_log, out.
  cbn [fst snd world with_world]. rewrite Hw.
  destruct (res_write env (effects (world s)) res _) as [b1|err1];
    cbn [fst snd world with_world emit effects clock]; [|done].
  destruct (res_write env (effects (world s) ++ _) res _) as [b2|err2];
    cbn [fst snd world with_world]; [|done].
  destruct (register env name res (pod env) _) as [w3 [r|err3]]; done.
Qed.

(** X21. A request for the stream whose two first chunks are written
    (accepted or not, as long as [write] does not throw) registers the
    transport under the requested name, whatever the name: the name maps to
    a new live entry that wraps the transport and has counted nothing, the
    entry registered under the name before is closed, and every other
    registration and entry is as before. *)
Theorem events_request_registers name res s :
  registry_inv (world s) ->
  let w := world s in
  let hello := ": Connected to " +:+ pod env +:+ nl +:+ nl in
  let data := "data: " +:+ JSON_stringify env
                (connected_record env name (toISOString env (clock w)))
              +:+ nl +:+ nl in
  (exists b, res_write env (effects w) res hello = Normal b) ->
  (exists b, res_write env (effects w ++ [EWrite res hello]) res data
             = Normal b) ->
  let s' := fst (get_events env name res s) in
  let new := length (heap w) in
  snd (get_events env name res s) = Normal tt /\
  connections (world s') = <[name := new]> (connections w) /\
  heap (world s') !! new =
    Some (mkEntry name res (pod env) (clock w) (clock w)
                  (Some (next_timer w)) 0 true) /\
  (forall old e, connections w !! name = Some old -> heap w !! old = Some e ->
     heap (world s') !! old = Some (closed e)) /\
  (forall name' r', name' <> name -> connections w !! name' = Some r' ->
     connections (world s') !! name' = Some r' /\
     heap (world s') !! r' = heap w !! r') /\
  effects (world s') !! length (effects w) = Some (EWrite res hello) /\
  effects (world s') !! S (length (effects w)) = Some (EWrite res data).
Proof.
  intros Hinv w hello data [b1 Hw1] [b2 Hw2] s' new.
  destruct (get_events_unfold name res s) as (s1 & Hs1 & Heq).
  cbv zeta in Heq. fold w hello data in Heq. rewrite Hw1, Hw2 in Heq.
  subst s'. rewrite Heq. cbn [fst snd world with_world].
  set (w2 := emit (EWrite res data) (emit (EWrite res hello) w)).
  assert (Hinv2 : registry_inv w2) by (by eapply inv_frame; [| |exact Hinv]).
  destruct (register_in_registry env w2 name res (pod env) Hinv2)
    as (Hres & Hnew & Hconn & _ & Hothers).
  unfold result, exec in *. split_and!.
  - by rewrite Hres.
  - exact Hconn.
  - exact Hnew.
  - intros old e Hold He.
    by apply (register_closes_previous env w2 name res (pod env) old e).
  - intros name' r' Hne Hr'. by apply Hothers.
  - destruct (register_effects_extend name res (pod env) w2 Hinv2) as [added Ha].
    unfold exec in Ha. rewrite Ha. subst w2. cbn [effects emit].
    rewrite <- !app_assoc. cbn [app]. by rewrite list_lookup_middle.
  - destruct (register_effects_extend name res (pod env) w2 Hinv2) as [added Ha].
    unfold exec in Ha. rewrite Ha. subst w2. cbn [effects emit].
    rewrite <- !app_assoc. cbn [app]. rewrite lookup_app_r by lia.
    by replace (S (length (effects w)) - length (effects w)) with 1 by lia.
Qed.

(** X22. A request for the stream whose first or second chunk cannot be
    written ([write] throws) registers nothing: the handler returns
    normally after a console line, entries, registry and intervals are as
    before, and the transport is neither ended nor listened to: the only
    calls made are the writes. *)
Theorem events_request_write_throws name res s err :
  let w := world s in
  let hello := ": Connected to " +:+ pod env +:+ nl +:+ nl in
  let data := "data: " +:+ JSON_stringify env
                (connected_record env name (toISOString env (clock w)))
              +:+ nl +:+ nl in
  res_write env (effects w) res hello = Throw err \/
  ((exists b, res_write env (effects w) res hello = Normal b) /\
   res_write env (effects w ++ [EWrite res hello]) res data = Throw err) ->
  let s' := fst (get_events env name res s) in
  snd (get_events env name res s) = Normal tt /\
  heap (world s') = heap w /\ connections (world s') = connections w /\
  intervals (world s') = intervals w /\
  (exists added, effects (world s') = effects w ++ added /\
     Forall (fun x => is_write x = true) added) /\
  (exists stamp, last (outputs s')
     = Some (stamp, OLog (LogInitialMessageError name (message err)))).
Proof.
  intros w hello data Hfail s'.
  destruct (get_events_unfold name res s) as (s1 & Hs1 & Heq).
  cbv zeta in Heq. fold w hello data in Heq. subst s'. rewrite Heq.
  destruct Hfail as [Hw1|[[b Hw1] Hw2]].
  - rewrite Hw1. cbn [fst snd world with_world output outputs emit heap
                      connections intervals effects].
    split_and!; try done.
    + exists [EWrite res hello]. split; [done|]. by repeat constructor.
    + eexists. by rewrite last_snoc.
  - rewrite Hw1, Hw2. cbn [fst snd world with_world output outputs emit heap
                      connections intervals effects].
    split_and!; try done.
    + exists [EWrite res hello; EWrite res data].
      split; [by rewrite <- app_assoc | by repeat constructor].
    + eexists. by rewrite last_snoc.
Qed.

End Events_endpoint.

(** ** The admin and health endpoints *)

Section Reporting.

Context (env : Env) (st : Settings).

(** With registry and liveness in agreement, [count] is the number of
    live entries. *)
Lemma size_live (m : gmap string nat) : forall hp : list ConnectionEntry,
  (forall name r, m !! name = Some r <->
     exists e, hp !! r = Some e /\ isAlive e = true /\ clientName e = name) ->
  size m = length (filter (fun e => isAlive e = true) hp).
Proof.
  intros hp. revert m.
  induction hp as [|x hp IH] using rev_ind; intros m HQ.
  - assert (m = ∅) as ->; [|done].
    apply map_empty. intros name. destruct (m !! name) as [r|] eqn:Hr; [|done].
    apply HQ in Hr as (e & He & _). by rewrite lookup_nil in He.
  - rewrite filter_app, length_app.
    destruct (isAlive x) eqn:Ha.
    + assert (Hx : m !! clientName x = Some (length hp)).
      { apply HQ. exists x. by rewrite list_lookup_middle. }
      rewrite <- (insert_delete_id m (clientName x) (length hp) Hx).
      rewrite map_size_insert_None by apply lookup_delete_eq.
      rewrite (IH (delete (clientName x) m)).
      * rewrite filter_cons_True by done. simpl. lia.
      * intros name r. rewrite lookup_delete_Some, HQ. split.
        -- intros (Hne & e & He & Hae & Hn).
           destruct (decide (r < length hp)) as [Hlt|Hge].
           ++ exists e. by rewrite lookup_app_l in He.
           ++ apply lookup_lt_Some in He as Hlt. rewrite length_app in Hlt.
              simpl in Hlt. assert (r = length hp) as -> by lia.
              rewrite list_lookup_middle in He by done. congruence.
        -- intros (e & He & Hae & Hn).
           pose proof (lookup_lt_Some _ _ _ He) as Hlt.
           split.
           ++ intros <-. assert (Hr : m !! clientName x = Some r).
              { apply HQ. exists e. by rewrite lookup_app_l. }
              rewrite Hx in Hr. injection Hr as <-. lia.
           ++ exists e. by rewrite lookup_app_l.
    + rewrite (IH m).
      * rewrite filter_cons_False by (by rewrite Ha). simpl. lia.
      * intros name r. rewrite HQ. split.
        -- intros (e & He & Hae & Hn).
           destruct (decide (r < length hp)) as [Hlt|Hge].
           ++ exists e. by rewrite lookup_app_l in He.
           ++ apply lookup_lt_Some in He as Hlt. rewrite length_app in Hlt.
              simpl in Hlt. assert (r = length hp) as -> by lia.
              rewrite list_lookup_middle in He by done. congruence.
        -- intros (e & He & Hae & Hn). exists e. split; [|done].
           rewrite lookup_app_l; [done|]. by eapply lookup_lt_Some.
Qed.

Lemma count_live w :
  registry_inv w ->
  size (connections w) = length (filter (fun e => isAlive e = true) (heap w)).
Proof.
  intros [H1 H2]. apply size_live. intros name r. split.
  - intros Hr. destruct (H1 name r Hr) as (e & He & Hn & Ha). by exists e.
  - intros (e & He & Ha & <-). by apply H2.
Qed.

(** X23. The lookup of a client answers once and changes nothing: 404
    when the name is not registered; otherwise 200 with the statistics of
    the entry registered under the name, which is alive and carries that
    name: a closed or replaced connection is never reported. *)
Theorem admin_client_reports_registered name res s :
  registry_inv (world s) ->
  let w := world s in
  let s' := fst (get_admin_client env name res s) in
  let stamp := (length (console w), length (effects w)) in
  snd (get_admin_client env name res s) = Normal tt /\
  world s' = w /\
  match connections w !! name with
  | None =>
      outputs s' = outputs s
        ++ [(stamp, ORespond res 404 (BodyClientNotFound name (pod env)))]
  | Some r =>
      exists e, heap w !! r = Some e /\ clientName e = name /\
        isAlive e = true /\
        outputs s' = outputs s
          ++ [(stamp, ORespond res 200
                 (BodyClient (pod env) (stats_at env (clock w) e)
                             (toISOString env (clock w))))]
  end.
Proof.
  intros [H1 _] w s' stamp. subst s' stamp w.
  unfold get_admin_client, respond, timestamp, and_then, lift, has, get,
    lookup_key, out, done_. cbn [as_key]. app_run.
  destruct (connections (world s) !! name) as [r|] eqn:Hr.
  - destruct (H1 name r Hr) as (e & He & Hn & Ha).
    rewrite bool_decide_eq_true_2 by eauto. app_run. rewrite Hr.
    assert (Hs : getStats env r (world s)
                 = (world s, Normal (stats_at env (clock (world s)) e))).
    { unfold getStats, bind, getf, new_Date, ret. by rewrite He. }
    rewrite Hs. app_run. unfold new_Date. app_run.
    split_and!; [done | done |]. exists e. by split_and!.
  - rewrite bool_decide_eq_false_2 by (by intros [x Hx]). app_run.
    by split_and!.
Qed.

(** X24. The health check and the listing report the same number of
    connections, and it is the number of live entries: with registry and
    liveness in agreement, [/health] answers with [connections] equal to
    the number of entries that are alive, and [/admin/connections] with as
    many records, each of a live entry. Both change nothing. *)
Theorem health_and_listing_count_live res s :
  registry_inv (world s) ->
  let w := world s in
  let live := length (filter (fun e => isAlive e = true) (heap w)) in
  let stamp := (length (console w), length (effects w)) in
  let this := redisSubscriber s in
  get_health env st res s =
    (output (ORespond res 200
       (BodyHealth (pod env) ((clock w - serverStartTime s) / 1000)%Z live
          (mkStatus (isConnected this) (channel (config this))
                    (host (config this)) (port (config this))
                    (reconnectAttempts this))
          (toISOString env (clock w)) (environment st))) s,
     Normal tt) /\
  exists l,
    get_admin_connections env res s =
      (output (ORespond res 200
         (BodyConnections (pod env) live l (toISOString env (clock w)))) s,
       Normal tt) /\
    length l = live /\
    Forall (fun x => stats_isAlive x = true) l.
Proof.
  intros Hinv w live stamp this.
  pose proof (count_live (world s) Hinv) as Hcount.
  subst w live stamp this. split.
  - unfold get_health, getStatus, respond, timestamp, and_then, lift, gets,
      count, new_Date, out, done_. app_run. by rewrite Hcount.
  - destruct (getAll_in_registry env (world s) Hinv)
      as (l & Heq & Hlen & _ & _ & Halive & _).
    exists l. split_and!.
    + unfold get_admin_connections, respond, timestamp, and_then, lift,
        new_Date, out, done_. rewrite Heq. app_run.
      by rewrite Hlen, Hcount.
    + by rewrite Hlen, Hcount.
    + exact Halive.
Qed.

End Reporting.

(** ** The bus client *)

Section Bus_client.

Context (env : Env) (st : Settings).







End Bus_client.

(** ** Starting and subscribing *)

Section Subscription.

Context (env : Env) (st : Settings).

Lemma emit_to_cons installed c' name c ev s :
  emit_to env ((c', name) :: installed) c ev s =
    if bool_decide (c' = c /\ name = event_name ev) then
      match listener env ev s with
      | (s1, Normal _) => emit_to env installed c ev s1
      | (s1, Throw err) => (s1, Throw err)
      end
    else emit_to env installed c ev s.
Proof. cbn [emit_to]. unfold and_then at 1. by case_bool_decide. Qed.

Lemma emit_to_none installed c ev s :
  Forall (fun l => ~ (fst l = c /\ snd l = event_name ev)) installed ->
  emit_to env installed c ev s = (s, Normal tt).
Proof.
  induction installed as [|[c' name] rest IH]; intros Hall; [done|].
  apply Forall_cons in Hall as [Hne Hall]. rewrite emit_to_cons.
  rewrite bool_decide_eq_false_2 by done. by apply IH.
Qed.





Lemma react_bus c ev s :
  react env st (Bus c ev) s = emit_to env (listeners s) c ev s.
Proof. done. Qed.



End Subscription.

(** ** The routes that answer with JSON *)

Section Routes.

Context (env : Env) (st : Settings).

Lemma silent_done {A} (a : A) : silent (done_ a).
Proof.
  intros s. split_and!; [done | apply same_process_refl |].
  exists []. by rewrite app_nil_r.
Qed.

Lemma silent_raise {A} err : silent (@raise A err).
Proof.
  intros s. split_and!; [done | apply same_process_refl |].
  exists []. by rewrite app_nil_r.
Qed.

Lemma silent_gets {A} (f : Server -> A) : silent (gets f).
Proof.
  intros s. split_and!; [done | apply same_process_refl |].
  exists []. by rewrite app_nil_r.
Qed.

Lemma silent_read {A} (c : M A) :
  (forall w, fst (c w) = w) -> silent (lift c).
Proof.
  intros Hc s. rewrite lift_read by apply Hc.
  split_and!; [done | apply same_process_refl |].
  exists []. by rewrite app_nil_r.
Qed.

Lemma silent_to_string v : silent (to_string st v).
Proof.
  intros s. split_and!; [done | apply same_process_refl |].
  exists []. by rewrite app_nil_r.
Qed.

Lemma silent_app_log l : silent (app_log l).
Proof.
  intros s. split_and!; [done | by repeat split |].
  eexists. split; [done|]. by repeat constructor.
Qed.

Lemma silent_and_then {A B} (c : P A) (k : A -> P B) :
  silent c -> (forall a, silent (k a)) -> silent (and_then c k).
Proof.
  intros Hc Hk s. unfold and_then.
  destruct (Hc s) as (Hw & Hp & logs & Ho & Hl).
  destruct (c s) as [s1 [a|err]]; cbn [fst] in *.
  - destruct (Hk a s1) as (Hw' & Hp' & logs' & Ho' & Hl').
    split_and!; [congruence | by eapply same_process_trans |].
    exists (logs ++ logs'). rewrite Ho', Ho, app_assoc.
    split; [done | by apply Forall_app].
  - split_and!; [done | done |]. by exists logs.
Qed.

Lemma silent_timestamp : silent (timestamp env).
Proof.
  unfold timestamp. apply silent_and_then; [by apply silent_read|].
  intros now. apply silent_done.
Qed.

Lemma silent_getStatus : silent getStatus.
Proof.
  unfold getStatus. apply silent_and_then; [apply silent_gets|].
  intros this. apply silent_done.
Qed.

Lemma answering_respond res status body : answering res (respond res status body).
Proof.
  intros s. split_and!; [done | by repeat split |].
  exists []. split; [done|]. left. split; [done|]. by eexists _, _, _.
Qed.

Lemma answering_raise res err : answering res (raise err).
Proof.
  intros s. split_and!; [done | apply same_process_refl |].
  exists []. split; [done|]. right. exists err. by rewrite app_nil_r.
Qed.

Lemma answering_and_then {A} res (c : P A) (k : A -> P unit) :
  silent c -> (forall a, answering res (k a)) -> answering res (and_then c k).
Proof.
  intros Hc Hk s. unfold and_then.
  destruct (Hc s) as (Hw & Hp & logs & Ho & Hl).
  destruct (c s) as [s1 [a|err]]; cbn [fst] in *.
  - destruct (Hk a s1) as (Hw' & Hp' & logs' & Hl' & Hcase).
    split_and!; [congruence | by eapply same_process_trans |].
    exists (logs ++ logs'). split; [by apply Forall_app|].
    destruct Hcase as [[Hr (stamp & status & body & Ho')]
                      |(err & Hr & Ho')].
    + left. split; [done|]. exists stamp, status, body.
      by rewrite Ho', Ho, <- !app_assoc.
    + right. exists err. by rewrite Ho', Ho, <- !app_assoc.
  - split_and!; [done | done |]. exists logs. split; [done|].
    right. by exists err.
Qed.

Ltac answer_step :=
  lazymatch goal with
  | |- answering _ (respond _ _ _) => apply answering_respond
  | |- answering _ (raise _) => apply answering_raise
  | |- answering _ (and_then _ _) => apply answering_and_then; [|intros ?]
  | |- answering _ (match ?x with _ => _ end) => destruct x
  | |- silent (done_ _) => apply silent_done
  | |- silent (raise _) => apply silent_raise
  | |- silent (gets _) => apply silent_gets
  | |- silent (to_string _ _) => apply silent_to_string
  | |- silent (app_log _) => apply silent_app_log
  | |- silent (timestamp _) => apply silent_timestamp
  | |- silent getStatus => apply silent_getStatus
  | |- silent (and_then _ _) => apply silent_and_then; [|intros ?]
  | |- silent (lift _) => apply silent_read; intros ?
  end.

Lemma answering_route req res :
  (forall name, req <> GetEvents name) -> answering res (route env st req res).
Proof.
  intros Hreq. destruct req as [body|name| | |name|path]; cbn [route].
  - unfold post_register. repeat answer_step.
    unfold get_prop. by destruct (nullish body).
  - by destruct (Hreq name).
  - unfold get_health. repeat answer_step; reflexivity.
  - unfold get_admin_connections. repeat answer_step. apply getAll_world.
  - unfold get_admin_client. repeat answer_step; try reflexivity.
    apply (getStats_pure env).
  - unfold not_found. repeat answer_step.
Qed.

(** X27. Every request to a route that answers with JSON gets exactly one
    response, sent last, also when the handler throws (the error handler
    then answers 500); the handler returns normally and changes nothing:
    not the registry, not an entry, not the subscriber. In particular
    [POST /register] stores nothing. *)
Theorem json_routes_answer_once req res s :
  (forall name, req <> GetEvents name) ->
  let s' := fst (handle env st req res s) in
  snd (handle env st req res s) = Normal tt /\
  world s' = world s /\ same_process s s' /\
  exists logs stamp status body,
    outputs s' = outputs s ++ logs ++ [(stamp, ORespond res status body)] /\
    Forall (fun o => is_log o = true) logs.
Proof.
  intros Hreq s'. subst s'. unfold handle, guarded.
  destruct (answering_route req res Hreq s)
    as (Hw & Hp & logs & Hl & [[Hr (stamp & status & body & Ho)]
                              |(err & Hr & Ho)]).
  - destruct (route env st req res s) as [s1 [[]|e1]]; [|done].
    cbn [fst snd] in *. split_and!; try done. by exists logs, stamp, status, body.
  - destruct (route env st req res s) as [s1 [[]|e1]]; [done|].
    cbn [fst snd] in *. injection Hr as ->.
    unfold error_handler, respond, and_then, app_log, out.
    cbn [fst snd world output outputs].
    split_and!; try done.
    exists (logs ++ [(length (console (world s1)), length (effects (world s1)),
                      OLog (LogError (message err)))]).
    eexists _, _, _. rewrite Ho, <- !app_assoc. split; [done|].
    apply Forall_app. split; [done|]. by repeat constructor.
Qed.

End Routes.

(** ** Conversion to a string *)

(** [convertible] tells exactly when [ToString] returns, and what it
    throws otherwise. *)
Section Conversion.
Context (st : Settings).

Lemma ToString_convertible : forall v,
  if convertible v then exists s, ToString st v = Normal s
  else ToString st v = Throw cannot_convert.
Proof.
  fix IH 1. intros [| |[]|x|s|elems|props]; try (simpl; eauto; fail).
  - cbn [convertible ToString].
    induction elems as [|e rest IHl]; [eauto|].
    pose proof (IH e) as He.
    assert (He' : if convertible e
                  then exists s, match e with
                                 | JUndefined | JNull => Normal EmptyString
                                 | _ => ToString st e
                                 end = Normal s
                  else ToString st e = Throw cannot_convert
                       /\ match e with
                                 | JUndefined | JNull => Normal EmptyString
                                 | _ => ToString st e
                                 end = ToString st e).
    { destruct e; try (simpl; eauto; fail); destruct (convertible _); eauto. }
    clear He. destruct (convertible e).
    + destruct He' as [a ->]. cbn [andb].
      destruct rest as [|e2 rest]; [eauto|].
      match type of IHl with
      | if ?c then _ else _ => destruct c
      end.
      * destruct IHl as [b ->]. eauto.
      * by rewrite IHl.
    + destruct He' as [He1 ->]. cbn [andb]. by rewrite He1.
  - simpl. destruct (own_property "toString" props); eauto.
Qed.

Lemma convertible_ToString v :
  convertible v = true <-> exists s, ToString st v = Normal s.
Proof.
  pose proof (ToString_convertible v) as H.
  destruct (convertible v); split; try done.
  intros [s Hs]. congruence.
Qed.

End Conversion.

Section Registration_request.

Context (env : Env) (st : Settings).

(** [POST /register], case by case. *)
Lemma post_register_cases body res s :
  let v := property body "clientName" in
  handle env st (PostRegister body) res s =
    if nullish body then
      (output (ORespond res 500
                 (BodyInternalError (message (read_error "clientName")) (pod env)))
         (output (OLog (LogError (message (read_error "clientName")))) s),
       Normal tt)
    else if negb (truthy v) then
      (output (ORespond res 400 BodyClientNameRequired) s, Normal tt)
    else
      match ToString st v with
      | Throw err =>
          (output (ORespond res 500 (BodyInternalError (message err) (pod env)))
             (output (OLog (LogError (message err))) s),
           Normal tt)
      | Normal text =>
          if valid_clientName text then
            (output (ORespond res 200
                       (BodyRegistered v (pod env)
                          ("Client " +:+ text
                             +:+ " registered. Connect to /events/"
                             +:+ text +:+ " for SSE stream")
                          (toISOString env (clock (world s)))))
               (output (OLog (LogRegistrationRequest text)) s),
             Normal tt)
          else
            (output (ORespond res 400 BodyClientNameInvalid) s, Normal tt)
      end.
Proof.
  cbv zeta. unfold handle, guarded. cbn [route].
  unfold post_register, and_then at 1, lift, get_prop.
  destruct (nullish body); [reflexivity|].
  unfold ret. cbn [fst snd]. rewrite with_world_id.
  destruct (truthy (property body "clientName")); [|reflexivity].
  cbn [negb]. unfold and_then, to_string.
  destruct (ToString st (property body "clientName")) as [text|err];
    [|reflexivity].
  destruct (valid_clientName text); [|reflexivity].
  cbn [negb]. unfold timestamp, and_then, lift, new_Date, done_, respond,
    app_log, out.
  cbn [fst snd world output]. reflexivity.
Qed.

(** X28. [POST /register] answers 200 exactly when the [clientName] of the
    body is truthy and its string form is not empty and made of letters,
    digits, underscores and hyphens only; the name need not be a string.
    A falsy name whose string form is well formed ([0], [false]) is
    refused. *)
Theorem register_request_accepts_valid_names body res s :
  let v := property body "clientName" in
  let s' := fst (handle env st (PostRegister body) res s) in
  (exists stamp b, last (outputs s') = Some (stamp, ORespond res 200 b)) <->
  (nullish body = false /\ truthy v = true /\
   exists text, ToString st v = Normal text /\ valid_clientName text = true).
Proof.
  intros v s'. subst s'. rewrite post_register_cases. cbv zeta. fold v.
  destruct (nullish body).
  { cbn [fst output outputs]. rewrite last_snoc. split.
    - intros (stamp & b & H). by injection H.
    - by intros [? _]. }
  destruct (truthy v).
  2:{ cbn [negb fst output outputs]. rewrite last_snoc. split.
      - intros (stamp & b & H). by injection H.
      - by intros (_ & ? & _). }
  cbn [negb]. destruct (ToString st v) as [text|err].
  2:{ cbn [fst output outputs]. rewrite last_snoc. split.
      - intros (stamp & b & H). by injection H.
      - by intros (_ & _ & text & ? & _). }
  destruct (valid_clientName text) eqn:Hv;
    cbn [fst output outputs]; rewrite last_snoc; split.
  - intros _. split_and!; try done. by exists text.
  - intros _. by eexists _, _.
  - intros (stamp & b & H). by injection H.
  - intros (_ & _ & text' & Ht & Hv'). congruence.
Qed.

End Registration_request.

(** ** The properties above on the runs of client A *)

Section More_runs_of_client_A.

Import Scenario.

Lemma connected_reachable env : reachable env (connected env).
Proof.
  exact (reachable_step env _ (ARegister "A" 7 "pod-1")
           (reachable_start env 1000)).
Qed.

Lemma connected_registry_inv env : registry_inv (connected env).
Proof. apply (reachable_registry_inv env), connected_reachable. Qed.

Lemma serving_A_serving env : serving env defaults (serving_A env).
Proof.
  exact (serving_turn env defaults _ (Http (GetEvents "A") 7)
           (serving_turn env defaults _ (Settled 0 (Normal JNull))
              (serving_booted env defaults 1000))).
Qed.

Lemma entries_keep_identity_witness :
  heap (connected accepting) !! 0 = Some entry_A /\
  exists e',
    heap (run accepting [AClose 0; ARegister "A" 8 "pod-1"] (connected accepting))
      !! 0 = Some e' /\
    clientName e' = clientName entry_A /\ response e' = response entry_A.
Proof.
  assert (H : heap (connected accepting) !! 0 = Some entry_A) by reflexivity.
  destruct (entries_keep_identity accepting [AClose 0; ARegister "A" 8 "pod-1"]
              (connected accepting) 0 entry_A H)
    as (e' & He' & Hn & Hr & _).
  exact (conj H (ex_intro _ e' (conj He' (conj Hn Hr)))).
Defined.

Lemma timers_follow_liveness_witness :
  reachable accepting (connected accepting) /\
  (forall r e t, heap (connected accepting) !! r = Some e ->
     isAlive e = false -> intervals (connected accepting) !! t <> Some r).
Proof.
  pose proof (connected_reachable accepting) as Hr.
  pose proof (timers_follow_liveness accepting (connected accepting) Hr)
    as (_ & _ & H).
  exact (conj Hr H).
Defined.

Lemma registry_agrees_with_liveness_witness :
  reachable accepting (connected accepting) /\
  (forall r e, heap (connected accepting) !! r = Some e -> isAlive e = true ->
     connections (connected accepting) !! clientName e = Some r).
Proof.
  pose proof (connected_reachable accepting) as Hr.
  pose proof (registry_agrees_with_liveness accepting (connected accepting) Hr)
    as (_ & H & _).
  exact (conj Hr H).
Defined.

Lemma failed_heartbeat_closes_witness :
  intervals (connected refusing) !! 0 = Some 0 /\
  heap (connected refusing) !! 0 = Some entry_A /\
  isAlive entry_A = true /\ heartbeatInterval entry_A = Some 0 /\
  res_write refusing (effects (connected refusing)) (response entry_A)
    (heartbeat_message refusing (clock (connected refusing))) <> Normal true /\
  result (interval_fires refusing 0) (connected refusing) = Normal tt /\
  heap (exec (interval_fires refusing 0) (connected refusing)) !! 0
    = Some (closed entry_A).
Proof.
  assert (Hs : intervals (connected refusing) !! 0 = Some 0)
    by (vm_compute; reflexivity).
  assert (H : heap (connected refusing) !! 0 = Some entry_A) by reflexivity.
  assert (Ha : isAlive entry_A = true) by reflexivity.
  assert (Ht : heartbeatInterval entry_A = Some 0) by reflexivity.
  assert (Hw : res_write refusing (effects (connected refusing))
                 (response entry_A)
                 (heartbeat_message refusing (clock (connected refusing)))
               <> Normal true) by discriminate.
  pose proof (failed_heartbeat_closes refusing (connected refusing) 0 0 entry_A
                Hs H Ha Ht Hw) as (Hr & Hh & _).
  exact (conj Hs (conj H (conj Ha (conj Ht (conj Hw (conj Hr Hh)))))).
Defined.

Lemma accepted_heartbeat_is_inert_witness :
  intervals (connected accepting) !! 0 = Some 0 /\
  heap (connected accepting) !! 0 = Some entry_A /\
  isAlive entry_A = true /\
  res_write accepting (effects (connected accepting)) (response entry_A)
    (heartbeat_message accepting (clock (connected accepting))) = Normal true /\
  heap (exec (interval_fires accepting 0) (connected accepting))
    = heap (connected accepting).
Proof.
  assert (Hs : intervals (connected accepting) !! 0 = Some 0)
    by (vm_compute; reflexivity).
  assert (H : heap (connected accepting) !! 0 = Some entry_A) by reflexivity.
  assert (Ha : isAlive entry_A = true) by reflexivity.
  assert (Hw : res_write accepting (effects (connected accepting))
                 (response entry_A)
                 (heartbeat_message accepting (clock (connected accepting)))
               = Normal true) by reflexivity.
  pose proof (accepted_heartbeat_is_inert accepting (connected accepting) 0 0
                entry_A Hs H Ha Hw) as (_ & Hh & _).
  exact (conj Hs (conj H (conj Ha (conj Hw Hh)))).
Defined.

Lemma transport_event_closes_witness :
  heap (connected accepting) !! 0 = Some entry_A /\
  isAlive entry_A = true /\
  heap (exec (on_transport_event accepting ReqClose (Error "gone") 0)
          (connected accepting)) !! 0 = Some (closed entry_A) /\
  connections (exec (on_transport_event accepting ReqClose (Error "gone") 0)
                 (connected accepting))
    = delete (clientName entry_A) (connections (connected accepting)).
Proof.
  assert (H : heap (connected accepting) !! 0 = Some entry_A) by reflexivity.
  assert (Ha : isAlive entry_A = true) by reflexivity.
  pose proof (transport_event_closes accepting ReqClose (Error "gone")
                (connected accepting) 0 entry_A H Ha) as (_ & Hh & Hc & _).
  exact (conj H (conj Ha (conj Hh Hc))).
Defined.

Lemma register_leaves_others_witness :
  registry_inv (connected accepting) /\
  result (register accepting "B" 8 "pod-1") (connected accepting) = Normal 1 /\
  connections (exec (register accepting "B" 8 "pod-1") (connected accepting))
    = <["B" := 1]> (connections (connected accepting)).
Proof.
  pose proof (connected_registry_inv accepting) as Hinv.
  pose proof (register_leaves_others accepting (connected accepting)
                "B" 8 "pod-1" Hinv) as (Hr & _ & Hc & _).
  exact (conj Hinv (conj Hr Hc)).
Defined.

Lemma close_unregisters_by_name_witness :
  heap reconnected_after_remove !! 0 = Some entry_A /\
  isAlive entry_A = true /\
  connections reconnected_after_remove !! clientName entry_A = Some 1 /\
  1 <> 0 /\
  connections (exec (close accepting 0) reconnected_after_remove)
    !! clientName entry_A = None.
Proof.
  assert (H : heap reconnected_after_remove !! 0 = Some entry_A)
    by (vm_compute; reflexivity).
  assert (Ha : isAlive entry_A = true) by reflexivity.
  assert (Hr : connections reconnected_after_remove !! clientName entry_A
               = Some 1) by (vm_compute; reflexivity).
  assert (Hne : 1 <> 0) by lia.
  pose proof (close_unregisters_by_name accepting reconnected_after_remove
                0 entry_A 1 H Ha Hr Hne) as (Hc & _).
  exact (conj H (conj Ha (conj Hr (conj Hne Hc)))).
Defined.

Lemma accepted_sends_are_counted_witness :
  heap (connected accepting) !! 0 = Some entry_A /\
  isAlive entry_A = true /\
  (forall history chunk,
     res_write accepting history (response entry_A) chunk = Normal true) /\
  Forall (fun ev =>
            nullish ev = false /\
            convertible (js_or (property ev "action") (JStr "event")) = true)
         [record_value "A"; JObj []] /\
  (N.of_nat (eventCount entry_A + length [record_value "A"; JObj []])
     <= MAX_SAFE)%N /\
  exists e',
    heap (run accepting
            (ASendEvent 0 <$> [record_value "A"; JObj []])
            (connected accepting)) !! 0 = Some e' /\
    eventCount e' = eventCount entry_A + 2.
Proof.
  assert (H : heap (connected accepting) !! 0 = Some entry_A) by reflexivity.
  assert (Ha : isAlive entry_A = true) by reflexivity.
  assert (Hw : forall history chunk,
             res_write accepting history (response entry_A) chunk = Normal true)
    by reflexivity.
  assert (Hn : Forall (fun ev =>
                 nullish ev = false /\
                 convertible (js_or (property ev "action") (JStr "event"))
                   = true)
                 [record_value "A"; JObj []])
    by (repeat constructor).
  assert (Hmax : (N.of_nat (eventCount entry_A
                              + length [record_value "A"; JObj []])
                    <= MAX_SAFE)%N) by (vm_compute; discriminate).
  destruct (accepted_sends_are_counted accepting
              [record_value "A"; JObj []] (connected accepting)
              0 entry_A H Ha Hw Hn Hmax) as (e' & He' & Hc & _).
  exact (conj H (conj Ha (conj Hw (conj Hn (conj Hmax
           (ex_intro _ e' (conj He' Hc))))))).
Defined.

Lemma message_touches_only_its_target_witness :
  (forall v, JSON_parse accepting (record_text "B") = Normal v ->
     lookup_key (property v "clientName") (connections (connected accepting))
       <> Some 0) /\
  heap (exec (handleMessage accepting subscriber "events-to-store"
                (record_text "B")) (connected accepting)) !! 0
    = heap (connected accepting) !! 0.
Proof.
  assert (Ho : forall v, JSON_parse accepting (record_text "B") = Normal v ->
             lookup_key (property v "clientName")
               (connections (connected accepting)) <> Some 0).
  { intros v Hv. vm_compute in Hv. injection Hv as <-.
    vm_compute. discriminate. }
  exact (conj Ho (message_touches_only_its_target accepting subscriber
                    "events-to-store" (record_text "B") (connected accepting)
                    0 Ho)).
Defined.

Lemma getAll_lists_registered_witness :
  registry_inv (connected accepting) /\
  exists l, getAll accepting (connected accepting)
              = (connected accepting, Normal l) /\
            length l = size (connections (connected accepting)).
Proof.
  pose proof (connected_registry_inv accepting) as Hinv.
  destruct (getAll_lists_registered accepting (connected accepting) Hinv)
    as (l & Heq & Hlen & _).
  exact (conj Hinv (ex_intro _ l (conj Heq Hlen))).
Defined.

Lemma closeAll_closes_everything_witness :
  registry_inv (world (serving_A accepting)) /\
  timers_inv (world (serving_A accepting)) /\
  connections (world (fst (closeAll accepting (serving_A accepting)))) = ∅ /\
  intervals (world (fst (closeAll accepting (serving_A accepting)))) = ∅.
Proof.
  pose proof (serving_registry_inv accepting defaults _
                (serving_A_serving accepting)) as Hinv.
  pose proof (serving_timers_inv accepting defaults _
                (serving_A_serving accepting)) as Htim.
  pose proof (closeAll_closes_everything accepting (serving_A accepting)
                Hinv Htim) as (_ & Hc & Hi & _).
  exact (conj Hinv (conj Htim (conj Hc Hi))).
Defined.

Lemma process_keeps_registry_and_timers_witness :
  serving accepting defaults (serving_A accepting) /\
  registry_inv (world (serving_A accepting)) /\
  timers_inv (world (serving_A accepting)).
Proof.
  pose proof (serving_A_serving accepting) as Hs.
  pose proof (process_keeps_registry_and_timers accepting defaults
                (serving_A accepting) Hs) as (Hr & Ht & _).
  exact (conj Hs (conj Hr Ht)).
Defined.

Lemma entries_outlive_turns_witness :
  heap (world (serving_A accepting)) !! 0 = Some entry_A_served /\
  exists e',
    heap (world (turns accepting defaults [Signal "SIGTERM"]
                   (serving_A accepting))) !! 0 = Some e' /\
    clientName e' = clientName entry_A_served /\
    response e' = response entry_A_served.
Proof.
  assert (H : heap (world (serving_A accepting)) !! 0 = Some entry_A_served)
    by (vm_compute; reflexivity).
  destruct (entries_outlive_turns accepting defaults [Signal "SIGTERM"]
              (serving_A accepting) 0 entry_A_served H)
    as (e' & He' & Hn & Hr & _).
  exact (conj H (ex_intro _ e' (conj He' (conj Hn Hr)))).
Defined.

Lemma only_a_rejected_quit_escapes_witness :
  timers_inv (world (serving_A accepting)) /\
  (forall i err, Timer 0 = Settled i (Throw err) ->
     awaiting (serving_A accepting) !! i <> Some AwaitQuit) /\
  snd (react accepting defaults (Timer 0) (serving_A accepting)) = Normal tt.
Proof.
  pose proof (serving_timers_inv accepting defaults _
                (serving_A_serving accepting)) as Hs.
  assert (Hq : forall i err, Timer 0 = Settled i (Throw err) ->
             awaiting (serving_A accepting) !! i <> Some AwaitQuit)
    by discriminate.
  exact (conj Hs (conj Hq
           (only_a_rejected_quit_escapes accepting defaults
              (serving_A accepting) (Timer 0) Hs Hq))).
Defined.

Lemma shutdown_closes_every_connection_witness :
  registry_inv (world (serving_A accepting)) /\
  timers_inv (world (serving_A accepting)) /\
  exited (serving_A accepting) = None /\
  connections (world (turn accepting defaults (Signal "SIGTERM")
                        (serving_A accepting))) = ∅ /\
  intervals (world (turn accepting defaults (Signal "SIGTERM")
                      (serving_A accepting))) = ∅.
Proof.
  pose proof (serving_registry_inv accepting defaults _
                (serving_A_serving accepting)) as Hinv.
  pose proof (serving_timers_inv accepting defaults _
                (serving_A_serving accepting)) as Htim.
  assert (Hex : exited (serving_A accepting) = None)
    by (vm_compute; reflexivity).
  pose proof (shutdown_closes_every_connection accepting defaults
                (serving_A accepting) "SIGTERM" Hinv Htim Hex) as (Hc & Hi & _).
  exact (conj Hinv (conj Htim (conj Hex (conj Hc Hi)))).
Defined.

Lemma events_request_registers_witness :
  registry_inv (world (serving_A accepting)) /\
  (exists b, res_write accepting (effects (world (serving_A accepting))) 8
               (": Connected to " +:+ pod accepting +:+ nl +:+ nl) = Normal b) /\
  connections (world (fst (get_events accepting "A" 8 (serving_A accepting))))
    = <["A" := 1]> (connections (world (serving_A accepting))) /\
  heap (world (fst (get_events accepting "A" 8 (serving_A accepting)))) !! 0
    = Some (closed entry_A_served).
Proof.
  pose proof (serving_registry_inv accepting defaults _
                (serving_A_serving accepting)) as Hinv.
  assert (Hw1 : exists b,
             res_write accepting (effects (world (serving_A accepting))) 8
               (": Connected to " +:+ pod accepting +:+ nl +:+ nl) = Normal b)
    by (by exists true).
  pose proof (events_request_registers accepting "A" 8 (serving_A accepting)
                Hinv Hw1 (ex_intro _ true eq_refl))
    as (_ & Hc & _ & Hold & _).
  refine (conj Hinv (conj Hw1 (conj Hc (Hold 0 entry_A_served _ _))));
    vm_compute; reflexivity.
Defined.

Lemma events_request_write_throws_witness :
  res_write broken (effects (world (booted broken defaults 1000))) 7
    (": Connected to " +:+ pod broken +:+ nl +:+ nl)
    = Throw (Error "write after end") /\
  snd (get_events broken "A" 7 (booted broken defaults 1000)) = Normal tt /\
  connections (world (fst (get_events broken "A" 7 (booted broken defaults 1000))))
    = connections (world (booted broken defaults 1000)).
Proof.
  assert (Hw : res_write broken (effects (world (booted broken defaults 1000))) 7
                 (": Connected to " +:+ pod broken +:+ nl +:+ nl)
               = Throw (Error "write after end")) by reflexivity.
  pose proof (events_request_write_throws broken "A" 7
                (booted broken defaults 1000) (Error "write after end")
                (or_introl Hw)) as (Hr & _ & Hc & _).
  exact (conj Hw (conj Hr Hc)).
Defined.

Lemma admin_client_reports_registered_witness :
  registry_inv (world (serving_A accepting)) /\
  snd (get_admin_client accepting "A" 9 (serving_A accepting)) = Normal tt /\
  world (fst (get_admin_client accepting "A" 9 (serving_A accepting)))
    = world (serving_A accepting).
Proof.
  pose proof (serving_registry_inv accepting defaults _
                (serving_A_serving accepting)) as Hinv.
  pose proof (admin_client_reports_registered accepting "A" 9
                (serving_A accepting) Hinv) as (Hr & Hw & _).
  exact (conj Hinv (conj Hr Hw)).
Defined.

Lemma health_and_listing_count_live_witness :
  registry_inv (world (serving_A accepting)) /\
  exists l,
    get_admin_connections accepting 9 (serving_A accepting) =
      (output (ORespond 9 200
         (BodyConnections (pod accepting)
            (length (filter (fun e => isAlive e = true)
                       (heap (world (serving_A accepting)))))
            l (toISOString accepting (clock (world (serving_A accepting))))))
         (serving_A accepting),
       Normal tt).
Proof.
  pose proof (serving_registry_inv accepting defaults _
                (serving_A_serving accepting)) as Hinv.
  destruct (health_and_listing_count_live accepting defaults 9
              (serving_A accepting) Hinv) as (_ & l & Heq & _).
  exact (conj Hinv (ex_intro _ l Heq)).
Defined.


Lemma json_routes_answer_once_witness :
  (forall name, GetHealth <> GetEvents name) /\
  snd (handle accepting defaults GetHealth 9 (serving_A accepting)) = Normal tt /\
  world (fst (handle accepting defaults GetHealth 9 (serving_A accepting)))
    = world (serving_A accepting).
Proof.
  assert (Hreq : forall name, GetHealth <> GetEvents name) by discriminate.
  pose proof (json_routes_answer_once accepting defaults GetHealth 9
                (serving_A accepting) Hreq) as (Hr & Hw & _).
  exact (conj Hreq (conj Hr Hw)).
Defined.

End More_runs_of_client_A.

(** ** A bus message is handled at most once *)

Section Wiring.

Context (env : Env) (st : Settings).

Lemma wired_done {A} (a : A) : wired (done_ a).
Proof. by intros s. Qed.

Lemma wired_and_then {A B} (c : P A) (k : A -> P B) :
  wired c -> (forall a, wired (k a)) -> wired (and_then c k).
Proof.
  intros Hc Hk s. unfold and_then. destruct (Hc s) as [Hl Ha].
  destruct (c s) as [s1 [a|err]]; cbn [fst] in *; [|done].
  destruct (Hk a s1) as [Hl' Ha']. split; congruence.
Qed.

Lemma wired_guarded {A} (c : P A) (h : JSError -> P A) :
  wired c -> (forall err, wired (h err)) -> wired (guarded c h).
Proof.
  intros Hc Hh s. unfold guarded. destruct (Hc s) as [Hl Ha].
  destruct (c s) as [s1 [a|err]]; cbn [fst] in *; [done|].
  destruct (Hh err s1) as [Hl' Ha']. split; congruence.
Qed.

Lemma wired_now {A} (c : P A) :
  (forall s, listeners (fst (c s)) = listeners s /\
             awaiting (fst (c s)) = awaiting s) -> wired c.
Proof. done. Qed.

Lemma wired_closeAll : wired (closeAll env).
Proof.
  intros s. rewrite closeAll_unfold.
  set (s0 := output _ s).
  destruct (closeAll_loop_returns env (Map_entries (connections (world s))) s0)
    as (_ & (_ & _ & Hl & _ & Ha & _) & _).
  by destruct (closeAll_loop env _ s0) as [s1 [[]|err]].
Qed.

Ltac wired_step :=
  lazymatch goal with
  | |- wired (and_then _ _) => apply wired_and_then; [|intros ?]
  | |- wired (guarded _ _) => apply wired_guarded; [|intros ?]
  | |- wired (closeAll _) => apply wired_closeAll
  | |- wired (match ?x with _ => _ end) => destruct x
  | |- wired _ => apply wired_now; intros ?; split; reflexivity
  end.

Lemma wired_handle req res : wired (handle env st req res).
Proof.
  unfold handle, error_handler, respond.
  destruct req as [body|name| | |name|path]; cbn [route];
    unfold post_register, get_events, get_health, get_admin_connections,
      get_admin_client, not_found, respond, timestamp, getStatus;
    repeat wired_step.
Qed.

Lemma wired_listener ev : wired (listener env ev).
Proof.
  destruct ev; cbn [listener];
    unfold on_connect, on_ready, on_error, on_close, on_reconnecting,
      on_message; repeat wired_step.
Qed.

Lemma wired_emit_to installed c ev : wired (emit_to env installed c ev).
Proof.
  induction installed as [|[c' name] rest IH]; cbn [emit_to].
  - repeat wired_step.
  - apply wired_and_then; [|intros _; exact IH].
    case_bool_decide; [apply wired_listener | repeat wired_step].
Qed.

Lemma occurrences_app {A} (p : A -> bool) l1 l2 :
  occurrences p (l1 ++ l2) = occurrences p l1 + occurrences p l2.
Proof. unfold occurrences. by rewrite filter_app, length_app. Qed.

Lemma occurrences_delete {A} (p : A -> bool) l i x :
  l !! i = Some x ->
  occurrences p l = (if p x then 1 else 0) + occurrences p (delete i l).
Proof.
  intros H. rewrite <- (take_drop_middle l i x H) at 1.
  rewrite delete_take_drop, !occurrences_app.
  unfold occurrences at 2. 
  destruct (p x) eqn:Hp.
  - rewrite filter_cons_True by done. simpl.
    change (length (filter (λ x0 : A, p x0 = true) (drop (S i) l)))
      with (occurrences p (drop (S i) l)). lia.
  - rewrite filter_cons_False by (by rewrite Hp). 
    change (length (filter (λ x0 : A, p x0 = true) (drop (S i) l)))
      with (occurrences p (drop (S i) l)). lia.
Qed.

(** What [start] does after the subscription settled: at most one
    listener for messages is added, nothing is suspended. *)
Lemma start_resume_wiring outcome s :
  (occurrences is_message_listener (listeners (fst (start_resume st outcome s)))
     <= S (occurrences is_message_listener (listeners s)))%nat /\
  awaiting (fst (start_resume st outcome s)) = awaiting s.
Proof.
  unfold start_resume, start_catch, guarded, connect_resume, connect_catch,
    guarded, start_end, subscriber_on.
  destruct outcome as [v|err];
    destruct (this_subscriber s) as [c|] eqn:Hc;
    unfold and_then, done_, raise, gets, app_log, out, assign, process_exit;
    cbn [fst snd this_subscriber output]; rewrite ?Hc;
    cbn [fst snd listeners awaiting output with_listeners with_server
         with_redisSubscriber with_exited];
    rewrite ?occurrences_app; split; try done; try lia.
  unfold occurrences. simpl. lia.
Qed.

Lemma gracefulShutdown_resume_wired outcome :
  wired (gracefulShutdown_resume outcome).
Proof.
  unfold gracefulShutdown_resume, disconnect_resume, gracefulShutdown_end.
  repeat wired_step.
Qed.

Lemma gracefulShutdown_wiring name s :
  listeners (fst (gracefulShutdown env name s)) = listeners s /\
  occurrences is_subscribe (awaiting (fst (gracefulShutdown env name s)))
    = occurrences is_subscribe (awaiting s).
Proof.
  rewrite gracefulShutdown_unfold. cbv zeta.
  set (s2 := if server s then _ else _).
  assert (Hl2 : listeners s2 = listeners s) by (subst s2; by destruct (server s)).
  assert (Ha2 : awaiting s2 = awaiting s) by (subst s2; by destruct (server s)).
  destruct (wired_closeAll s2) as [Hl Ha].
  destruct (closeAll env s2) as [s3 [[]|err]]; cbn [fst] in *.
  - destruct (this_subscriber s3);
      cbn [fst listeners awaiting with_awaiting with_exited output].
    + rewrite occurrences_app. split; [congruence|].
      rewrite Ha, Ha2. unfold occurrences at 2. simpl. lia.
    + split; congruence.
  - split; congruence.
Qed.

Lemma react_settled i outcome s :
  react env st (Settled i outcome) s =
    match awaiting s !! i with
    | Some AwaitSubscribe =>
        start_resume st outcome (with_awaiting (delete i (awaiting s)) s)
    | Some AwaitQuit =>
        gracefulShutdown_resume outcome
          (with_awaiting (delete i (awaiting s)) s)
    | None => (s, Normal tt)
    end.
Proof.
  cbn [react]. unfold and_then at 1, gets at 1. cbn [fst snd].
  by destruct (awaiting s !! i) as [[]|].
Qed.

Lemma turn_wiring input s : wiring s -> wiring (turn env st input s).
Proof.
  unfold wiring. intros Hw. unfold turn. destruct (exited s); [done|].
  assert (Hkeep : forall c : P unit, wired c ->
            (occurrences is_message_listener
               (listeners match c s with
                          | (s', Normal _) => s'
                          | (s', Throw err) =>
                              with_exited (Some 1%Z) (output (OUncaught err) s')
                          end)
             + occurrences is_subscribe
                 (awaiting match c s with
                           | (s', Normal _) => s'
                           | (s', Throw err) =>
                               with_exited (Some 1%Z) (output (OUncaught err) s')
                           end) <= 1)%nat).
  { intros c Hc. destruct (Hc s) as [Hl Ha].
    destruct (c s) as [s1 [[]|err]]; cbn [fst listeners awaiting
      with_exited output] in *; by rewrite Hl, Ha. }
  destruct input as [req res|ev err r|t|c ev|times|err|i outcome| | |name|now].
  7: { rewrite react_settled.
       destruct (awaiting s !! i) as [a|] eqn:Hi; [|exact Hw].
       pose proof (occurrences_delete is_subscribe (awaiting s) i a Hi) as Hd.
       destruct a; cbn [is_subscribe] in Hd.
       - destruct (start_resume_wiring outcome
                     (with_awaiting (delete i (awaiting s)) s)) as [Hl Ha].
         cbn [listeners awaiting with_awaiting] in Hl, Ha.
         destruct (start_resume st outcome _) as [s1 [[]|e1]];
           cbn [fst listeners awaiting with_exited output] in *;
           rewrite Ha; lia.
       - destruct (gracefulShutdown_resume_wired outcome
                     (with_awaiting (delete i (awaiting s)) s)) as [Hl Ha].
         cbn [listeners awaiting with_awaiting] in Hl, Ha.
         destruct (gracefulShutdown_resume outcome _) as [s1 [[]|e1]];
           cbn [fst listeners awaiting with_exited output] in *;
           rewrite Hl, Ha; lia. }
  9: { cbn [react]. destruct (gracefulShutdown_wiring name s) as [Hl Ha].
       destruct (gracefulShutdown env name s) as [s1 [[]|e1]];
         cbn [fst listeners awaiting with_exited output] in *;
         by rewrite Hl, Ha. }
  all: cbn [react]; apply Hkeep.
  - apply wired_handle.
  - repeat wired_step.
  - repeat wired_step.
  - apply wired_and_then; [repeat wired_step|].
    intros installed. apply wired_emit_to.
  - repeat wired_step.
  - unfold reconnectOnError. repeat wired_step.
  - unfold on_listening. repeat wired_step.
  - unfold on_server_closed. repeat wired_step.
  - repeat wired_step.
Qed.

Lemma serving_wiring s : serving env st s -> wiring s.
Proof.
  induction 1 as [t0|s input _ IH]; [|by apply turn_wiring].
  unfold wiring. vm_compute. lia.
Qed.

(** A message run through listeners of which at most one is for messages. *)
Lemma emit_to_message_once installed c chan msg : forall s,
  (occurrences is_message_listener installed <= 1)%nat ->
  emit_to env installed c (BusMessage chan msg) s = (s, Normal tt) \/
  emit_to env installed c (BusMessage chan msg) s
    = lift (handleMessage env (redisSubscriber s) chan msg) s.
Proof.
  induction installed as [|[c' name] rest IH]; intros s Hocc; [by left|].
  rewrite emit_to_cons. case_bool_decide as Hm.
  - destruct Hm as [-> ->]. right.
    assert (Hrest : Forall (fun l => ~ (fst l = c /\
                       snd l = event_name (BusMessage chan msg))) rest).
    { apply Forall_forall. intros [c1 n1] Hin [_ Hn]. cbn [snd event_name] in Hn.
      subst n1. unfold occurrences in Hocc.
      rewrite filter_cons_True in Hocc by done. simpl in Hocc.
      assert (Hz : length (filter (fun l => is_message_listener l = true) rest)
                   = 0) by lia.
      apply length_zero_iff_nil in Hz.
      assert (Hin' : (c1, OnMessage) ∈ filter
                (fun l => is_message_listener l = true) rest)
        by (by apply list_elem_of_filter).
      rewrite Hz in Hin'. by apply elem_of_nil in Hin'. }
    cbn [listener]. unfold on_message, and_then, gets. cbn [fst snd].
    pose proof (handleMessage_returns env (redisSubscriber s) chan msg (world s))
      as Hret.
    unfold lift at 1. rewrite Hret. rewrite emit_to_none by done.
    unfold lift. by rewrite Hret.
  - apply IH. unfold occurrences in *.
    destruct (is_message_listener (c', name)) eqn:Hp.
    + rewrite filter_cons_True in Hocc by done. simpl in Hocc. lia.
    + by rewrite filter_cons_False in Hocc by (by rewrite Hp).
Qed.

(** X29. A bus message is handled at most once. In every state the
    process can be in, a message event of a bus client either changes
    nothing (no listener for messages is installed on that client) or runs
    [handleMessage] exactly once: the process never installs a second
    listener for messages, so no message is delivered twice. *)
Theorem bus_message_handled_at_most_once s c chan msg :
  serving env st s -> exited s = None ->
  let s' := turn env st (Bus c (BusMessage chan msg)) s in
  s' = s \/
  s' = with_world
         (exec (handleMessage env (redisSubscriber s) chan msg) (world s)) s.
Proof.
  intros Hs Hex s'. subst s'. unfold turn. rewrite Hex, react_bus.
  pose proof (serving_wiring s Hs) as Hw. unfold wiring in Hw.
  destruct (emit_to_message_once (listeners s) c chan msg s) as [Heq|Heq];
    [lia | |]; rewrite Heq.
  - by left.
  - right. unfold lift, exec.
    by rewrite (handleMessage_returns env).
Qed.

End Wiring.

Section Retry_policy.

Context (env : Env).

(** X30. The ceiling of the reconnection delay is never applied: a delay
    that a new subscriber returns is exactly 100 ms times the attempt
    number and at most 1000 ms, the attempts being stopped after the
    tenth; the callback only prints. *)
Theorem retry_delay_never_capped cfg t w d :
  result (retryStrategy (new_RedisSubscriber env cfg) t) w = Normal (Some d) ->
  d = (t * 100)%Z /\ (d <= 1000)%Z /\ (t <= 10)%Z /\
  only_logged w (exec (retryStrategy (new_RedisSubscriber env cfg) t) w)
    [LogReconnecting d t].
Proof.
  unfold result, exec, retryStrategy, new_RedisSubscriber.
  cbn [maxReconnectAttempts]. destruct (Z.ltb_spec 10 t) as [Hgt|Hle].
  - discriminate.
  - unfold bind, console_log, ret. cbn [fst snd]. intros [= <-].
    rewrite Z.min_l by lia. split_and!; try lia.
    apply only_logged_print.
Qed.

End Retry_policy.

Section More_witnesses.

Import Scenario.

Lemma bus_message_handled_at_most_once_witness :
  serving accepting defaults (serving_A accepting) /\
  exited (serving_A accepting) = None /\
  (turn accepting defaults (Bus 0 (BusMessage "events-to-store" (record_text "A")))
     (serving_A accepting) = serving_A accepting \/
   turn accepting defaults (Bus 0 (BusMessage "events-to-store" (record_text "A")))
     (serving_A accepting)
   = with_world
       (exec (handleMessage accepting (redisSubscriber (serving_A accepting))
                "events-to-store" (record_text "A"))
          (world (serving_A accepting)))
       (serving_A accepting)).
Proof.
  pose proof (serving_A_serving accepting) as Hs.
  assert (Hex : exited (serving_A accepting) = None)
    by (vm_compute; reflexivity).
  exact (conj Hs (conj Hex
           (bus_message_handled_at_most_once accepting defaults
              (serving_A accepting) 0 "events-to-store" (record_text "A")
              Hs Hex))).
Defined.

Lemma retry_delay_never_capped_witness :
  result (retryStrategy
            (new_RedisSubscriber accepting
               (mkConfig "localhost" 6379 "events-to-store" None)) 3)
    (initial_world 0) = Normal (Some 300%Z) /\
  (300 <= 1000)%Z.
Proof.
  assert (H : result (retryStrategy
                (new_RedisSubscriber accepting
                   (mkConfig "localhost" 6379 "events-to-store" None)) 3)
                (initial_world 0) = Normal (Some 300%Z)) by reflexivity.
  pose proof (retry_delay_never_capped accepting
                (mkConfig "localhost" 6379 "events-to-store" None) 3
                (initial_world 0) 300 H) as (_ & Hle & _).
  exact (conj H Hle).
Defined.

End More_witnesses.
